(** * oh-my-claudecode-website: layered cache and documentation search

    A shallow embedding of [js/services/storageService.js] (the TTL cache
    with its stale-while-revalidate read) and of the query scoring of the
    documentation search widget ([SearchService.fuzzySearch] and
    [SearchService.fuzzyMatch]), with the properties the specification
    states about them.

    Further parts of the two files are embedded after these, each in the
    module of its file: the rest of the cache API ([remove], [clear],
    [preload], [getAsync], [getStats]), and of the search widget the text
    clean-up, the heading ids, the index build on a snapshot of the
    document, and the state of the result panel under its events.

    Conventions of the embedding.
    - Times ([Date.now()], timestamps, TTLs) are integer milliseconds in [Z].
    - JavaScript values are the trees of [JSValue]; [null] is [JNull] and
      [undefined] is [JUndefined].
    - A JavaScript [Map] is an association list in insertion order.
    - Module-level mutable state and the browser's stores are the fields of
      one [World] record, threaded through a state monad [Op].
    - An [async] function is cut at the [await] of the caller-supplied
      [fetchFn]: the part before it runs in the calling turn and leaves a
      [Task] in flight, the part after it runs when the environment settles
      the fetch.  The background refresh is cut a second time, at its
      [await StorageService.set]: the write happens when the fetch has
      resolved, and [onUpdate] and the release of the key in a later turn,
      so that other calls can run in between.  A call of [set] itself is
      one step.
    - The comparison [age > ttl * 0.8] of [isStale] is the one of IEEE 754
      doubles: the product is rounded to 53 significant bits.
    - The search code builds regular expressions from the words of the
      query.  Patterns of literal code units are interpreted; for the
      properties of the result panel that hold for every query, the
      engine is a parameter. *)

From Stdlib Require Import ZArith List String Ascii Bool Lia.
From Stdlib Require Import Sorting.Sorted Sorting.Permutation.
From Stdlib Require Import DecimalString DecimalNat.
From stdpp Require Import base option gmap strings list.

Local Open Scope string_scope.
Local Open Scope list_scope.
Local Open Scope Z_scope.

Module StorageService.

(** ** JavaScript values and their JSON image *)

#[warnings="-register-all"]
Inductive JSValue : Type :=
| JUndefined
| JNull
| JBool (b : bool)
| JNum (n : Z)
| JStr (s : string)
| JBigInt (n : Z)
| JArr (elems : list JSValue)
| JObj (props : list (string * JSValue)).

(** [JSON.stringify] throws a [TypeError] exactly when it reaches a BigInt. *)
Fixpoint jsonSerializable (v : JSValue) : bool :=
  match v with
  | JBigInt _ => false
  | JArr elems => forallb jsonSerializable elems
  | JObj props =>
      (fix all (ps : list (string * JSValue)) : bool :=
         match ps with
         | [] => true
         | (_, JUndefined) :: rest => all rest
         | (_, x) :: rest => jsonSerializable x && all rest
         end) props
  | _ => true
  end.

(** [JSON.parse (JSON.stringify v)] for a value in element position:
    [undefined] inside an array becomes [null], a property whose value is
    [undefined] is left out. *)
Fixpoint jsonClone (v : JSValue) : JSValue :=
  match v with
  | JUndefined => JNull
  | JArr elems => JArr (map jsonClone elems)
  | JObj props =>
      JObj ((fix copy (ps : list (string * JSValue)) : list (string * JSValue) :=
               match ps with
               | [] => []
               | (_, JUndefined) :: rest => copy rest
               | (k, x) :: rest => (k, jsonClone x) :: copy rest
               end) props)
  | _ => v
  end.

(** The same for the value of a property of the serialized object: a
    missing property reads back as [undefined]. *)
Definition jsonCloneField (v : JSValue) : JSValue :=
  match v with
  | JUndefined => JUndefined
  | _ => jsonClone v
  end.

(** ** Cache entries *)

Record Wrapped : Type := mkWrapped {
  data : JSValue;
  timestamp : Z;
  ttl : Z
}.

Definition DEFAULT_TTL : Z := 5 * 60 * 1000.

Definition getCacheKey (key : string) : string := "omc:" +:+ key.

(** What [localStorage] holds under a key: the JSON text of a wrapped entry,
    or text that [JSON.parse] rejects. *)
Inductive Serialized : Type :=
| Corrupt
| Json (w : Wrapped).

(** [JSON.stringify wrappedData]; [None] when it throws. *)
Definition JSON_stringify (w : Wrapped) : option Serialized :=
  match data w with
  | JUndefined => Some (Json w)
  | d => if jsonSerializable d
         then Some (Json (mkWrapped (jsonCloneField d) (timestamp w) (ttl w)))
         else None
  end.

(** [JSON.parse serialized]; [None] when it throws. *)
Definition JSON_parse (s : Serialized) : option Wrapped :=
  match s with
  | Corrupt => None
  | Json w => Some w
  end.

(** ** The world: browser stores and module state *)

Inductive StorageStatus : Type :=
| Available        (* reads and writes succeed *)
| QuotaExceeded    (* [setItem] throws, reads succeed *)
| Disabled.        (* every access throws *)

Inductive FetchOutcome : Type :=
| Resolves (fresh : JSValue)
| Rejects (err : JSValue).

(** A function suspended at an [await]: [revalidateInBackground] and
    [getStaleWhileRevalidate] at their [await fetchFn()], and
    [revalidateInBackground] at the [await StorageService.set(...)] that
    follows, with [onUpdate] and the [finally] still to run. *)
Inductive Task : Type :=
| Revalidating (key : string) (ttl : Z) (onUpdate : bool)
| Fetching (key : string) (ttl : Z) (wrapped : option Wrapped)
| Storing (key : string) (freshData : JSValue) (onUpdate : bool).

Record World : Type := mkWorld {
  clock : Z;                                   (* Date.now() *)
  lsStatus : StorageStatus;
  localStorage : gmap string Serialized;
  memoryCache : list (string * Wrapped);       (* new Map() *)
  hasCacheAPI : bool;                          (* typeof caches !== 'undefined' *)
  cacheAPIWorks : bool;                        (* caches.open / put / match succeed *)
  cacheAPI : gmap string Wrapped;              (* the cache named CACHE_NAME *)
  pendingRevalidations : gset string;          (* new Set() *)
  inflight : list Task;                        (* the suspended functions *)
  updates : list (string * JSValue)            (* onUpdate invocations, latest first *)
}.

Definition withClock (t : Z) (w : World) : World :=
  mkWorld t (lsStatus w) (localStorage w) (memoryCache w) (hasCacheAPI w)
          (cacheAPIWorks w) (cacheAPI w) (pendingRevalidations w) (inflight w) (updates w).

Definition withLocalStorage (ls : gmap string Serialized) (w : World) : World :=
  mkWorld (clock w) (lsStatus w) ls (memoryCache w) (hasCacheAPI w)
          (cacheAPIWorks w) (cacheAPI w) (pendingRevalidations w) (inflight w) (updates w).

Definition withMemoryCache (m : list (string * Wrapped)) (w : World) : World :=
  mkWorld (clock w) (lsStatus w) (localStorage w) m (hasCacheAPI w)
          (cacheAPIWorks w) (cacheAPI w) (pendingRevalidations w) (inflight w) (updates w).

Definition withCacheAPI (c : gmap string Wrapped) (w : World) : World :=
  mkWorld (clock w) (lsStatus w) (localStorage w) (memoryCache w) (hasCacheAPI w)
          (cacheAPIWorks w) c (pendingRevalidations w) (inflight w) (updates w).

Definition withPending (p : gset string) (w : World) : World :=
  mkWorld (clock w) (lsStatus w) (localStorage w) (memoryCache w) (hasCacheAPI w)
          (cacheAPIWorks w) (cacheAPI w) p (inflight w) (updates w).

Definition withInflight (ts : list Task) (w : World) : World :=
  mkWorld (clock w) (lsStatus w) (localStorage w) (memoryCache w) (hasCacheAPI w)
          (cacheAPIWorks w) (cacheAPI w) (pendingRevalidations w) ts (updates w).

Definition withUpdates (us : list (string * JSValue)) (w : World) : World :=
  mkWorld (clock w) (lsStatus w) (localStorage w) (memoryCache w) (hasCacheAPI w)
          (cacheAPIWorks w) (cacheAPI w) (pendingRevalidations w) (inflight w) us.

(** ** The state monad of one synchronous turn *)

Definition Op (A : Type) : Type := World -> A * World.

Definition ret {A} (a : A) : Op A := fun w => (a, w).

Definition bind {A B} (m : Op A) (k : A -> Op B) : Op B :=
  fun w => let (a, w') := m w in k a w'.

Notation "'let*' x ':=' m 'in' k" := (bind m (fun x => k))
  (at level 10, x name, m at level 100, k at level 200).
Notation "m ';;' k" := (bind m (fun _ => k))
  (at level 100, k at level 200, right associativity).

Definition reads {A} (f : World -> A) : Op A := fun w => (f w, w).
Definition modify (f : World -> World) : Op unit := fun w => (tt, f w).

Definition Date_now : Op Z := reads clock.

(** [localStorage.setItem]; [false] when it throws. *)
Definition localStorage_setItem (k : string) (s : Serialized) : Op bool :=
  let* st := reads lsStatus in
  match st with
  | Available =>
      let* ls := reads localStorage in
      modify (withLocalStorage (<[k := s]> ls)) ;;
      ret true
  | _ => ret false
  end.

(** [localStorage.getItem]; [None] when it throws. *)
Definition localStorage_getItem (k : string) : Op (option (option Serialized)) :=
  let* st := reads lsStatus in
  match st with
  | Disabled => ret None
  | _ => let* ls := reads localStorage in ret (Some (ls !! k))
  end.

(** [localStorage.removeItem]; [false] when it throws. *)
Definition localStorage_removeItem (k : string) : Op bool :=
  let* st := reads lsStatus in
  match st with
  | Disabled => ret false
  | _ =>
      let* ls := reads localStorage in
      modify (withLocalStorage (delete k ls)) ;;
      ret true
  end.

(** ** Helpers of the module *)

(** Wrap data with metadata for TTL tracking: [ttl || DEFAULT_TTL]. *)
Definition wrapData (d : JSValue) (ttl : Z) : Op Wrapped :=
  let* now := Date_now in
  ret (mkWrapped d now (if ttl =? 0 then DEFAULT_TTL else ttl)).

(** Check if a cached item is expired.  The callers only pass an entry they
    hold, so [!wrappedData] is false; [!wrappedData.timestamp] is the test
    against zero. *)
Definition isExpired (wrappedData : Wrapped) : Op bool :=
  if timestamp wrappedData =? 0 then ret true else
  let* now := Date_now in
  let age := now - timestamp wrappedData in
  ret (ttl wrappedData <? age).

(** *** The double [ttl * 0.8]

    Numbers are doubles.  The times and TTLs of this development are
    integers, which doubles hold exactly up to 2^53; the one operation of
    the module that rounds is the product [ttl * 0.8].  The literal [0.8]
    is the double 3602879701896397 / 2^52.  With every number written in
    units of 2^-52, the exact product of [ttl] and [0.8] is the integer
    [ttl * POINT_EIGHT], and the double the multiplication returns is the
    nearest number with 53 significant bits, ties going to the even
    significand. *)

Definition TWO_52 : Z := 4503599627370496.
Definition TWO_53 : Z := 9007199254740992.
Definition POINT_EIGHT : Z := 3602879701896397.

Definition nearest53_nonneg (a : Z) : Z :=
  if a <? TWO_53 then a
  else
    let s := Z.log2 a - 52 in
    let q := a / 2 ^ s in
    let r := a mod 2 ^ s in
    let h := 2 ^ (s - 1) in
    (if (h <? r) || ((r =? h) && Z.odd q) then q + 1 else q) * 2 ^ s.

Definition nearest53 (n : Z) : Z :=
  if n <? 0 then - nearest53_nonneg (- n) else nearest53_nonneg n.
Arguments nearest53 : simpl never.

(** [age > ttl * 0.8] on doubles, both sides in units of 2^-52; on an
    integer [age] below 2^53 [nearest53] changes nothing. *)
Definition exceeds_point_eight (age ttl : Z) : bool :=
  nearest53 (ttl * POINT_EIGHT) <? nearest53 (age * TWO_52).
Arguments exceeds_point_eight : simpl never.

(** Check if a cached item is stale: [age > ttl * 0.8]. *)
Definition isStale (wrappedData : Wrapped) : Op bool :=
  if timestamp wrappedData =? 0 then ret true else
  let* now := Date_now in
  let age := now - timestamp wrappedData in
  ret (exceeds_point_eight age (ttl wrappedData)).

Definition setLocalStorage (key : string) (wrappedData : Wrapped) : Op bool :=
  match JSON_stringify wrappedData with
  | None => ret false
  | Some serialized => localStorage_setItem (getCacheKey key) serialized
  end.

Definition getLocalStorage (key : string) : Op (option Wrapped) :=
  let* item := localStorage_getItem (getCacheKey key) in
  match item with
  | None => ret None                     (* access threw *)
  | Some None => ret None                (* !serialized *)
  | Some (Some serialized) => ret (JSON_parse serialized)
  end.

Definition removeLocalStorage (key : string) : Op bool :=
  localStorage_removeItem (getCacheKey key).

(** *** The [Map] behind the in-memory tier *)

Fixpoint Map_set (k : string) (v : Wrapped) (m : list (string * Wrapped))
  : list (string * Wrapped) :=
  match m with
  | [] => [(k, v)]
  | (k', v') :: rest =>
      if String.eqb k' k then (k', v) :: rest else (k', v') :: Map_set k v rest
  end.

Fixpoint Map_get (k : string) (m : list (string * Wrapped)) : option Wrapped :=
  match m with
  | [] => None
  | (k', v') :: rest => if String.eqb k' k then Some v' else Map_get k rest
  end.

Fixpoint Map_delete (k : string) (m : list (string * Wrapped))
  : list (string * Wrapped) :=
  match m with
  | [] => []
  | (k', v') :: rest =>
      if String.eqb k' k then rest else (k', v') :: Map_delete k rest
  end.

Definition Map_size (m : list (string * Wrapped)) : Z := Z.of_nat (length m).

(** [m.keys().next().value] *)
Definition Map_firstKey (m : list (string * Wrapped)) : option string :=
  match m with
  | [] => None
  | (k, _) :: _ => Some k
  end.

Definition setMemoryCache (key : string) (wrappedData : Wrapped) : Op unit :=
  let* m := reads memoryCache in
  let m1 := Map_set (getCacheKey key) wrappedData m in
  modify (withMemoryCache m1) ;;
  if 100 <? Map_size m1 then
    match Map_firstKey m1 with
    | Some firstKey => modify (withMemoryCache (Map_delete firstKey m1))
    | None => ret tt
    end
  else ret tt.

Definition getMemoryCache (key : string) : Op (option Wrapped) :=
  let* m := reads memoryCache in
  ret (Map_get (getCacheKey key) m).

(** Cache API writes and reads; every failure inside the [try] gives
    [false] or [null]. *)
Definition setCacheAPI (key : string) (wrappedData : Wrapped) : Op bool :=
  let* has := reads hasCacheAPI in
  if negb has then ret false else
  let* works := reads cacheAPIWorks in
  if negb works then ret false else
  match JSON_stringify wrappedData with
  | Some (Json body) =>
      let* c := reads cacheAPI in
      modify (withCacheAPI (<[getCacheKey key := body]> c)) ;;
      ret true
  | _ => ret false
  end.

Definition getCacheAPI (key : string) : Op (option Wrapped) :=
  let* has := reads hasCacheAPI in
  if negb has then ret None else
  let* works := reads cacheAPIWorks in
  if negb works then ret None else
  let* c := reads cacheAPI in
  ret (c !! getCacheKey key).

(** [fetchFn()] is called: the call is in flight until the environment
    settles it. *)
Definition call_fetchFn (t : Task) : Op unit :=
  let* ts := reads inflight in
  modify (withInflight (ts ++ [t])).

(** [revalidateInBackground], up to its [await fetchFn()]. *)
Definition revalidateInBackground (key : string) (ttl : Z) (onUpdate : bool)
  : Op unit :=
  let* pending := reads pendingRevalidations in
  if decide (key ∈ pending) then ret tt else
  modify (withPending ({[key]} ∪ pending)) ;;
  call_fetchFn (Revalidating key ttl onUpdate).

(** ** Public API *)

Definition set (key : string) (d : JSValue) (ttl : option Z) : Op bool :=
  let* wrapped := wrapData d (default DEFAULT_TTL ttl) in
  let* stored := setLocalStorage key wrapped in
  if stored then
    setCacheAPI key wrapped ;;
    ret true
  else
    setMemoryCache key wrapped ;;
    ret true.

Definition get (key : string) : Op JSValue :=
  let* fromStorage := getLocalStorage key in
  let* wrapped :=
    match fromStorage with
    | Some w => ret (Some w)
    | None => getMemoryCache key
    end in
  match wrapped with
  | None => ret JNull
  | Some w =>
      let* expired := isExpired w in
      if expired then ret JNull else ret (data w)
  end.

Definition getAsync (key : string) : Op JSValue :=
  let* syncResult := get key in
  match syncResult with
  | JNull =>
      let* wrapped := getCacheAPI key in
      match wrapped with
      | None => ret JNull
      | Some w =>
          let* expired := isExpired w in
          if expired then ret JNull
          else setLocalStorage key w ;; ret (data w)
      end
  | v => ret v
  end.

Record Options : Type := mkOptions {
  opt_ttl : option Z;
  opt_onUpdate : bool          (* whether an onUpdate callback was given *)
}.

(** What the caller of an [async] function observes at the end of the
    calling turn: the promise is already resolved, or it waits for the
    fetch that the call awaits. *)
Inductive CallResult : Type :=
| Returned (v : JSValue)
| Awaiting (key : string) (ttl : Z) (wrapped : option Wrapped).

Definition getStaleWhileRevalidate (key : string) (options : Options)
  : Op CallResult :=
  let ttl := default DEFAULT_TTL (opt_ttl options) in
  let onUpdate := opt_onUpdate options in
  let* fromStorage := getLocalStorage key in
  let* wrapped :=
    match fromStorage with
    | Some w => ret (Some w)
    | None => getMemoryCache key
    end in
  let* early :=
    match wrapped with
    | None => ret None
    | Some w =>
        let* expired := isExpired w in
        let* stale := isStale w in
        if negb expired && negb stale then ret (Some (data w))
        else if negb expired && stale then
          revalidateInBackground key ttl onUpdate ;;
          ret (Some (data w))
        else if expired then
          match data w with
          | JUndefined => ret None
          | d => revalidateInBackground key ttl onUpdate ;; ret (Some d)
          end
        else ret None
    end in
  match early with
  | Some v => ret (Returned v)
  | None =>
      call_fetchFn (Fetching key ttl wrapped) ;;
      ret (Awaiting key ttl wrapped)
  end.

Definition remove (key : string) : Op unit :=
  removeLocalStorage key ;;
  let* m := reads memoryCache in
  modify (withMemoryCache (Map_delete (getCacheKey key) m)) ;;
  let* has := reads hasCacheAPI in
  let* works := reads cacheAPIWorks in
  if has && works then
    let* c := reads cacheAPI in
    modify (withCacheAPI (delete (getCacheKey key) c))
  else ret tt.

Definition clear : Op unit :=
  let* st := reads lsStatus in
  match st with
  | Disabled => ret tt
  | _ =>
      let* ls := reads localStorage in
      modify (withLocalStorage
                (filter (fun kv => negb (String.prefix "omc:" (fst kv)) = true) ls))
  end ;;
  modify (withMemoryCache []) ;;
  let* has := reads hasCacheAPI in
  let* works := reads cacheAPIWorks in
  if has && works then modify (withCacheAPI ∅) else ret tt.

Record PreloadItem : Type := mkItem {
  item_key : string;
  item_data : JSValue;
  item_ttl : option Z
}.

Fixpoint preload (items : list PreloadItem) : Op unit :=
  match items with
  | [] => ret tt
  | item :: rest =>
      let ttl := match item_ttl item with
                 | Some 0 | None => DEFAULT_TTL
                 | Some t => t
                 end in
      set (item_key item) (item_data item) (Some ttl) ;;
      preload rest
  end.

(** ** Continuations: what runs when a fetch settles *)

Inductive Completion : Type :=
| Resolved (v : JSValue)
| Rejected (err : JSValue).

(** The rest of [revalidateInBackground] after [await fetchFn()], up to
    its next [await].  When the fetch resolved, [StorageService.set] is
    called and the function waits for it, still holding the guard; when it
    rejected, the [catch] and the [finally] run at once. *)
Definition revalidate_settled (key : string) (ttl : Z) (onUpdate : bool)
    (o : FetchOutcome) : Op unit :=
  match o with
  | Resolves freshData =>
      set key freshData (Some ttl) ;;
      let* ts := reads inflight in
      modify (withInflight (ts ++ [Storing key freshData onUpdate]))
  | Rejects _ =>
      let* pending := reads pendingRevalidations in
      modify (withPending (pending ∖ {[key]}))
  end.

(** The rest of [revalidateInBackground] after [await
    StorageService.set(...)]: [onUpdate], then the [finally]. *)
Definition revalidate_stored (key : string) (freshData : JSValue)
    (onUpdate : bool) : Op unit :=
  (if onUpdate then
     let* us := reads updates in
     modify (withUpdates ((key, freshData) :: us))
   else ret tt) ;;
  let* pending := reads pendingRevalidations in
  modify (withPending (pending ∖ {[key]})).

(** The rest of [getStaleWhileRevalidate] after [await fetchFn()]. *)
Definition fetch_settled (key : string) (ttl : Z) (wrapped : option Wrapped)
    (o : FetchOutcome) : Op Completion :=
  match o with
  | Resolves freshData =>
      set key freshData (Some ttl) ;;
      ret (Resolved freshData)
  | Rejects e =>
      match wrapped with
      | Some w =>
          match data w with
          | JUndefined => ret (Rejected e)
          | d => ret (Resolved d)
          end
      | None => ret (Rejected e)
      end
  end.

(** ** The event loop

    One event is one turn: a call of the public API by the page, the
    settling of a [fetchFn] call in flight, the resumption of a function
    that waits for [StorageService.set], or a change of the platform (time
    passing, storage filling up or becoming unavailable). *)

Inductive Event : Type :=
| Tick (d : N)
| StorageChanges (st : StorageStatus)
| CacheAPIChanges (works : bool)
| CallSet (key : string) (d : JSValue) (ttl : option Z)
| CallGet (key : string)
| CallGetAsync (key : string)
| CallSWR (key : string) (options : Options)
| CallRemove (key : string)
| CallClear
| CallPreload (items : list PreloadItem)
| Settle (i : nat) (o : FetchOutcome)
| Resume (i : nat).

Definition settle (t : Task) (o : FetchOutcome) : Op unit :=
  match t with
  | Revalidating key ttl onUpdate => revalidate_settled key ttl onUpdate o
  | Fetching key ttl wrapped => fetch_settled key ttl wrapped o ;; ret tt
  | Storing _ _ _ => ret tt
  end.

Definition step (e : Event) (w : World) : World :=
  match e with
  | Tick d => withClock (clock w + Z.of_N d) w
  | StorageChanges st =>
      mkWorld (clock w) st (localStorage w) (memoryCache w) (hasCacheAPI w)
              (cacheAPIWorks w) (cacheAPI w) (pendingRevalidations w)
              (inflight w) (updates w)
  | CacheAPIChanges b =>
      mkWorld (clock w) (lsStatus w) (localStorage w) (memoryCache w)
              (hasCacheAPI w) b (cacheAPI w) (pendingRevalidations w)
              (inflight w) (updates w)
  | CallSet key d ttl => snd (set key d ttl w)
  | CallGet key => snd (get key w)
  | CallGetAsync key => snd (getAsync key w)
  | CallSWR key options => snd (getStaleWhileRevalidate key options w)
  | CallRemove key => snd (remove key w)
  | CallClear => snd (clear w)
  | CallPreload items => snd (preload items w)
  | Settle i o =>
      match inflight w !! i with
      | None | Some (Storing _ _ _) => w
      | Some t => snd (settle t o (withInflight (delete i (inflight w)) w))
      end
  | Resume i =>
      match inflight w !! i with
      | Some (Storing key freshData onUpdate) =>
          snd (revalidate_stored key freshData onUpdate
                 (withInflight (delete i (inflight w)) w))
      | _ => w
      end
  end.

Definition run (events : list Event) (w : World) : World :=
  fold_left (fun acc e => step e acc) events w.

(** A page load: nothing in memory, nothing pending, nothing in flight. *)
Definition freshWorld (now : Z) (st : StorageStatus)
    (ls : gmap string Serialized) : World :=
  mkWorld now st ls [] true true ∅ ∅ [] [].

(** ** Notions used by the statements *)

(** The entry a read resolves [key] to: persistent tier first, then the
    in-memory tier. *)
Definition cachedEntry (w : World) (key : string) : option Wrapped :=
  match fst (getLocalStorage key w) with
  | Some e => Some e
  | None => fst (getMemoryCache key w)
  end.

(** Background [fetchFn] calls in flight for [key]. *)
Fixpoint revalidating (key : string) (ts : list Task) : nat :=
  match ts with
  | [] => O
  | Revalidating k _ _ :: rest =>
      if String.eqb k key then S (revalidating key rest) else revalidating key rest
  | _ :: rest => revalidating key rest
  end.

(** Whether a suspended function is a background refresh of [key], before
    or after its fetch settled; such a function holds the guard. *)
Definition guards (key : string) (t : Task) : bool :=
  match t with
  | Revalidating k _ _ | Storing k _ _ => String.eqb k key
  | Fetching _ _ _ => false
  end.

(** Background refreshes of [key] that have not finished. *)
Definition guarding (key : string) (ts : list Task) : nat :=
  length (List.filter (guards key) ts).

(** The pending set guards exactly the background refreshes that have not
    finished: a key is in it when one refresh of the key is under way, and
    there is never more than one. *)
Definition coalesced (w : World) : Prop :=
  forall key,
    guarding key (inflight w) =
    if decide (key ∈ pendingRevalidations w) then 1%nat else 0%nat.

(** What [setMemoryCache] leaves in the map. *)
Definition afterSetMemory (k : string) (v : Wrapped) (m : list (string * Wrapped))
  : list (string * Wrapped) :=
  let m1 := Map_set k v m in
  if 100 <? Map_size m1 then
    match Map_firstKey m1 with
    | Some firstKey => Map_delete firstKey m1
    | None => m1
    end
  else m1.

(** Expired at time [now], as [isExpired] decides it. *)
Definition expiredAt (now : Z) (e : Wrapped) : bool :=
  (timestamp e =? 0) || (ttl e <? now - timestamp e).

(** Stale at time [now], as [isStale] decides it. *)
Definition staleAt (now : Z) (e : Wrapped) : bool :=
  (timestamp e =? 0) || exceeds_point_eight (now - timestamp e) (ttl e).

(** The entry the persistent tier gives for [key], if it gives one. *)
Definition persisted (w : World) (key : string) : option Wrapped :=
  match lsStatus w with
  | Disabled => None
  | _ => localStorage w !! getCacheKey key ≫= JSON_parse
  end.

(** The TTL an entry gets: the default for a missing argument and for 0. *)
Definition effectiveTtl (ttl : option Z) : Z :=
  let t := default DEFAULT_TTL ttl in
  if t =? 0 then DEFAULT_TTL else t.

Definition isUndefined (v : JSValue) : bool :=
  match v with JUndefined => true | _ => false end.

(** The part of the world the asynchronous bookkeeping lives in. *)
Definition sameAsync (w w' : World) : Prop :=
  pendingRevalidations w' = pendingRevalidations w /\ inflight w' = inflight w.

(** The in-memory tier is within its capacity. *)
Definition bounded (w : World) : Prop := Map_size (memoryCache w) <= 100.


(** A value that survives [JSON.stringify] and [JSON.parse] unchanged. *)
Definition jsonValue (v : JSValue) : Prop :=
  jsonSerializable v = true /\ jsonCloneField v = v.


(** How the promise returned by [getStaleWhileRevalidate] settles, when the
    call is made in world [w] and the fetch it may await settles with [o]
    in world [later]. *)
Definition swrPromise (key : string) (options : Options) (o : FetchOutcome)
    (w later : World) : Completion :=
  match fst (getStaleWhileRevalidate key options w) with
  | Returned v => Resolved v
  | Awaiting k ttl wrapped => fst (fetch_settled k ttl wrapped o later)
  end.

(** ** Cache statistics *)

Definition CACHE_VERSION : string := "v1".
Definition CACHE_NAME : string := "omc-website-" +:+ CACHE_VERSION.

Record Stats : Type := mkStats {
  localStorageItems : nat;
  memoryCacheItems : nat;
  pendingRevalidationsCount : nat;
  cacheAPIName : string
}.

(** [getStats]: the keys of [localStorage] under the prefix are counted
    inside a [try]; when the storage throws the count stays at 0. *)
Definition getStats : Op Stats :=
  let* st := reads lsStatus in
  let* localStorageCount :=
    match st with
    | Disabled => ret O
    | _ =>
        let* ls := reads localStorage in
        ret (size (filter (fun kv => String.prefix "omc:" (fst kv) = true) ls))
    end in
  let* m := reads memoryCache in
  let* pending := reads pendingRevalidations in
  ret (mkStats localStorageCount (length m) (size pending) CACHE_NAME).

(** ** Further notions used by the statements *)

(** The keys of the [Map] are pairwise different. *)
Definition uniqueKeys (m : list (string * Wrapped)) : Prop :=
  NoDup (map fst m).

(** All background refreshes that have not finished, whatever their key. *)
Definition isRefresh (t : Task) : bool :=
  match t with
  | Revalidating _ _ _ | Storing _ _ _ => true
  | Fetching _ _ _ => false
  end.

Definition unfinishedRefreshes (ts : list Task) : nat :=
  length (List.filter isRefresh ts).

(** Read as stale and not expired, by the tests of the code. *)
Definition readAsStale (e : Wrapped) (t : Z) : Prop :=
  expiredAt t e = false /\ staleAt t e = true.

(** Neither stale nor expired at time [t]: at most 0.8 of the TTL old. *)
Definition inFreshWindow (e : Wrapped) (t : Z) : Prop :=
  timestamp e <> 0 /\ t - timestamp e <= ttl e /\
  5 * (t - timestamp e) <= 4 * ttl e.

(** A page load in a browser of any configuration: nothing in memory,
    nothing pending, nothing suspended. *)
Definition pageLoad (now : Z) (st : StorageStatus) (ls : gmap string Serialized)
    (has works : bool) (cache : gmap string Wrapped) : World :=
  mkWorld now st ls [] has works cache ∅ [] [].

(** A page that writes [n] different keys, one after the other. *)
Definition writes (n : nat) : list Event :=
  map (fun i => CallSet (String (ascii_of_nat i) EmptyString)
                        (JNum (Z.of_nat i)) None)
      (seq 0 n).




(** The TTL [preload] hands to [set]: [item.ttl || DEFAULT_TTL]. *)
Definition preloadTtl (item : PreloadItem) : Z :=
  match item_ttl item with
  | Some 0 | None => DEFAULT_TTL
  | Some t => t
  end.

End StorageService.

Module SearchService.

(** ** Strings

    A string is a sequence of code units below 256 (Latin-1); the string
    primitives of the platform are given on that range. *)

Definition inRange (lo hi : N) (c : ascii) : bool :=
  ((lo <=? N_of_ascii c) && (N_of_ascii c <=? hi))%N.

(** [String.prototype.toLowerCase] on one code unit: A-Z, and the Latin-1
    capitals U+00C0..U+00DE except the multiplication sign U+00D7. *)
Definition toLowerChar (c : ascii) : ascii :=
  if inRange 65 90 c || (inRange 192 222 c && negb (N_of_ascii c =? 215)%N)
  then ascii_of_N (N_of_ascii c + 32)
  else c.

Fixpoint toLowerCase (s : string) : string :=
  match s with
  | EmptyString => EmptyString
  | String c rest => String (toLowerChar c) (toLowerCase rest)
  end.

(** The class [\s]: TAB, LF, VT, FF, CR, space and the no-break space. *)
Definition isWhitespace (c : ascii) : bool :=
  inRange 9 13 c || (N_of_ascii c =? 32)%N || (N_of_ascii c =? 160)%N.

(** The class [\w]: [A-Za-z0-9_]. *)
Definition isWordChar (c : ascii) : bool :=
  inRange 65 90 c || inRange 97 122 c || inRange 48 57 c || (N_of_ascii c =? 95)%N.

Fixpoint startsWith (text q : string) : bool :=
  match q with
  | EmptyString => true
  | String a q' =>
      match text with
      | EmptyString => false
      | String b text' => Ascii.eqb a b && startsWith text' q'
      end
  end.

Fixpoint includes (text q : string) : bool :=
  startsWith text q ||
  match text with
  | EmptyString => false
  | String _ text' => includes text' q
  end.

(** [s.split(/\s+/)]: the pieces between maximal runs of whitespace; a run
    at either end leaves an empty piece there. *)
Fixpoint splitWhitespace (s : string) : list string :=
  match s with
  | EmptyString => [EmptyString]
  | String c rest =>
      let pieces := splitWhitespace rest in
      if isWhitespace c then
        match rest with
        | String c' _ => if isWhitespace c' then pieces else EmptyString :: pieces
        | EmptyString => EmptyString :: pieces
        end
      else
        match pieces with
        | piece :: others => String c piece :: others
        | [] => [String c EmptyString]
        end
  end.

(** ** The regular expression [new RegExp(`\\b${word}`, 'i')]

    The word is pasted into the pattern as it is.  Three cases are told
    apart: the word has no syntax character and the pattern is the literal
    word after a word boundary; the pattern is certainly rejected by the
    RegExp constructor; anything else, which this development does not
    interpret. *)

Definition isSyntaxChar (c : ascii) : bool :=
  existsb (Ascii.eqb c)
    (list_ascii_of_string "^$\.*+?()[]{}|").

Definition isQuantifierChar (c : ascii) : bool :=
  existsb (Ascii.eqb c) (list_ascii_of_string "*+?").

Inductive PatternClass : Type :=
| LiteralPattern
| InvalidPattern      (* the constructor throws a SyntaxError *)
| OtherPattern.

(** Reads the pattern up to its first syntax character.  A quantifier with
    nothing to repeat (directly after [\b], or directly after another
    quantifier and its optional [?]) and a closing parenthesis that was
    never opened are errors whatever follows. *)
Fixpoint classifyPattern (quantifiable : bool) (word : string) : PatternClass :=
  match word with
  | EmptyString => LiteralPattern
  | String c rest =>
      if isQuantifierChar c then
        if quantifiable then
          let after := match rest with
                       | String "?"%char rest' => rest'
                       | _ => rest
                       end in
          match after with
          | String c' _ => if isQuantifierChar c' then InvalidPattern else OtherPattern
          | EmptyString => OtherPattern
          end
        else InvalidPattern
      else if Ascii.eqb c ")"%char then InvalidPattern
      else if isSyntaxChar c then OtherPattern
      else classifyPattern true rest
  end.

(** Equality of code units under the [i] flag. *)
Definition sameLetter (a b : ascii) : bool :=
  Ascii.eqb (toLowerChar a) (toLowerChar b).

Fixpoint startsWithIgnoreCase (text word : string) : bool :=
  match word with
  | EmptyString => true
  | String a word' =>
      match text with
      | EmptyString => false
      | String b text' => sameLetter a b && startsWithIgnoreCase text' word'
      end
  end.

(** The assertion [\b] between the code unit before a position and the
    text from the position on. *)
Definition wordBoundary (before : option ascii) (rest : string) : bool :=
  xorb (match before with Some c => isWordChar c | None => false end)
       (match rest with String c _ => isWordChar c | EmptyString => false end).

Fixpoint matchAtBoundary (before : option ascii) (text word : string) : bool :=
  (wordBoundary before text && startsWithIgnoreCase text word) ||
  match text with
  | EmptyString => false
  | String c text' => matchAtBoundary (Some c) text' word
  end.

Inductive Outcome (A : Type) : Type :=
| Ok (a : A)
| Throws            (* a SyntaxError leaves the function *)
| NotInterpreted.   (* the pattern is outside the interpreted fragment *)
Arguments Ok {A} a.
Arguments Throws {A}.
Arguments NotInterpreted {A}.

Definition andThen {A B} (m : Outcome A) (k : A -> Outcome B) : Outcome B :=
  match m with
  | Ok a => k a
  | Throws => Throws
  | NotInterpreted => NotInterpreted
  end.

(** [new RegExp(`\\b${word}`, 'i').test(text)] *)
Definition wordBoundaryTest (word text : string) : Outcome bool :=
  match classifyPattern false word with
  | LiteralPattern => Ok (matchAtBoundary None text word)
  | InvalidPattern => Throws
  | OtherPattern => NotInterpreted
  end.

(** ** The index and the query *)

Inductive EntryType : Type := heading | content.

Record IndexEntry : Type := mkEntry {
  type : EntryType;
  text : string;
  id : string;
  context : string;
  weight : Z
}.

Record SearchResult : Type := mkResult {
  entry : IndexEntry;
  score : Z
}.

(** One step of the two-pointer loop consumes one code unit of the text and
    moves on in the pattern when the two code units agree; the loop ends
    when either is used up, and the answer is whether the pattern is. *)
Fixpoint fuzzyMatch (text pattern : string) {struct text} : bool :=
  match pattern with
  | EmptyString => true
  | String p pattern' =>
      match text with
      | EmptyString => false
      | String t text' =>
          if Ascii.eqb t p then fuzzyMatch text' pattern'
          else fuzzyMatch text' pattern
      end
  end.

(** The body of [queryWords.forEach], on the running score. *)
Definition scoreWord (item : IndexEntry) (textLower : string)
    (acc : Outcome Z) (word : string) : Outcome Z :=
  andThen acc (fun score =>
    if includes textLower word then
      andThen (wordBoundaryTest word (text item)) (fun atBoundary =>
        Ok (if atBoundary then score + 3 + 2 else score + 3))
    else Ok score).

(** The body of [this.index.forEach], up to the weighting. *)
Definition scoreItem (queryLower : string) (queryWords : list string)
    (item : IndexEntry) : Outcome Z :=
  let textLower := toLowerCase (text item) in
  let score := 0 in
  let score :=
    if includes textLower queryLower then
      if startsWith textLower queryLower then score + 10 + 5 else score + 10
    else score in
  andThen (fold_left (scoreWord item textLower) queryWords (Ok score))
    (fun score =>
       let score := if fuzzyMatch textLower queryLower then score + 2 else score in
       Ok (score * weight item)).

(** [this.index.forEach] with its [results.push]. *)
Fixpoint collect (queryLower : string) (queryWords : list string)
    (index : list IndexEntry) (results : list SearchResult)
  : Outcome (list SearchResult) :=
  match index with
  | [] => Ok results
  | item :: rest =>
      andThen (scoreItem queryLower queryWords item) (fun score =>
        collect queryLower queryWords rest
          (if 0 <? score then results ++ [mkResult item score] else results))
  end.

(** [Array.prototype.sort] with [(a, b) => b.score - a.score]: a stable
    sort, larger scores first. *)
Fixpoint insertByScore (r : SearchResult) (sorted : list SearchResult)
  : list SearchResult :=
  match sorted with
  | [] => [r]
  | r' :: rest =>
      if score r' <=? score r then r :: sorted
      else r' :: insertByScore r rest
  end.

Fixpoint sortByScore (results : list SearchResult) : list SearchResult :=
  match results with
  | [] => []
  | r :: rest => insertByScore r (sortByScore rest)
  end.

(** [results.slice(0, end)] *)
Definition slice0 {A} (l : list A) (finish : Z) : list A :=
  let len := Z.of_nat (length l) in
  let final := if finish <? 0 then Z.max (len + finish) 0 else Z.min finish len in
  firstn (Z.to_nat final) l.

(** [options.maxResults || 10] *)
Definition maxResultsOf (option_maxResults : option Z) : Z :=
  match option_maxResults with
  | None | Some 0 => 10
  | Some n => n
  end.

Definition fuzzySearch (maxResults : Z) (index : list IndexEntry)
    (query : string) : Outcome (list SearchResult) :=
  let queryLower := toLowerCase query in
  let queryWords := splitWhitespace queryLower in
  andThen (collect queryLower queryWords index [])
    (fun results => Ok (slice0 (sortByScore results) maxResults)).

(** The weighted score [fuzzySearch] computes for one entry. *)
Definition entryScore (query : string) (item : IndexEntry) : Outcome Z :=
  scoreItem (toLowerCase query) (splitWhitespace (toLowerCase query)) item.

(** ** The scoring rule in the words of the specification *)

(** [pattern] is an ordered, possibly non-contiguous, subsequence of [text]. *)
Inductive Subsequence : string -> string -> Prop :=
| sub_done text : Subsequence EmptyString text
| sub_take c pattern text :
    Subsequence pattern text -> Subsequence (String c pattern) (String c text)
| sub_skip c pattern text :
    Subsequence pattern text -> Subsequence pattern (String c text).

(** A word with no regular-expression syntax character. *)
Definition isLiteralWord (word : string) : bool :=
  match classifyPattern false word with
  | LiteralPattern => true
  | _ => false
  end.

Definition startsWithWordChar (word : string) : bool :=
  match word with
  | String c _ => isWordChar c
  | EmptyString => false
  end.

(** +3 for a word that is a substring of the lowercased text, +2 more when
    the word occurs at a word boundary of the text, letter case ignored. *)
Definition specWordBonus (item : IndexEntry) (word : string) : Z :=
  if includes (toLowerCase (text item)) word then
    3 + (if matchAtBoundary None (text item) word then 2 else 0)
  else 0.

Definition specRawScore (query : string) (item : IndexEntry) : Z :=
  let textLower := toLowerCase (text item) in
  let queryLower := toLowerCase query in
  (if includes textLower queryLower then
     10 + (if startsWith textLower queryLower then 5 else 0)
   else 0)
  + fold_right (fun word sum => specWordBonus item word + sum) 0
      (splitWhitespace queryLower)
  + (if fuzzyMatch textLower queryLower then 2 else 0).

(** Larger scores first. *)
Definition descending (l : list SearchResult) : Prop :=
  StronglySorted (fun a b => score b <= score a) l.

Definition specScore (query : string) (item : IndexEntry) : Z :=
  specRawScore query item * weight item.

(** Score every entry, drop the scores that are not positive, sort by score
    with the larger first, keep the first [maxResults]. *)
Definition specSearch (maxResults : Z) (index : list IndexEntry) (query : string)
  : list SearchResult :=
  slice0
    (sortByScore
       (List.filter (fun r => 0 <? score r)
          (map (fun item => mkResult item (specScore query item)) index)))
    maxResults.

(** ** Text clean-up and heading ids *)

(** [String.prototype.trim]: on code units below 256 the characters it
    strips are those of [\s]. *)
Fixpoint trimStart (s : string) : string :=
  match s with
  | EmptyString => EmptyString
  | String c rest => if isWhitespace c then trimStart rest else s
  end.

Fixpoint trimEnd (s : string) : string :=
  match s with
  | EmptyString => EmptyString
  | String c rest =>
      match trimEnd rest with
      | EmptyString => if isWhitespace c then EmptyString else String c EmptyString
      | kept => String c kept
      end
  end.

Definition trim (s : string) : string := trimEnd (trimStart s).

(** [s.replace(/\s+/g, ' ')]: every maximal run of whitespace becomes one
    space; [inRun] says that the code unit before was whitespace. *)
Fixpoint collapseWhitespace (inRun : bool) (s : string) : string :=
  match s with
  | EmptyString => EmptyString
  | String c rest =>
      if isWhitespace c then
        if inRun then collapseWhitespace true rest
        else String " "%char (collapseWhitespace true rest)
      else String c (collapseWhitespace false rest)
  end.

(** [s.replace(/\n/g, ' ')] *)
Fixpoint replaceNewlines (s : string) : string :=
  match s with
  | EmptyString => EmptyString
  | String c rest =>
      String (if Ascii.eqb c "010"%char then " "%char else c) (replaceNewlines rest)
  end.

Definition cleanText (text : string) : string :=
  trim (replaceNewlines (collapseWhitespace false text)).

(** The class [[a-z0-9]]. *)
Definition isSlugChar (c : ascii) : bool :=
  inRange 97 122 c || inRange 48 57 c.

(** [s.replace(/[^a-z0-9]+/g, '-')] *)
Fixpoint dashRuns (inRun : bool) (s : string) : string :=
  match s with
  | EmptyString => EmptyString
  | String c rest =>
      if isSlugChar c then String c (dashRuns false rest)
      else if inRun then dashRuns true rest
      else String "-"%char (dashRuns true rest)
  end.

Fixpoint dropLastDash (s : string) : string :=
  match s with
  | EmptyString => EmptyString
  | String c EmptyString => if Ascii.eqb c "-"%char then EmptyString else s
  | String c rest => String c (dropLastDash rest)
  end.

(** [s.replace(/^-|-$/g, '')]: a dash at the very start and a dash at the
    very end are taken out. *)
Definition stripDashes (s : string) : string :=
  dropLastDash (match s with
                | String c rest => if Ascii.eqb c "-"%char then rest else s
                | EmptyString => s
                end).

(** The [base] of [generateId]. *)
Definition slug (textContent : string) : string :=
  stripDashes (dashRuns false (toLowerCase textContent)).

(** [document.getElementById(id)] is not null: [ids] are the ids of the
    document, and an empty id names no element. *)
Definition getElementById (ids : gset string) (id : string) : bool :=
  match id with
  | EmptyString => false
  | _ => bool_decide (id ∈ ids)
  end.

(** The text of a counter in a template literal. *)
Definition decimal (n : nat) : string :=
  NilEmpty.string_of_uint (Nat.to_uint n).

(** The [while] loop of [generateId]; [None] if the fuel runs out. *)
Fixpoint nextFreeId (fuel : nat) (ids : gset string) (base id : string)
    (counter : nat) : option string :=
  if getElementById ids id then
    match fuel with
    | O => None
    | S fuel' =>
        nextFreeId fuel' ids base (base +:+ "-" +:+ decimal counter) (S counter)
    end
  else Some id.

(** [generateId]: the loop leaves after at most as many rounds as the
    document has ids. *)
Definition generateId (ids : gset string) (textContent : string) : option string :=
  let base := slug textContent in
  nextFreeId (size ids) ids base base 1.

(** The candidates the loop goes through. *)
Definition candidateId (base : string) (n : nat) : string :=
  match n with
  | O => base
  | S _ => base +:+ "-" +:+ decimal n
  end.

(** A cleaned text: no whitespace at either end, and every whitespace
    inside is one space between two other code units. *)
Fixpoint spacesSingle (s : string) : bool :=
  match s with
  | EmptyString => true
  | String c rest =>
      (if isWhitespace c then
         Ascii.eqb c " "%char &&
         match rest with
         | String c' _ => negb (isWhitespace c')
         | EmptyString => false
         end
       else true) && spacesSingle rest
  end.

Definition isCleanText (s : string) : bool :=
  match s with
  | String c _ => negb (isWhitespace c)
  | EmptyString => true
  end && spacesSingle s.

(** A slug: lower-case letters, digits and single dashes between them. *)
Fixpoint dashesSingle (s : string) : bool :=
  match s with
  | EmptyString => true
  | String c rest =>
      (if isSlugChar c then true
       else Ascii.eqb c "-"%char &&
            match rest with
            | String c' _ => isSlugChar c'
            | EmptyString => false
            end) && dashesSingle rest
  end.

Definition isSlug (s : string) : bool :=
  match s with
  | String c _ => isSlugChar c
  | EmptyString => true
  end && dashesSingle s.

(** ** The result panel *)

Record Panel : Type := mkPanel {
  isOpen : bool;
  items : list SearchResult;    (* the .search-result-item elements *)
  selectedIndex : Z
}.

Definition initialPanel : Panel := mkPanel false [] (-1).

Definition clearResults (p : Panel) : Panel :=
  mkPanel (isOpen p) [] (-1).

(** The regular expressions of [highlightMatch]: one
    [new RegExp(`(${word})`, 'gi')] for every word of the query that is not
    empty.  A word without syntax character gives a group around the
    literal word, which the constructor accepts; other words are not
    interpreted.  The markup is not part of the panel. *)
Definition highlightWords (query : string) : list string :=
  List.filter (fun w => 0 <? Z.of_nat (String.length w))
    (splitWhitespace (toLowerCase query)).

Definition highlightMatch (query : string) : Outcome unit :=
  if forallb isLiteralWord (highlightWords query) then Ok tt else NotInterpreted.

(** [renderResults]: without results the message replaces the list and
    the selection is left as it is; with results every text is
    highlighted, the list shows them and the first is selected. *)
Definition renderResults (results : list SearchResult) (query : string)
    (p : Panel) : Outcome Panel :=
  match results with
  | [] => Ok (mkPanel (isOpen p) [] (selectedIndex p))
  | _ => andThen (highlightMatch query)
           (fun _ => Ok (mkPanel (isOpen p) results 0))
  end.

(** [options.minQueryLength || 2] *)
Definition minQueryLengthOf (option_minQueryLength : option Z) : Z :=
  match option_minQueryLength with
  | None | Some 0 => 2
  | Some n => n
  end.

Definition performSearch (minQueryLength maxResults : Z)
    (index : list IndexEntry) (query : string) (p : Panel) : Outcome Panel :=
  let query := trim query in
  if Z.of_nat (String.length query) <? minQueryLength then Ok (clearResults p)
  else
    andThen (fuzzySearch maxResults index query)
      (fun results => renderResults results query p).

(** [%] on integers: the remainder has the sign of the dividend. *)
Definition selectNext (p : Panel) : Panel :=
  match items p with
  | [] => p
  | _ =>
      mkPanel (isOpen p) (items p)
        (Z.rem (selectedIndex p + 1) (Z.of_nat (length (items p))))
  end.

Definition selectPrevious (p : Panel) : Panel :=
  match items p with
  | [] => p
  | _ =>
      mkPanel (isOpen p) (items p)
        (Z.rem (selectedIndex p - 1 + Z.of_nat (length (items p)))
               (Z.of_nat (length (items p))))
  end.

Definition open (p : Panel) : Panel := mkPanel true (items p) (selectedIndex p).
Definition close (p : Panel) : Panel := mkPanel false (items p) (selectedIndex p).

(** [items[i]] of a NodeList *)
Definition itemAt (p : Panel) (i : Z) : option SearchResult :=
  if i <? 0 then None else items p !! Z.to_nat i.

(** [navigateToResult]: the scrolling aside, the panel closes. *)
Definition navigateToResult (resultItem : SearchResult) (p : Panel) : Panel :=
  close p.

Definition activateSelected (p : Panel) : Panel :=
  match itemAt p (selectedIndex p) with
  | Some resultItem => navigateToResult resultItem p
  | None => p
  end.

(** The [keydown] listener; [typing] is [isTypingInInput(e.target)]. *)
Definition keydown (key : string) (typing : bool) (p : Panel) : Panel :=
  let p := if String.eqb key "/" && negb typing then open p else p in
  let p := if String.eqb key "Escape" && isOpen p then close p else p in
  if isOpen p then
    if String.eqb key "ArrowDown" then selectNext p
    else if String.eqb key "ArrowUp" then selectPrevious p
    else if String.eqb key "Enter" then activateSelected p
    else p
  else p.

(** What happens to the panel. *)
Inductive UiEvent : Type :=
| Typed (query : string)             (* the debounced input listener *)
| Focused                            (* focus on the input *)
| ClickedOutside
| ClickedResult (i : nat)
| KeyPressed (key : string) (typing : bool)
| Searched (query : string).         (* the public search(query) *)

Definition handle (minQueryLength maxResults : Z) (index : list IndexEntry)
    (e : UiEvent) (p : Panel) : Outcome Panel :=
  match e with
  | Typed query => performSearch minQueryLength maxResults index query p
  | Focused => Ok (open p)
  | ClickedOutside => Ok (close p)
  | ClickedResult i =>
      match items p !! i with
      | Some resultItem => Ok (navigateToResult resultItem p)
      | None => Ok p
      end
  | KeyPressed key typing => Ok (keydown key typing p)
  | Searched query =>
      andThen (performSearch minQueryLength maxResults index query p)
        (fun p => Ok (open p))
  end.

(** A sequence of events.  An exception leaves its listener before the
    panel is touched, and the page goes on with the panel as it was;
    [None] when an event is outside the interpreted fragment. *)
Fixpoint handleAll (minQueryLength maxResults : Z) (index : list IndexEntry)
    (events : list UiEvent) (p : Panel) : option Panel :=
  match events with
  | [] => Some p
  | e :: rest =>
      match handle minQueryLength maxResults index e p with
      | Ok p' => handleAll minQueryLength maxResults index rest p'
      | Throws => handleAll minQueryLength maxResults index rest p
      | NotInterpreted => None
      end
  end.

(** The highlighted index is a position of the list, when there is one. *)
Definition selectionValid (p : Panel) : Prop :=
  items p <> [] -> 0 <= selectedIndex p < Z.of_nat (length (items p)).

(** The first code unit, if there is one, is not whitespace. *)
Definition headNotWhitespace (s : string) : bool :=
  match s with
  | String c _ => negb (isWhitespace c)
  | EmptyString => true
  end.

(** The first code unit, if there is one, is a lower-case letter or a
    digit. *)
Definition headIsSlugChar (s : string) : bool :=
  match s with
  | String c _ => isSlugChar c
  | EmptyString => true
  end.

(** Whitespace is single spaces, each before another code unit or at the
    end. *)
Fixpoint spacesApart (s : string) : bool :=
  match s with
  | EmptyString => true
  | String c rest =>
      (if isWhitespace c then
         Ascii.eqb c " "%char &&
         match rest with
         | String c' _ => negb (isWhitespace c')
         | EmptyString => true
         end
       else true) && spacesApart rest
  end.

(** Lower-case letters, digits and dashes, each dash before a letter or a
    digit or at the end. *)
Fixpoint dashesApart (s : string) : bool :=
  match s with
  | EmptyString => true
  | String c rest =>
      (if isSlugChar c then true
       else Ascii.eqb c "-"%char &&
            match rest with
            | String c' _ => isSlugChar c'
            | EmptyString => true
            end) && dashesApart rest
  end.

(** ** Building the index

    What [buildIndex] reads of the document: the elements the heading
    selector finds in the content, in document order, the elements the
    text selector finds there, and the ids of all other elements. *)

Record Heading : Type := mkHeading {
  h_level : Z;                       (* parseInt(heading.tagName[1]) *)
  h_textContent : string;
  h_id : string;                     (* empty when the element has no id *)
  h_sectionHeading : option string   (* the text of the first h1, h2 or h3 of
                                        the closest section, when that is
                                        another element *)
}.

(** The heading [findNearestHeading] stops at: one of the headings of the
    content, by its position, or a heading outside of them. *)
Inductive HeadingRef : Type :=
| InContent (i : nat)
| Elsewhere (elementId textContent : string).

Record TextElement : Type := mkTextElement {
  t_textContent : string;
  t_previousHeading : option HeadingRef
}.

Record Document : Type := mkDocument {
  otherIds : gset string;
  hasContent : bool;       (* the content selector finds an element *)
  headings : list Heading;
  textElements : list TextElement
}.

(** The ids [document.getElementById] finds. *)
Definition documentIds (other : gset string) (hs : list Heading) : gset string :=
  other ∪ list_to_set (map h_id hs).

Definition getContext (h : Heading) : string :=
  match h_sectionHeading h with
  | Some t => cleanText t
  | None => EmptyString
  end.

(** [heading.id = id] *)
Definition withId (newId : string) (h : Heading) : Heading :=
  mkHeading (h_level h) (h_textContent h) newId (h_sectionHeading h).

(** The entry pushed for a heading; its [level] is read by nothing and is
    [7 - weight]. *)
Definition headingEntry (h : Heading) (newId : string) : IndexEntry :=
  mkEntry heading (cleanText (h_textContent h)) newId (getContext h)
          (7 - h_level h).

(** [headings.forEach]: [seen] are the headings visited so far, with the
    ids given to them; [None] if [generateId] runs out of fuel. *)
Fixpoint indexHeadings (other : gset string) (seen todo : list Heading)
    (index : list IndexEntry) : option (list Heading * list IndexEntry) :=
  match todo with
  | [] => Some (seen, index)
  | h :: rest =>
      match h_id h with
      | EmptyString =>
          match generateId (documentIds other (seen ++ todo)) (h_textContent h) with
          | Some newId =>
              indexHeadings other (seen ++ [withId newId h]) rest
                (index ++ [headingEntry h newId])
          | None => None
          end
      | _ =>
          indexHeadings other (seen ++ [h]) rest
            (index ++ [headingEntry h (h_id h)])
      end
  end.

(** The id and the cleaned text of the heading found, if any. *)
Definition findNearestHeading (hs : list Heading) (el : TextElement)
  : option (string * string) :=
  match t_previousHeading el with
  | Some (InContent i) =>
      match hs !! i with
      | Some h => Some (h_id h, cleanText (h_textContent h))
      | None => None
      end
  | Some (Elsewhere elementId textContent) =>
      Some (elementId, cleanText textContent)
  | None => None
  end.

(** The body of [textElements.forEach]. *)
Definition indexText (hs : list Heading) (index : list IndexEntry)
    (el : TextElement) : list IndexEntry :=
  let cleaned := cleanText (t_textContent el) in
  if Z.of_nat (String.length cleaned) <? 20 then index
  else
    let found := findNearestHeading hs el in
    index ++ [mkEntry content (String.substring 0 200 cleaned)
                (match found with Some (i, _) => i | None => EmptyString end)
                (match found with Some (_, t) => t | None => EmptyString end)
                1].

(** [this.index.sort((a, b) => b.weight - a.weight)]: a stable sort,
    larger weights first. *)
Fixpoint insertByWeight (e : IndexEntry) (sorted : list IndexEntry)
  : list IndexEntry :=
  match sorted with
  | [] => [e]
  | e' :: rest =>
      if weight e' <=? weight e then e :: sorted
      else e' :: insertByWeight e rest
  end.

Fixpoint sortByWeight (entries : list IndexEntry) : list IndexEntry :=
  match entries with
  | [] => []
  | e :: rest => insertByWeight e (sortByWeight rest)
  end.

(** [buildIndex] on the index so far: the document with the ids it gave,
    and the new index. *)
Definition buildIndex (index : list IndexEntry) (doc : Document)
  : option (Document * list IndexEntry) :=
  if hasContent doc then
    match indexHeadings (otherIds doc) [] (headings doc) index with
    | Some (hs, index) =>
        let index := fold_left (indexText hs) (textElements doc) index in
        Some (mkDocument (otherIds doc) true hs (textElements doc),
              sortByWeight index)
    | None => None
    end
  else Some (doc, index).

(** [refresh]: the index is emptied and built again. *)
Definition refresh (doc : Document) : option (Document * list IndexEntry) :=
  buildIndex [] doc.

(** A heading [buildIndex] has been over: it has an id, or its text gives
    the empty slug. *)
Definition settled (h : Heading) : Prop :=
  h_id h <> EmptyString \/ slug (h_textContent h) = EmptyString.

(** A heading before and after [buildIndex] has been over it: only the id
    may differ, and only if there was none. *)
Definition visited (h h' : Heading) : Prop :=
  h' = withId (h_id h') h /\
  (h_id h <> EmptyString -> h' = h) /\
  settled h'.

(** What a well-formed entry of the index looks like. *)
Definition wellFormedEntry (e : IndexEntry) : Prop :=
  1 <= weight e <= 6 /\
  match type e with
  | heading => isCleanText (text e) = true
  | content => weight e = 1 /\ (20 <= String.length (text e) <= 200)%nat
  end.

(** Larger weights first. *)
Definition byWeight (l : list IndexEntry) : Prop :=
  StronglySorted (fun a b => weight b <= weight a) l.

(** ** The panel under any regular-expression engine

    The search code builds its regular expressions from the words of the
    query, so what it does on a query depends on what [RegExp] does with
    the pattern.  An engine says of a pattern source whether
    [new RegExp(source, flags)] returns (it throws a SyntaxError
    otherwise) and what [test] answers on a text; the definitions below
    follow the code for whatever the engine answers.  [None] is an
    exception that leaves the function. *)
Record RegExpEngine : Type := mkEngine {
  regexAccepts : string -> bool;
  regexTest : string -> string -> bool
}.

(** [`\\b${word}`] and [`(${word})`] *)
Definition boundaryPattern (word : string) : string := "\b" +:+ word.
Definition groupPattern (word : string) : string := "(" +:+ word +:+ ")".

Definition scoreWordWith (engine : RegExpEngine) (item : IndexEntry)
    (textLower : string) (acc : option Z) (word : string) : option Z :=
  match acc with
  | None => None
  | Some score =>
      if includes textLower word then
        if regexAccepts engine (boundaryPattern word) then
          Some (if regexTest engine (boundaryPattern word) (text item)
                then score + 3 + 2 else score + 3)
        else None
      else Some score
  end.

Definition scoreItemWith (engine : RegExpEngine) (queryLower : string)
    (queryWords : list string) (item : IndexEntry) : option Z :=
  let textLower := toLowerCase (text item) in
  let score := 0 in
  let score :=
    if includes textLower queryLower then
      if startsWith textLower queryLower then score + 10 + 5 else score + 10
    else score in
  match fold_left (scoreWordWith engine item textLower) queryWords (Some score) with
  | None => None
  | Some score =>
      let score := if fuzzyMatch textLower queryLower then score + 2 else score in
      Some (score * weight item)
  end.

Fixpoint collectWith (engine : RegExpEngine) (queryLower : string)
    (queryWords : list string) (index : list IndexEntry)
    (results : list SearchResult) : option (list SearchResult) :=
  match index with
  | [] => Some results
  | item :: rest =>
      match scoreItemWith engine queryLower queryWords item with
      | None => None
      | Some score =>
          collectWith engine queryLower queryWords rest
            (if 0 <? score then results ++ [mkResult item score] else results)
      end
  end.

Definition fuzzySearchWith (engine : RegExpEngine) (maxResults : Z)
    (index : list IndexEntry) (query : string) : option (list SearchResult) :=
  let queryLower := toLowerCase query in
  let queryWords := splitWhitespace queryLower in
  match collectWith engine queryLower queryWords index [] with
  | None => None
  | Some results => Some (slice0 (sortByScore results) maxResults)
  end.

(** [highlightMatch] returns when the constructor accepts the group of
    every word; [replace] does not throw. *)
Definition highlightMatchWith (engine : RegExpEngine) (query : string)
  : option unit :=
  if forallb (fun word => regexAccepts engine (groupPattern word))
       (highlightWords query)
  then Some tt else None.

Definition renderResultsWith (engine : RegExpEngine)
    (results : list SearchResult) (query : string) (p : Panel) : option Panel :=
  match results with
  | [] => Some (mkPanel (isOpen p) [] (selectedIndex p))
  | _ =>
      match highlightMatchWith engine query with
      | None => None
      | Some _ => Some (mkPanel (isOpen p) results 0)
      end
  end.

Definition performSearchWith (engine : RegExpEngine)
    (minQueryLength maxResults : Z) (index : list IndexEntry) (query : string)
    (p : Panel) : option Panel :=
  let query := trim query in
  if Z.of_nat (String.length query) <? minQueryLength then Some (clearResults p)
  else
    match fuzzySearchWith engine maxResults index query with
    | None => None
    | Some results => renderResultsWith engine results query p
    end.

Definition handleWith (engine : RegExpEngine) (minQueryLength maxResults : Z)
    (index : list IndexEntry) (e : UiEvent) (p : Panel) : option Panel :=
  match e with
  | Typed query => performSearchWith engine minQueryLength maxResults index query p
  | Focused => Some (open p)
  | ClickedOutside => Some (close p)
  | ClickedResult i =>
      match items p !! i with
      | Some resultItem => Some (navigateToResult resultItem p)
      | None => Some p
      end
  | KeyPressed key typing => Some (keydown key typing p)
  | Searched query =>
      match performSearchWith engine minQueryLength maxResults index query p with
      | None => None
      | Some p => Some (open p)
      end
  end.

(** A sequence of events: an exception leaves its listener before the
    panel is touched, and the page goes on with the panel as it was. *)
Fixpoint handleAllWith (engine : RegExpEngine) (minQueryLength maxResults : Z)
    (index : list IndexEntry) (events : list UiEvent) (p : Panel) : Panel :=
  match events with
  | [] => p
  | e :: rest =>
      handleAllWith engine minQueryLength maxResults index rest
        (match handleWith engine minQueryLength maxResults index e p with
         | Some p' => p'
         | None => p
         end)
  end.

(** An engine that does on the interpreted fragment what the fragment
    says: for a word without syntax character, [\b] and the word is
    accepted and tested as [matchAtBoundary] has it, and the group of the
    word is accepted; the patterns [classifyPattern] finds invalid are
    rejected. *)
Definition agreesOnFragment (engine : RegExpEngine) : Prop :=
  forall word,
    match classifyPattern false word with
    | LiteralPattern =>
        regexAccepts engine (boundaryPattern word) = true /\
        regexAccepts engine (groupPattern word) = true /\
        forall text,
          regexTest engine (boundaryPattern word) text
          = matchAtBoundary None text word
    | InvalidPattern => regexAccepts engine (boundaryPattern word) = false
    | OtherPattern => True
    end.

(** What an outcome of the interpreted fragment says of an engine's. *)
Definition simulates {A} (o : Outcome A) (r : option A) : Prop :=
  match o with
  | Ok a => r = Some a
  | Throws => r = None
  | NotInterpreted => True
  end.

(** An engine for the examples.  It knows the two shapes of pattern the
    search code builds when the word is made of dots and of code units
    without a meaning in a pattern: a dot stands for any code unit but a
    line terminator, the other code units for themselves, letter case
    ignored.  It rejects every other pattern, and [test] is asked of the
    first shape only. *)
Definition isLineTerminator (c : ascii) : bool :=
  Ascii.eqb c "010"%char || Ascii.eqb c "013"%char.

Definition isDotOrLiteral (c : ascii) : bool :=
  Ascii.eqb c "."%char || negb (isSyntaxChar c).

Fixpoint startsWithDots (text pattern : string) : bool :=
  match pattern with
  | EmptyString => true
  | String a pattern' =>
      match text with
      | EmptyString => false
      | String b text' =>
          (if Ascii.eqb a "."%char then negb (isLineTerminator b)
           else sameLetter a b)
          && startsWithDots text' pattern'
      end
  end.

Fixpoint matchDotsAtBoundary (before : option ascii) (text pattern : string)
  : bool :=
  (wordBoundary before text && startsWithDots text pattern) ||
  match text with
  | EmptyString => false
  | String c text' => matchDotsAtBoundary (Some c) text' pattern
  end.

Definition dotsEngine : RegExpEngine :=
  mkEngine
    (fun source =>
       match source with
       | String "\"%char (String "b"%char word) =>
           forallb isDotOrLiteral (list_ascii_of_string word)
       | String "("%char rest =>
           match rev (list_ascii_of_string rest) with
           | ")"%char :: word => forallb isDotOrLiteral word
           | _ => false
           end
       | _ => false
       end)
    (fun source text =>
       match source with
       | String "\"%char (String "b"%char word) =>
           matchDotsAtBoundary None text word
       | _ => false
       end).

End SearchService.

(** * Properties of the cache layer *)

Module StorageFacts.
Import StorageService.
Local Set Warnings "-clear-no-such-hyp".

(** Unfolds one turn of the monad down to the world it reads and builds. *)
Ltac turn :=
  unfold set, get, getAsync, getStaleWhileRevalidate, remove, clear,
    revalidate_settled, fetch_settled, settle, revalidateInBackground,
    call_fetchFn, setCacheAPI, getCacheAPI, setMemoryCache, getMemoryCache,
    setLocalStorage, getLocalStorage, removeLocalStorage, wrapData,
    isExpired, isStale, localStorage_setItem, localStorage_getItem,
    localStorage_removeItem, Date_now, bind, ret, reads, modify in *;
  simpl in *.

(** *** The [Map] model *)

Lemma Map_set_length k v m :
  length (Map_set k v m) = length m \/ Map_set k v m = m ++ [(k, v)].
Proof.
  induction m as [|[k' v'] m IH]; simpl.
  - by right.
  - destruct (String.eqb k' k); simpl.
    + by left.
    + destruct IH as [IH|IH]; [left | right]; congruence.
Qed.

Lemma Map_set_keys k v m :
  map fst (Map_set k v m) = map fst m \/ Map_set k v m = m ++ [(k, v)].
Proof.
  induction m as [|[k' v'] m IH]; simpl.
  - by right.
  - destruct (String.eqb k' k); simpl.
    + by left.
    + destruct IH as [IH|IH]; [left | right]; congruence.
Qed.

Lemma Map_get_set k v m : Map_get k (Map_set k v m) = Some v.
Proof.
  induction m as [|[k' v'] m IH]; simpl.
  - by rewrite String.eqb_refl.
  - destruct (String.eqb k' k) eqn:E; simpl; by rewrite E.
Qed.

Lemma Map_set_head k v m k0 v0 rest :
  Map_set k v m = (k0, v0) :: rest ->
  k0 = k /\ rest = @nil (string * Wrapped) /\ m = []
  \/ (exists v1, m = (k0, v1) :: rest /\ k0 = k /\ v0 = v)
  \/ (exists tl, m = (k0, v0) :: tl /\ String.eqb k0 k = false /\ rest = Map_set k v tl).
Proof.
  destruct m as [|[k' v'] m]; simpl.
  - intros [= <- <- <-]. by left.
  - destruct (String.eqb k' k) eqn:E.
    + intros [= <- <- <-]. right; left. apply String.eqb_eq in E. eauto.
    + intros [= <- <- <-]. right; right. eauto.
Qed.

Lemma Map_delete_length k m : (length (Map_delete k m) <= length m)%nat.
Proof.
  induction m as [|[k' v'] m IH]; simpl; [lia|].
  destruct (String.eqb k' k); simpl; lia.
Qed.

Lemma setMemoryCache_world key v w :
  snd (setMemoryCache key v w) =
  withMemoryCache (afterSetMemory (getCacheKey key) v (memoryCache w)) w.
Proof.
  unfold afterSetMemory. turn.
  destruct (100 <? _); [|done].
  destruct (Map_firstKey _); done.
Qed.

Lemma afterSetMemory_bound k v m :
  Map_size m <= 100 -> Map_size (afterSetMemory k v m) <= 100.
Proof.
  unfold afterSetMemory, Map_size. intros Hm.
  destruct (100 <? _) eqn:E; [|lia].
  apply Z.ltb_lt in E.
  destruct (Map_set k v m) as [|[k0 v0] rest] eqn:Em; simpl in *; [lia|].
  rewrite String.eqb_refl.
  destruct (Map_set_length k v m) as [H|H]; rewrite Em in H; simpl in H.
  - lia.
  - assert (length ((k0, v0) :: rest) = length (m ++ [(k, v)])) as Hl by congruence.
    rewrite length_app in Hl. simpl in Hl. lia.
Qed.

Lemma afterSetMemory_get k v m :
  Map_size m <= 100 -> Map_get k (afterSetMemory k v m) = Some v.
Proof.
  unfold afterSetMemory, Map_size. intros Hm.
  destruct (100 <? _) eqn:E; [|apply Map_get_set].
  apply Z.ltb_lt in E.
  destruct (Map_set k v m) as [|[k0 v0] rest] eqn:Em; simpl in *; [lia|].
  rewrite String.eqb_refl.
  destruct (Map_set_head _ _ _ _ _ _ Em) as [(-> & -> & ->)|[(v1 & -> & -> & ->)|(tl & -> & Hne & ->)]];
    simpl in *; try lia.
  apply Map_get_set.
Qed.

(** *** The rounding of [ttl * 0.8] *)

Lemma nearest53_shape a :
  TWO_53 <= a ->
  let s := Z.log2 a - 52 in
  1 <= s /\ 0 < 2 ^ s /\ 2 * 2 ^ (s - 1) = 2 ^ s /\
  TWO_52 <= a / 2 ^ s < TWO_53 /\
  a = a / 2 ^ s * 2 ^ s + a mod 2 ^ s /\ 0 <= a mod 2 ^ s < 2 ^ s.
Proof.
  intros Ha. cbv zeta.
  assert (0 < a) as Hpos by (unfold TWO_53 in *; lia).
  pose proof (Z.log2_spec a Hpos) as [Hlo Hhi].
  assert (53 <= Z.log2 a) as Hlog.
  { apply (Z.log2_le_mono TWO_53 a) in Ha. exact Ha. }
  set (s := Z.log2 a - 52) in *.
  assert (1 <= s) as Hs by lia.
  assert (0 < 2 ^ s) as Hp by (apply Z.pow_pos_nonneg; lia).
  assert (2 * 2 ^ (s - 1) = 2 ^ s) as Hh.
  { rewrite <- Z.pow_succ_r by lia. f_equal. lia. }
  assert (2 ^ Z.log2 a = TWO_52 * 2 ^ s) as E1.
  { replace (Z.log2 a) with (52 + s) by lia. rewrite Z.pow_add_r by lia. reflexivity. }
  assert (2 ^ Z.succ (Z.log2 a) = TWO_53 * 2 ^ s) as E2.
  { replace (Z.succ (Z.log2 a)) with (53 + s) by lia. rewrite Z.pow_add_r by lia. reflexivity. }
  rewrite E1 in Hlo. rewrite E2 in Hhi.
  pose proof (Z.div_mod a (2 ^ s) ltac:(lia)) as Hdm.
  pose proof (Z.mod_pos_bound a (2 ^ s) Hp) as Hr.
  repeat split; try lia.
  - apply Z.div_le_lower_bound; lia.
  - apply Z.div_lt_upper_bound; lia.
Qed.

Lemma nearest53_nonneg_small a : a < TWO_53 -> nearest53_nonneg a = a.
Proof.
  intros H. unfold nearest53_nonneg.
  destruct (Z.ltb_spec a TWO_53); [reflexivity|lia].
Qed.

Lemma nearest53_nonneg_large a :
  TWO_53 <= a ->
  nearest53_nonneg a =
  (if (2 ^ (Z.log2 a - 52 - 1) <? a mod 2 ^ (Z.log2 a - 52)) ||
      ((a mod 2 ^ (Z.log2 a - 52) =? 2 ^ (Z.log2 a - 52 - 1)) &&
       Z.odd (a / 2 ^ (Z.log2 a - 52)))
   then a / 2 ^ (Z.log2 a - 52) + 1 else a / 2 ^ (Z.log2 a - 52))
  * 2 ^ (Z.log2 a - 52).
Proof.
  intros H. unfold nearest53_nonneg.
  destruct (Z.ltb_spec a TWO_53); [lia|reflexivity].
Qed.

(** Rounding moves a number by at most half a unit in the last place,
    which is at most the number over 2^53. *)
Lemma nearest53_nonneg_error a :
  0 <= a ->
  (TWO_53 - 1) * a <= TWO_53 * nearest53_nonneg a <= (TWO_53 + 1) * a.
Proof.
  intros Ha. destruct (Z.lt_ge_cases a TWO_53) as [Hs|Hl].
  - rewrite nearest53_nonneg_small by exact Hs. unfold TWO_53 in *. lia.
  - rewrite nearest53_nonneg_large by exact Hl.
    destruct (nearest53_shape a Hl) as (Hs & Hp & Hh & Hq & Hdm & Hr).
    set (P := 2 ^ (Z.log2 a - 52)) in *.
    set (h := 2 ^ (Z.log2 a - 52 - 1)) in *.
    set (q := a / P) in *. set (r := a mod P) in *.
    assert (TWO_52 * P <= a) as Hlow by (unfold TWO_52 in *; nia).
    destruct ((h <? r) || ((r =? h) && Z.odd q)) eqn:Eup.
    + assert (h <= r) as Hhr.
      { apply orb_true_iff in Eup as [E|E].
        - apply Z.ltb_lt in E. lia.
        - apply andb_true_iff in E as [E _]. apply Z.eqb_eq in E. lia. }
      unfold TWO_52, TWO_53 in *. nia.
    + assert (r <= h) as Hhr.
      { apply orb_false_iff in Eup as [E _]. apply Z.ltb_ge in E. exact E. }
      unfold TWO_52, TWO_53 in *. nia.
Qed.

Lemma nearest53_nonneg_nonneg a : 0 <= a -> 0 <= nearest53_nonneg a.
Proof.
  intros Ha. pose proof (nearest53_nonneg_error a Ha). unfold TWO_53 in *. nia.
Qed.

Lemma nearest53_nonneg_mono a b :
  0 <= a -> a <= b -> nearest53_nonneg a <= nearest53_nonneg b.
Proof.
  intros Ha Hab.
  destruct (Z.lt_ge_cases a TWO_53) as [Has|Hal].
  - rewrite (nearest53_nonneg_small a Has).
    destruct (Z.lt_ge_cases b TWO_53) as [Hbs|Hbl].
    + rewrite (nearest53_nonneg_small b Hbs). exact Hab.
    + pose proof (nearest53_nonneg_error b ltac:(lia)). unfold TWO_53 in *. nia.
  - assert (TWO_53 <= b) as Hbl by lia.
    rewrite (nearest53_nonneg_large a Hal), (nearest53_nonneg_large b Hbl).
    destruct (nearest53_shape a Hal) as (Hsa & Hpa & Hha & Hqa & Hdma & Hra).
    destruct (nearest53_shape b Hbl) as (Hsb & Hpb & Hhb & Hqb & Hdmb & Hrb).
    assert (Z.log2 a <= Z.log2 b) as Hlog by (apply Z.log2_le_mono; exact Hab).
    destruct (Z.eq_dec (Z.log2 a) (Z.log2 b)) as [Es|Es].
    + rewrite <- Es in *.
      set (P := 2 ^ (Z.log2 a - 52)) in *.
      set (h := 2 ^ (Z.log2 a - 52 - 1)) in *.
      assert (a / P <= b / P) as Hq by (apply Z.div_le_mono; lia).
      set (qa := a / P) in *. set (ra := a mod P) in *.
      set (qb := b / P) in *. set (rb := b mod P) in *.
      destruct (Z.eq_dec qa qb) as [Eq|Eq].
      * rewrite <- Eq in *.
        assert (ra <= rb) as Hr by lia.
        destruct ((h <? rb) || ((rb =? h) && Z.odd qa)) eqn:Eb;
          destruct ((h <? ra) || ((ra =? h) && Z.odd qa)) eqn:Ea; try nia.
        exfalso.
        apply orb_false_iff in Eb as [Eb1 Eb2]. apply Z.ltb_ge in Eb1.
        apply orb_true_iff in Ea as [Ea|Ea].
        -- apply Z.ltb_lt in Ea. lia.
        -- apply andb_true_iff in Ea as [Ea1 Ea2]. apply Z.eqb_eq in Ea1.
           assert (rb = h) as Erb by lia.
           rewrite Erb, Z.eqb_refl, Ea2 in Eb2. discriminate.
      * assert (qa + 1 <= qb) as Hlt by lia.
        assert ((qa + 1) * P <= qb * P) by (apply Z.mul_le_mono_nonneg_r; lia).
        destruct ((h <? rb) || ((rb =? h) && Z.odd qb));
          destruct ((h <? ra) || ((ra =? h) && Z.odd qa)); nia.
    + assert (2 * 2 ^ (Z.log2 a - 52) <= 2 ^ (Z.log2 b - 52)) as Hpp.
      { rewrite <- Z.pow_succ_r by lia. apply Z.pow_le_mono_r; lia. }
      set (Pa := 2 ^ (Z.log2 a - 52)) in *. set (Pb := 2 ^ (Z.log2 b - 52)) in *.
      set (qa := a / Pa) in *. set (qb := b / Pb) in *.
      assert ((qa + 1) * Pa <= TWO_53 * Pa) by (apply Z.mul_le_mono_nonneg_r; lia).
      assert (TWO_52 * Pb <= qb * Pb) by (apply Z.mul_le_mono_nonneg_r; lia).
      assert (TWO_53 * Pa <= TWO_52 * Pb) by (unfold TWO_52, TWO_53; lia).
      destruct ((_ <? _) || _); destruct ((_ <? _) || _); nia.
Qed.

Lemma nearest53_mono a b : a <= b -> nearest53 a <= nearest53 b.
Proof.
  intros Hab. unfold nearest53.
  destruct (Z.ltb_spec a 0), (Z.ltb_spec b 0).
  - pose proof (nearest53_nonneg_mono (- b) (- a) ltac:(lia) ltac:(lia)). lia.
  - pose proof (nearest53_nonneg_nonneg (- a) ltac:(lia)).
    pose proof (nearest53_nonneg_nonneg b ltac:(lia)). lia.
  - lia.
  - apply nearest53_nonneg_mono; lia.
Qed.

Lemma nearest53_error a :
  0 <= a ->
  (TWO_53 - 1) * a <= TWO_53 * nearest53 a <= (TWO_53 + 1) * a.
Proof.
  intros Ha. unfold nearest53. destruct (Z.ltb_spec a 0); [lia|].
  by apply nearest53_nonneg_error.
Qed.

(** An age of at most 0.8 of the TTL, and at most the TTL, is not above the
    double [ttl * 0.8]. *)
Lemma fresh_not_exceeds age ttl :
  age <= ttl -> 5 * age <= 4 * ttl -> exceeds_point_eight age ttl = false.
Proof.
  intros H1 H2. unfold exceeds_point_eight. apply Z.ltb_ge, nearest53_mono.
  unfold POINT_EIGHT, TWO_52. lia.
Qed.

(** An age above a TTL that is not negative is above the double
    [ttl * 0.8]. *)
Lemma expired_exceeds age ttl :
  0 <= ttl -> ttl < age -> exceeds_point_eight age ttl = true.
Proof.
  intros H1 H2. unfold exceeds_point_eight. apply Z.ltb_lt.
  pose proof (nearest53_error (ttl * POINT_EIGHT)) as Ha.
  pose proof (nearest53_error (age * TWO_52)) as Hb.
  unfold POINT_EIGHT, TWO_52, TWO_53 in *. lia.
Qed.

Lemma exceeds_mono age age' ttl :
  age <= age' ->
  exceeds_point_eight age ttl = true -> exceeds_point_eight age' ttl = true.
Proof.
  unfold exceeds_point_eight. intros H E. apply Z.ltb_lt in E. apply Z.ltb_lt.
  pose proof (nearest53_mono (age * TWO_52) (age' * TWO_52)) as Hm.
  unfold TWO_52 in *. lia.
Qed.



(** *** Reads *)

Lemma isExpired_run e w : isExpired e w = (expiredAt (clock w) e, w).
Proof. unfold expiredAt. turn. by destruct (timestamp e =? 0). Qed.

Lemma isStale_run e w : isStale e w = (staleAt (clock w) e, w).
Proof. unfold staleAt. turn. by destruct (timestamp e =? 0). Qed.

Lemma expiredAt_mono e t t' : t <= t' -> expiredAt t e = true -> expiredAt t' e = true.
Proof.
  unfold expiredAt. intros Ht H.
  apply orb_true_iff in H. apply orb_true_iff.
  destruct H as [H|H]; [by left | right].
  apply Z.ltb_lt in H. apply Z.ltb_lt. lia.
Qed.

Lemma getLocalStorage_run key w : getLocalStorage key w = (persisted w key, w).
Proof.
  unfold persisted. turn.
  destruct (lsStatus w); simpl; try done;
    by destruct (localStorage w !! getCacheKey key) as [[|e]|].
Qed.

Lemma cachedEntry_eq w key :
  cachedEntry w key =
  match persisted w key with
  | Some e => Some e
  | None => Map_get (getCacheKey key) (memoryCache w)
  end.
Proof. unfold cachedEntry. by rewrite getLocalStorage_run. Qed.

(** The lookup both [get] and [getStaleWhileRevalidate] start with. *)
Lemma lookup_run key w :
  (let* fromStorage := getLocalStorage key in
   match fromStorage with
   | Some e => ret (Some e)
   | None => getMemoryCache key
   end) w = (cachedEntry w key, w).
Proof.
  unfold cachedEntry. turn.
  destruct (lsStatus w); simpl; try done;
    destruct (localStorage w !! getCacheKey key) as [[|e]|]; done.
Qed.

Lemma get_run key w :
  get key w =
  (match cachedEntry w key with
   | None => JNull
   | Some e => if expiredAt (clock w) e then JNull else data e
   end, w).
Proof.
  unfold cachedEntry, expiredAt. turn.
  destruct (lsStatus w); simpl;
    try destruct (localStorage w !! getCacheKey key) as [[|e]|]; simpl;
    try destruct (Map_get _ _) as [e'|]; simpl; try done;
    by destruct (timestamp _ =? 0), (ttl _ <? _).
Qed.

Lemma revalidateInBackground_run key ttl onUpdate w :
  revalidateInBackground key ttl onUpdate w =
  (tt, if decide (key ∈ pendingRevalidations w) then w
       else withInflight (inflight w ++ [Revalidating key ttl onUpdate])
              (withPending ({[key]} ∪ pendingRevalidations w) w)).
Proof. turn. by destruct (decide _). Qed.

Lemma bind_run {A B} (m : Op A) (k : A -> Op B) w a w' :
  m w = (a, w') -> bind m k w = k a w'.
Proof. unfold bind. by intros ->. Qed.

Lemma bind_assoc {A B C} (m : Op A) (f : A -> Op B) (g : B -> Op C) w :
  bind m (fun x => bind (f x) g) w = bind (bind m f) g w.
Proof. unfold bind. by destruct (m w). Qed.

Lemma getStaleWhileRevalidate_run key options w :
  getStaleWhileRevalidate key options w =
  let ttl := default DEFAULT_TTL (opt_ttl options) in
  match cachedEntry w key with
  | None =>
      (Awaiting key ttl None,
       withInflight (inflight w ++ [Fetching key ttl None]) w)
  | Some e =>
      if negb (expiredAt (clock w) e) && negb (staleAt (clock w) e)
      then (Returned (data e), w)
      else if expiredAt (clock w) e && isUndefined (data e)
      then (Awaiting key ttl (Some e),
            withInflight (inflight w ++ [Fetching key ttl (Some e)]) w)
      else (Returned (data e),
            snd (revalidateInBackground key ttl (opt_onUpdate options) w))
  end.
Proof.
  unfold cachedEntry, expiredAt, staleAt. turn.
  destruct (lsStatus w); simpl;
    try destruct (localStorage w !! getCacheKey key) as [[|e]|]; simpl;
    try destruct (Map_get _ _) as [e'|]; simpl; try done;
    destruct (timestamp _ =? 0), (ttl _ <? _), (exceeds_point_eight _ _); simpl;
    try done;
    destruct (data _); simpl; try done;
    by destruct (decide _).
Qed.

(** *** Writes *)

Lemma wrapData_run d ttl w :
  wrapData d (default DEFAULT_TTL ttl) w =
  (mkWrapped d (clock w) (effectiveTtl ttl), w).
Proof. done. Qed.

Lemma setCacheAPI_frame key e w :
  let w' := snd (setCacheAPI key e w) in
  clock w' = clock w /\ lsStatus w' = lsStatus w /\
  localStorage w' = localStorage w /\ memoryCache w' = memoryCache w /\
  pendingRevalidations w' = pendingRevalidations w /\ inflight w' = inflight w.
Proof.
  unfold setCacheAPI, bind, reads, ret, modify. simpl.
  destruct (hasCacheAPI w); simpl; try done.
  destruct (cacheAPIWorks w); simpl; try done.
  destruct (JSON_stringify e) as [[|body]|]; simpl; done.
Qed.

Lemma set_run key d ttl w :
  set key d ttl w =
  let wrapped := mkWrapped d (clock w) (effectiveTtl ttl) in
  match JSON_stringify wrapped, lsStatus w with
  | Some s, Available =>
      (true,
       snd (setCacheAPI key wrapped
              (withLocalStorage (<[getCacheKey key := s]> (localStorage w)) w)))
  | _, _ =>
      (true, snd (setMemoryCache key wrapped w))
  end.
Proof.
  unfold set. erewrite bind_run by apply wrapData_run.
  cbv zeta. unfold setLocalStorage.
  destruct (JSON_stringify _) as [s|].
  - unfold localStorage_setItem. destruct (lsStatus w) eqn:Est.
    + unfold bind at 1. unfold bind at 1. unfold reads at 1. rewrite Est.
      unfold bind at 1. unfold reads at 1. unfold bind at 1. unfold modify at 1.
      unfold ret at 1. unfold bind.
      by destruct (setCacheAPI _ _ _) as [? ?].
    + unfold bind at 1. unfold bind at 1. unfold reads at 1. rewrite Est.
      unfold ret at 1. unfold bind. by destruct (setMemoryCache _ _ _) as [[] ?].
    + unfold bind at 1. unfold bind at 1. unfold reads at 1. rewrite Est.
      unfold ret at 1. unfold bind. by destruct (setMemoryCache _ _ _) as [[] ?].
  - unfold bind at 1. unfold ret at 1.
    unfold bind. destruct (setMemoryCache _ _ _) as [[] ?].
    by destruct (lsStatus w).
Qed.

Lemma set_memory_bound key d ttl w :
  Map_size (memoryCache w) <= 100 ->
  Map_size (memoryCache (snd (set key d ttl w))) <= 100.
Proof.
  intros Hb. rewrite set_run. cbv zeta.
  destruct (JSON_stringify _) as [s|]; [destruct (lsStatus w)|]; simpl;
    try (rewrite setMemoryCache_world; simpl; by apply afterSetMemory_bound).
  pose proof (setCacheAPI_frame key (mkWrapped d (clock w) (effectiveTtl ttl))
    (withLocalStorage (<[getCacheKey key:=s]> (localStorage w)) w)) as F.
  cbv zeta in F. destruct F as (_ & _ & _ & Hm & _). by rewrite Hm.
Qed.

Lemma stringify_jsonValue d t l :
  jsonValue d -> JSON_stringify (mkWrapped d t l) = Some (Json (mkWrapped d t l)).
Proof.
  intros [Hs Hc]. unfold JSON_stringify. simpl.
  destruct d; simpl in *; try done; rewrite ?Hs; simpl.
  - by injection Hc as ->.
  - by injection Hc as ->.
Qed.

(** The entry a read finds for [key] right after a [set], when the write
    is not shadowed by an entry left in the persistent tier. *)
Lemma cachedEntry_after_set key d ttl w :
  Map_size (memoryCache w) <= 100 ->
  jsonValue d ->
  (fst (setLocalStorage key (mkWrapped d (clock w) (effectiveTtl ttl)) w) = true
   \/ fst (getLocalStorage key w) = None) ->
  forall t,
    cachedEntry (withClock t (snd (set key d ttl w))) key =
    Some (mkWrapped d (clock w) (effectiveTtl ttl)).
Proof.
  intros Hb Hj Hns t. rewrite set_run. cbv zeta.
  rewrite (stringify_jsonValue _ _ _ Hj).
  unfold setLocalStorage in Hns. rewrite (stringify_jsonValue _ _ _ Hj) in Hns.
  rewrite getLocalStorage_run in Hns. simpl in Hns.
  rewrite cachedEntry_eq. unfold persisted in *.
  destruct (lsStatus w) eqn:Est.
  - pose proof (setCacheAPI_frame key (mkWrapped d (clock w) (effectiveTtl ttl))
      (withLocalStorage (<[getCacheKey key:=Json (mkWrapped d (clock w) (effectiveTtl ttl))]>
         (localStorage w)) w)) as F. cbv zeta in F.
    destruct F as (_ & Hst & Hls & _).
    set (w1 := snd (setCacheAPI _ _ _)) in *. clearbody w1.
    simpl in *. rewrite Hst, Est, Hls, lookup_insert_eq. done.
  - destruct Hns as [Hns|Hns].
    { revert Hns. unfold localStorage_setItem, bind, reads, ret. by rewrite Est. }
    rewrite setMemoryCache_world. simpl. rewrite Est, Hns.
    by apply afterSetMemory_get.
  - destruct Hns as [Hns|Hns].
    { revert Hns. unfold localStorage_setItem, bind, reads, ret. by rewrite Est. }
    rewrite setMemoryCache_world. simpl. rewrite Est.
    by apply afterSetMemory_get.
Qed.

Lemma set_then_get key d ttl w t :
  clock w <> 0 ->
  Map_size (memoryCache w) <= 100 ->
  jsonValue d ->
  (fst (setLocalStorage key (mkWrapped d (clock w) (effectiveTtl ttl)) w) = true
   \/ fst (getLocalStorage key w) = None) ->
  t - clock w <= effectiveTtl ttl ->
  fst (get key (withClock t (snd (set key d ttl w)))) = d.
Proof.
  intros Hc Hb Hj Hns Ht.
  rewrite get_run, (cachedEntry_after_set _ _ _ _ Hb Hj Hns). simpl.
  unfold expiredAt. simpl.
  destruct (clock w =? 0) eqn:E0; [apply Z.eqb_eq in E0; lia|].
  destruct (effectiveTtl ttl <? t - clock w) eqn:E1; [apply Z.ltb_lt in E1; lia|].
  done.
Qed.

(** *** What each operation leaves alone *)

Lemma set_frame key d ttl w :
  let w' := snd (set key d ttl w) in
  clock w' = clock w /\ lsStatus w' = lsStatus w /\ sameAsync w w'.
Proof.
  cbv zeta. rewrite set_run. cbv zeta. unfold sameAsync.
  destruct (JSON_stringify _) as [s|]; [destruct (lsStatus w) eqn:Est|]; simpl;
    try (rewrite setMemoryCache_world; by simpl).
  pose proof (setCacheAPI_frame key (mkWrapped d (clock w) (effectiveTtl ttl))
    (withLocalStorage (<[getCacheKey key:=s]> (localStorage w)) w)) as F.
  cbv zeta in F. destruct F as (Hc & Hst & _ & _ & Hp & Hi).
  rewrite Hc, Hst, Hp, Hi. by simpl.
Qed.

Lemma set_updates key d ttl w : updates (snd (set key d ttl w)) = updates w.
Proof.
  rewrite set_run. cbv zeta.
  destruct (JSON_stringify _) as [s|]; [destruct (lsStatus w)|]; simpl;
    try (rewrite setMemoryCache_world; by simpl).
  unfold setCacheAPI, bind, reads, ret, modify. simpl.
  destruct (hasCacheAPI w); simpl; try done.
  destruct (cacheAPIWorks w); simpl; try done.
  destruct (JSON_stringify _) as [[|body]|]; simpl; done.
Qed.

Lemma preload_frame items w :
  let w' := snd (preload items w) in
  sameAsync w w' /\
  (Map_size (memoryCache w) <= 100 -> Map_size (memoryCache w') <= 100).
Proof.
  cbv zeta. revert w. induction items as [|item rest IH]; intros w; simpl.
  - by unfold sameAsync.
  - set (tl := match item_ttl item with Some 0 | None => DEFAULT_TTL | Some t => t end).
    pose proof (set_frame (item_key item) (item_data item) (Some tl) w) as F.
    pose proof (set_memory_bound (item_key item) (item_data item) (Some tl) w) as B.
    cbv zeta in F. unfold bind.
    destruct (set _ _ _ w) as [b w1] eqn:E.
    simpl in F, B.
    destruct F as (_ & _ & Hp & Hi).
    destruct (IH w1) as ((Hp' & Hi') & Hb').
    split; [split; congruence | auto].
Qed.

Lemma getAsync_frame key w :
  let w' := snd (getAsync key w) in
  sameAsync w w' /\ memoryCache w' = memoryCache w.
Proof.
  cbv zeta. unfold getAsync. erewrite bind_run by apply get_run.
  unfold sameAsync.
  destruct (match cachedEntry w key with
            | Some e => if expiredAt (clock w) e then JNull else data e
            | None => JNull end); try done.
  turn.
  destruct (hasCacheAPI w); simpl; try done.
  destruct (cacheAPIWorks w); simpl; try done.
  destruct (cacheAPI w !! getCacheKey key) as [e|]; simpl; try done.
  destruct (timestamp e =? 0); simpl; try done.
  destruct (ttl e <? clock w - timestamp e); simpl; try done.
  destruct (JSON_stringify e) as [s|]; simpl; try done.
  by destruct (lsStatus w).
Qed.

Lemma remove_frame key w :
  let w' := snd (remove key w) in
  sameAsync w w' /\ memoryCache w' = Map_delete (getCacheKey key) (memoryCache w).
Proof.
  cbv zeta. unfold sameAsync. turn.
  destruct (lsStatus w); simpl;
    destruct (hasCacheAPI w), (cacheAPIWorks w); by simpl.
Qed.

Lemma clear_frame w :
  let w' := snd (clear w) in
  sameAsync w w' /\ memoryCache w' = [].
Proof.
  cbv zeta. unfold sameAsync. turn.
  destruct (lsStatus w); simpl;
    destruct (hasCacheAPI w), (cacheAPIWorks w); by simpl.
Qed.

Lemma getStaleWhileRevalidate_memory key options w :
  let w' := snd (getStaleWhileRevalidate key options w) in
  memoryCache w' = memoryCache w /\ localStorage w' = localStorage w /\
  lsStatus w' = lsStatus w /\ clock w' = clock w.
Proof.
  cbv zeta. rewrite getStaleWhileRevalidate_run. cbv zeta.
  destruct (cachedEntry w key) as [e|]; [|done].
  destruct (negb _ && negb _); [done|].
  destruct (expiredAt _ _ && isUndefined _); [done|].
  rewrite revalidateInBackground_run. simpl. by destruct (decide _).
Qed.

(** *** Counting the background refreshes *)

Lemma guarding_cons key t ts :
  guarding key (t :: ts) =
  ((if guards key t then 1 else 0) + guarding key ts)%nat.
Proof. unfold guarding. simpl. by destruct (guards key t). Qed.

Lemma guarding_app key ts t :
  guarding key (ts ++ [t]) =
  (guarding key ts + if guards key t then 1 else 0)%nat.
Proof.
  unfold guarding. rewrite List.filter_app, length_app. simpl.
  by destruct (guards key t).
Qed.

Lemma guarding_delete key ts i t :
  ts !! i = Some t ->
  guarding key ts =
  (guarding key (delete i ts) + if guards key t then 1 else 0)%nat.
Proof.
  revert i. induction ts as [|t0 ts IH]; intros i; [done|].
  destruct i as [|i]; simpl.
  - intros [= ->]. rewrite guarding_cons. lia.
  - intros H. rewrite !guarding_cons, (IH i H). lia.
Qed.

(** No more [fetchFn] calls of a key are in flight than refreshes of the
    key are under way. *)
Lemma revalidating_le_guarding key ts :
  (revalidating key ts <= guarding key ts)%nat.
Proof.
  induction ts as [|[k l u|k l e|k d u] ts IH]; [done|..];
    rewrite guarding_cons; simpl; try destruct (String.eqb k key); lia.
Qed.

(** *** Invariants of the event loop *)

Lemma revalidate_settled_frame key ttl onUpdate o w :
  let w' := snd (revalidate_settled key ttl onUpdate o w) in
  match o with
  | Resolves fresh =>
      pendingRevalidations w' = pendingRevalidations w /\
      inflight w' = inflight w ++ [Storing key fresh onUpdate] /\
      updates w' = updates w
  | Rejects _ =>
      w' = withPending (pendingRevalidations w ∖ {[key]}) w
  end /\
  (bounded w -> bounded w').
Proof.
  cbv zeta. unfold revalidate_settled, bounded.
  destruct o as [fresh|err].
  - pose proof (set_frame key fresh (Some ttl) w) as F.
    pose proof (set_memory_bound key fresh (Some ttl) w) as B.
    pose proof (set_updates key fresh (Some ttl) w) as U.
    cbv zeta in F. unfold bind.
    destruct (set key fresh (Some ttl) w) as [b w1].
    simpl in F, B, U. destruct F as (_ & _ & Hp & Hi).
    unfold reads, modify; simpl. rewrite Hi. done.
  - by unfold bind, ret, reads, modify.
Qed.

Lemma revalidate_stored_frame key fresh onUpdate w :
  snd (revalidate_stored key fresh onUpdate w) =
  withPending (pendingRevalidations w ∖ {[key]})
    (if onUpdate then withUpdates ((key, fresh) :: updates w) w else w).
Proof.
  unfold revalidate_stored, bind, reads, modify, ret. by destruct onUpdate.
Qed.

Lemma fetch_settled_frame key ttl wrapped o w :
  let w' := snd (fetch_settled key ttl wrapped o w) in
  sameAsync w w' /\ (bounded w -> bounded w').
Proof.
  cbv zeta. unfold fetch_settled, bounded.
  destruct o as [fresh|err].
  - pose proof (set_frame key fresh (Some ttl) w) as F.
    pose proof (set_memory_bound key fresh (Some ttl) w) as B.
    cbv zeta in F. unfold bind.
    destruct (set key fresh (Some ttl) w) as [b w1].
    simpl in F, B. by destruct F as (_ & _ & F).
  - destruct wrapped as [e|]; [destruct (data e)|]; by unfold sameAsync, ret.
Qed.

Lemma step_bounded e w : bounded w -> bounded (step e w).
Proof.
  unfold bounded. intros Hb. destruct e; simpl; try done.
  - by apply set_memory_bound.
  - by rewrite get_run.
  - by destruct (getAsync_frame key w) as (_ & ->).
  - by destruct (getStaleWhileRevalidate_memory key options w) as (-> & _).
  - destruct (remove_frame key w) as (_ & ->).
    pose proof (Map_delete_length (getCacheKey key) (memoryCache w)).
    unfold Map_size in *. lia.
  - by destruct (clear_frame w) as (_ & ->).
  - by apply preload_frame.
  - destruct (inflight w !! i) as [[k l u|k l e|k d u]|]; simpl; [| |done|done].
    + by apply revalidate_settled_frame.
    + unfold bind.
      pose proof (fetch_settled_frame k l e o (withInflight (delete i (inflight w)) w)) as F.
      cbv zeta in F. destruct (fetch_settled _ _ _ _ _) as [c w1].
      simpl in *. by apply F.
  - destruct (inflight w !! i) as [[k l u|k l e|k d u]|]; simpl; try done.
    rewrite revalidate_stored_frame. by destruct u.
Qed.

Lemma coalesced_sameAsync w w' : sameAsync w w' -> coalesced w -> coalesced w'.
Proof. unfold coalesced. intros [Hp Hi] H key. by rewrite Hp, Hi. Qed.

Lemma revalidateInBackground_coalesced key ttl onUpdate w :
  coalesced w -> coalesced (snd (revalidateInBackground key ttl onUpdate w)).
Proof.
  intros H. rewrite revalidateInBackground_run. simpl.
  destruct (decide (key ∈ pendingRevalidations w)) as [Hin|Hout]; [done|].
  intros k. simpl. rewrite guarding_app, (H k). simpl.
  destruct (String.eqb key k) eqn:E.
  - apply String.eqb_eq in E as <-.
    rewrite decide_False by done. rewrite decide_True by set_solver. done.
  - apply String.eqb_neq in E.
    destruct (decide (k ∈ pendingRevalidations w)).
    + rewrite decide_True by set_solver. done.
    + rewrite decide_False by set_solver. done.
Qed.

(** A refresh of [k] leaves the list and the guard with it. *)
Lemma coalesced_release k i t w :
  coalesced w ->
  inflight w !! i = Some t ->
  (forall key, guards key t = String.eqb k key) ->
  forall key,
    guarding key (delete i (inflight w)) =
    if decide (key ∈ pendingRevalidations w ∖ {[k]}) then 1%nat else 0%nat.
Proof.
  intros H Ei Hk key.
  pose proof (guarding_delete key _ _ _ Ei) as Hd. rewrite Hk in Hd.
  pose proof (H key) as Hkey.
  destruct (String.eqb k key) eqn:E.
  - apply String.eqb_eq in E as <-.
    rewrite decide_False by set_solver.
    destruct (decide (k ∈ pendingRevalidations w)); lia.
  - apply String.eqb_neq in E.
    destruct (decide (key ∈ pendingRevalidations w)).
    + rewrite decide_True by set_solver. lia.
    + rewrite decide_False by set_solver. lia.
Qed.

Lemma step_coalesced e w : coalesced w -> coalesced (step e w).
Proof.
  intros H. destruct e; simpl; try done.
  - eapply coalesced_sameAsync; [|done]. apply set_frame.
  - by rewrite get_run.
  - eapply coalesced_sameAsync; [|done]. apply getAsync_frame.
  - rewrite getStaleWhileRevalidate_run. cbv zeta.
    destruct (cachedEntry w key) as [e|].
    + destruct (negb _ && negb _); [done|].
      destruct (expiredAt _ _ && isUndefined _).
      * intros k. simpl. rewrite guarding_app, (H k). simpl. lia.
      * by apply revalidateInBackground_coalesced.
    + intros k. simpl. rewrite guarding_app, (H k). simpl. lia.
  - eapply coalesced_sameAsync; [|done]. apply remove_frame.
  - eapply coalesced_sameAsync; [|done]. apply clear_frame.
  - eapply coalesced_sameAsync; [|done]. apply preload_frame.
  - destruct (inflight w !! i) as [t|] eqn:Ei; [|done].
    destruct t as [k l u|k l e|k d u]; simpl; [| |done].
    + pose proof (revalidate_settled_frame k l u o
        (withInflight (delete i (inflight w)) w)) as F.
      cbv zeta in F. destruct F as (F & _).
      destruct o as [fresh|err].
      * destruct F as (Hp & Hi & _). intros key. rewrite Hp, Hi. simpl.
        rewrite guarding_app. simpl.
        pose proof (guarding_delete key _ _ _ Ei) as Hd. simpl in Hd.
        rewrite <- (H key). lia.
      * rewrite F. intros key. simpl.
        by apply (coalesced_release k i (Revalidating k l u)).
    + unfold bind.
      pose proof (fetch_settled_frame k l e o
        (withInflight (delete i (inflight w)) w)) as F.
      cbv zeta in F. destruct (fetch_settled _ _ _ _ _) as [c w1].
      simpl in *. destruct F as ((Hp & Hi) & _).
      intros key. rewrite Hp, Hi. simpl.
      pose proof (guarding_delete key _ _ _ Ei) as Hd. simpl in Hd.
      rewrite <- (H key). lia.
  - destruct (inflight w !! i) as [t|] eqn:Ei; [|done].
    destruct t as [k l u|k l e|k d u]; simpl; try done.
    rewrite revalidate_stored_frame. intros key.
    assert (guarding key (delete i (inflight w)) =
            if decide (key ∈ pendingRevalidations w ∖ {[k]}) then 1%nat else 0%nat)
      as Hrel by (by apply (coalesced_release k i (Storing k d u))).
    by destruct u.
Qed.


Lemma run_invariants events w :
  bounded w -> coalesced w ->
  bounded (run events w) /\ coalesced (run events w).
Proof.
  unfold run. revert w.
  induction events as [|e events IH]; intros w Hb Hc; simpl; [done|].
  apply IH; [by apply step_bounded | by apply step_coalesced].
Qed.

Lemma run_invariants_bounded events w : bounded w -> bounded (run events w).
Proof.
  unfold run. revert w.
  induction events as [|e events IH]; intros w Hb; simpl; [done|].
  apply IH. by apply step_bounded.
Qed.

Lemma freshWorld_invariants now st ls :
  bounded (freshWorld now st ls) /\ coalesced (freshWorld now st ls).
Proof.
  split; [unfold bounded, Map_size; simpl; lia|].
  intros key. simpl. by rewrite decide_False by set_solver.
Qed.

(** *** Reads in the stale window *)

Lemma cachedEntry_ext w w' key :
  lsStatus w' = lsStatus w -> localStorage w' = localStorage w ->
  memoryCache w' = memoryCache w ->
  cachedEntry w' key = cachedEntry w key.
Proof.
  intros H1 H2 H3. rewrite !cachedEntry_eq. unfold persisted.
  by rewrite H1, H2, H3.
Qed.







(** *** Rejection of [getStaleWhileRevalidate] *)

(** C2, as stated, fails on entries whose data is [undefined], whichever
    way such an entry is counted.  First run: [set("k", undefined, 10)],
    read 4000 ms later while [fetchFn] rejects; the cache holds an entry
    for the key and the call rejects all the same.  Second run: the same
    write with a TTL of 10000 ms, read 9500 ms later; [fetchFn] rejects and
    the entry carries no data, yet the call resolves (to [undefined]). *)
Lemma swr_rejection_counterexample :
  let options := mkOptions None false in
  let failure := Rejects (JStr "offline") in
  (let w := run [CallSet "k" JUndefined (Some 10); Tick 4000]
                (freshWorld 1000 Available ∅) in
   cachedEntry w "k" = Some (mkWrapped JUndefined 1000 10) /\
   swrPromise "k" options failure w w = Rejected (JStr "offline")) /\
  (let w := run [CallSet "k" JUndefined (Some 10000); Tick 9500]
                (freshWorld 1000 Available ∅) in
   cachedEntry w "k" = Some (mkWrapped JUndefined 1000 10000) /\
   swrPromise "k" options failure w w = Resolved JUndefined).
Proof. vm_compute. repeat split; reflexivity. Qed.

(** C2, amended.  The promise of [getStaleWhileRevalidate] rejects if and
    only if [fetchFn] rejects and the cache holds no entry for the key or
    holds an expired entry whose data is [undefined]; the rejection is the
    one of [fetchFn].  With no entry the call awaits [fetchFn], writes its
    result with [set] and returns it.  With an entry whose data is not
    [undefined] the call returns that data in the calling turn and never
    rejects. *)
Theorem swr_rejects_iff (key : string) (options : Options) (o : FetchOutcome)
    (w later : World) :
  let ttl := default DEFAULT_TTL (opt_ttl options) in
  let noFallback :=
    match cachedEntry w key with
    | None => true
    | Some e => expiredAt (clock w) e && isUndefined (data e)
    end in
  (forall err,
     swrPromise key options o w later = Rejected err <->
     o = Rejects err /\ noFallback = true) /\
  (cachedEntry w key = None ->
     fst (getStaleWhileRevalidate key options w) = Awaiting key ttl None /\
     forall fresh, o = Resolves fresh ->
       swrPromise key options o w later = Resolved fresh /\
       snd (fetch_settled key ttl None o later) =
       snd (set key fresh (Some ttl) later)) /\
  (forall e, cachedEntry w key = Some e -> data e <> JUndefined ->
     fst (getStaleWhileRevalidate key options w) = Returned (data e) /\
     swrPromise key options o w later = Resolved (data e)).
Proof.
  cbv zeta. unfold swrPromise. rewrite getStaleWhileRevalidate_run. cbv zeta.
  destruct (cachedEntry w key) as [e|] eqn:He.
  - split; [|split; [done|]].
    + intros err.
      destruct (negb (expiredAt (clock w) e) && negb (staleAt (clock w) e)) eqn:Ef.
      { simpl. split; [done|]. intros [_ H].
        apply andb_true_iff in H as [H _]. rewrite H in Ef. done. }
      destruct (expiredAt (clock w) e && isUndefined (data e)) eqn:Eu; simpl.
      * apply andb_true_iff in Eu as [_ Eu].
        destruct (data e) eqn:Ed; try done.
        destruct o as [fresh|err']; simpl.
        -- unfold fetch_settled, bind.
           destruct (set _ _ _ later) as [b w1]. simpl.
           split; [done|]. by intros [? _].
        -- unfold fetch_settled, ret. rewrite Ed. simpl.
           split; [intros [= ->]; done | intros [[= ->] _]; done].
      * split; [done|]. by intros [_ ?].
    + intros e' [= <-] Hd.
      destruct (negb (expiredAt (clock w) e) && negb (staleAt (clock w) e)); [done|].
      assert (isUndefined (data e) = false) as -> by (by destruct (data e)).
      rewrite andb_false_r. done.
  - split; [|split; [|done]].
    + intros err. simpl. destruct o as [fresh|err']; simpl.
      * unfold fetch_settled, bind.
        destruct (set _ _ _ later) as [b w1]. simpl.
        split; [done|]. by intros [? _].
      * split; [intros [= ->]; done | intros [[= ->] _]; done].
    + intros _. split; [done|]. intros fresh ->. simpl.
      unfold fetch_settled, bind.
      destruct (set _ _ _ later) as [b w1]. done.
Qed.

(** C2, on a run: an entry with data is read after it expired while
    [fetchFn] rejects; the call returns the data. *)
Lemma swr_rejects_iff_witness :
  let w := run [CallSet "k" (JNum 1) (Some 10); Tick 4000]
               (freshWorld 1000 Available ∅) in
  let options := mkOptions None false in
  let e := mkWrapped (JNum 1) 1000 10 in
  (cachedEntry w "k" = Some e /\ data e <> JUndefined) /\
  fst (getStaleWhileRevalidate "k" options w) = Returned (JNum 1) /\
  swrPromise "k" options (Rejects (JStr "offline")) w w = Resolved (JNum 1).
Proof.
  cbv zeta.
  assert (cachedEntry
            (run [CallSet "k" (JNum 1) (Some 10); Tick 4000]
                 (freshWorld 1000 Available ∅)) "k"
          = Some (mkWrapped (JNum 1) 1000 10)) as H1 by (vm_compute; reflexivity).
  assert (data (mkWrapped (JNum 1) 1000 10) <> JUndefined) as H2 by (simpl; congruence).
  split; [done|].
  exact (proj2 (proj2 (swr_rejects_iff "k" (mkOptions None false)
                         (Rejects (JStr "offline")) _ _)) _ H1 H2).
Defined.

(** *** Round trip, expiry and the in-memory tier *)

(** C3.  The round trip fails when the persistent tier refuses the write
    and still holds an older entry for the key: [set] falls back to the
    in-memory tier and resolves to [true], and [get], which asks the
    persistent tier first, returns the older value.  The run: 1 is written,
    the storage fills up, 2 is written with a TTL of 60000 ms, and the read
    that follows at once returns 1. *)
Theorem set_then_get_shadowed :
  let w := run [CallSet "stats" (JNum 1) (Some 60000);
                StorageChanges QuotaExceeded; Tick 1000]
               (freshWorld 1000 Available ∅) in
  let w' := snd (set "stats" (JNum 2) (Some 60000) w) in
  jsonValue (JNum 2) /\
  fst (set "stats" (JNum 2) (Some 60000) w) = true /\
  fst (getMemoryCache "stats" w') = Some (mkWrapped (JNum 2) 2000 60000) /\
  fst (get "stats" w') = JNum 1.
Proof. vm_compute. repeat split; reflexivity. Qed.

(** C8.  [get] on an expired entry returns [null] and changes nothing: the
    world after the read is the world before it, both tiers included.  When
    the entry carries data, a later [getStaleWhileRevalidate] still returns
    that data in the calling turn, leaves the tiers as they are and has the
    refresh of the key pending. *)
Theorem expired_read_keeps_entry (w : World) (key : string) (e : Wrapped) :
  cachedEntry w key = Some e ->
  ttl e < clock w - timestamp e ->
  get key w = (JNull, w) /\
  (data e <> JUndefined ->
   forall options t, clock w <= t ->
     let ttl := default DEFAULT_TTL (opt_ttl options) in
     let w1 := withClock t (snd (get key w)) in
     let w2 := snd (getStaleWhileRevalidate key options w1) in
     fst (getStaleWhileRevalidate key options w1) = Returned (data e) /\
     key ∈ pendingRevalidations w2 /\
     localStorage w2 = localStorage w /\ memoryCache w2 = memoryCache w /\
     (key ∉ pendingRevalidations w ->
        inflight w2 = inflight w ++ [Revalidating key ttl (opt_onUpdate options)])).
Proof.
  intros He Hage.
  assert (expiredAt (clock w) e = true) as Hx.
  { unfold expiredAt. apply orb_true_iff. right. by apply Z.ltb_lt. }
  split; [by rewrite get_run, He, Hx|].
  intros Hd options t Ht. cbv zeta.
  rewrite get_run. simpl.
  rewrite getStaleWhileRevalidate_run. cbv zeta.
  rewrite (cachedEntry_ext w (withClock t w)) by done. rewrite He. simpl.
  rewrite (expiredAt_mono e _ _ Ht Hx). simpl.
  assert (isUndefined (data e) = false) as -> by (by destruct (data e)).
  rewrite revalidateInBackground_run. simpl.
  destruct (decide (key ∈ pendingRevalidations w)); simpl.
  - repeat split; done.
  - repeat split; try done. set_solver.
Qed.

(** C8, on a run: the entry of the specification's example, read with [get]
    and then with [getStaleWhileRevalidate] after it expired. *)
Lemma expired_read_keeps_entry_witness :
  let stars := JObj [("stars", JNum 100)] in
  let w := run [CallSet "stats" stars (Some 5000); Tick 6000]
               (freshWorld 1000 Available ∅) in
  let e := mkWrapped stars 1000 5000 in
  let options := mkOptions None false in
  (cachedEntry w "stats" = Some e /\ ttl e < clock w - timestamp e /\
   data e <> JUndefined) /\
  get "stats" w = (JNull, w) /\
  fst (getStaleWhileRevalidate "stats" options (withClock 7000 (snd (get "stats" w))))
  = Returned stars.
Proof.
  cbv zeta.
  assert (cachedEntry
            (run [CallSet "stats" (JObj [("stars", JNum 100)]) (Some 5000); Tick 6000]
                 (freshWorld 1000 Available ∅)) "stats"
          = Some (mkWrapped (JObj [("stars", JNum 100)]) 1000 5000)) as H1
    by (vm_compute; reflexivity).
  assert (ttl (mkWrapped (JObj [("stars", JNum 100)]) 1000 5000) <
          clock (run [CallSet "stats" (JObj [("stars", JNum 100)]) (Some 5000); Tick 6000]
                     (freshWorld 1000 Available ∅))
          - timestamp (mkWrapped (JObj [("stars", JNum 100)]) 1000 5000)) as H2
    by (vm_compute; reflexivity).
  assert (data (mkWrapped (JObj [("stars", JNum 100)]) 1000 5000) <> JUndefined) as H3
    by (simpl; congruence).
  split; [done|].
  destruct (expired_read_keeps_entry _ "stats" _ H1 H2) as [Hget Hswr].
  split; [exact Hget|].
  assert (clock (run [CallSet "stats" (JObj [("stars", JNum 100)]) (Some 5000); Tick 6000]
                     (freshWorld 1000 Available ∅)) <= 7000) as H4
    by (vm_compute; congruence).
  exact (proj1 (Hswr H3 (mkOptions None false) 7000 H4)).
Defined.

(** The cache example of the specification: a miss, a write of
    [{stars: 100}] for 5000 ms, a hit, and a miss again 6000 ms later. *)
Example miss_then_populate :
  let stars := JObj [("stars", JNum 100)] in
  let w0 := freshWorld 1000 Available ∅ in
  let w1 := step (CallSet "stats" stars (Some 5000)) w0 in
  let w2 := step (Tick 6000) w1 in
  fst (get "stats" w0) = JNull /\
  fst (get "stats" w1) = stars /\
  fst (get "stats" w2) = JNull.
Proof. vm_compute. repeat split; reflexivity. Qed.

(** ** Further properties of the cache layer *)

(** *** Keys and the [Map] *)

Lemma getCacheKey_inj a b : getCacheKey a = getCacheKey b -> a = b.
Proof. cbv [getCacheKey String.append]. congruence. Qed.

Lemma getCacheKey_prefix key : String.prefix "omc:" (getCacheKey key) = true.
Proof. cbv [getCacheKey String.append]. by destruct key. Qed.

Lemma Map_get_set_ne k k' v m : k <> k' -> Map_get k' (Map_set k v m) = Map_get k' m.
Proof.
  intros Hne. induction m as [|[k0 v0] m IH]; simpl.
  - destruct (String.eqb k k') eqn:E; [apply String.eqb_eq in E|]; done.
  - destruct (String.eqb k0 k) eqn:E; simpl.
    + apply String.eqb_eq in E as ->.
      destruct (String.eqb k k') eqn:E'; [apply String.eqb_eq in E'|]; done.
    + by rewrite IH.
Qed.

Lemma Map_get_delete_ne k k' m : k <> k' -> Map_get k' (Map_delete k m) = Map_get k' m.
Proof.
  intros Hne. induction m as [|[k0 v0] m IH]; simpl; [done|].
  destruct (String.eqb k0 k) eqn:E; simpl.
  - apply String.eqb_eq in E as ->.
    destruct (String.eqb k k') eqn:E'; [apply String.eqb_eq in E'|]; done.
  - by rewrite IH.
Qed.

Lemma Map_get_absent k m : k ∉ map fst m -> Map_get k m = None.
Proof.
  induction m as [|[k0 v0] m IH]; simpl; [done|].
  intros Hn. apply not_elem_of_cons in Hn as [Hne Hn].
  destruct (String.eqb k0 k) eqn:E; [apply String.eqb_eq in E; congruence|].
  by apply IH.
Qed.



Lemma Map_get_delete_eq k m : uniqueKeys m -> Map_get k (Map_delete k m) = None.
Proof.
  unfold uniqueKeys. induction m as [|[k0 v0] m IH]; simpl; [done|].
  intros H. apply NoDup_cons in H as [Hn H].
  destruct (String.eqb k0 k) eqn:E; simpl.
  - apply String.eqb_eq in E as ->. by apply Map_get_absent.
  - rewrite E. by apply IH.
Qed.




(** *** JSON *)

Lemma stringify_serializable d t l :
  jsonSerializable d = true ->
  JSON_stringify (mkWrapped d t l) = Some (Json (mkWrapped (jsonCloneField d) t l)).
Proof.
  intros Hs. unfold JSON_stringify. simpl.
  destruct d; simpl in *; try done; by rewrite Hs.
Qed.

Lemma stringify_unserializable d t l :
  jsonSerializable d = false -> JSON_stringify (mkWrapped d t l) = None.
Proof.
  intros Hs. unfold JSON_stringify. simpl.
  destruct d; simpl in *; try done; by rewrite Hs.
Qed.

(** *** Reads of a fresh entry, and the order of the thresholds *)

Lemma fresh_read_run (w : World) (key : string) (options : Options)
    (e : Wrapped) :
  cachedEntry w key = Some e ->
  inFreshWindow e (clock w) ->
  getStaleWhileRevalidate key options w = (Returned (data e), w).
Proof.
  intros He (Hts & Hx & Hs). rewrite getStaleWhileRevalidate_run. cbv zeta.
  rewrite He. unfold expiredAt, staleAt.
  destruct (timestamp e =? 0) eqn:E0; [apply Z.eqb_eq in E0; lia|].
  destruct (ttl e <? clock w - timestamp e) eqn:E1; [apply Z.ltb_lt in E1; lia|].
  by rewrite fresh_not_exceeds by lia.
Qed.

(** X1.  An entry that is neither stale nor expired is returned by
    [getStaleWhileRevalidate] in the calling turn and the call changes
    nothing: no [fetchFn] call is started, nothing becomes pending.  [get]
    returns the same data. *)
Theorem fresh_read_starts_nothing (w : World) (key : string) (options : Options)
    (e : Wrapped) :
  cachedEntry w key = Some e ->
  inFreshWindow e (clock w) ->
  getStaleWhileRevalidate key options w = (Returned (data e), w) /\
  get key w = (data e, w).
Proof.
  intros He Hwin. split; [by apply fresh_read_run|].
  destruct Hwin as (Hts & Hx & Hs). rewrite get_run, He. unfold expiredAt.
  destruct (timestamp e =? 0) eqn:E0; [apply Z.eqb_eq in E0; lia|].
  destruct (ttl e <? clock w - timestamp e) eqn:E1; [apply Z.ltb_lt in E1; lia|].
  done.
Qed.

Lemma fresh_read_starts_nothing_witness :
  let w := run [CallSet "stats" (JNum 7) (Some 1000); Tick 800]
               (freshWorld 1000 Available ∅) in
  let e := mkWrapped (JNum 7) 1000 1000 in
  (cachedEntry w "stats" = Some e /\ inFreshWindow e (clock w)) /\
  getStaleWhileRevalidate "stats" (mkOptions None true) w = (Returned (JNum 7), w).
Proof.
  cbv zeta.
  assert (cachedEntry
            (run [CallSet "stats" (JNum 7) (Some 1000); Tick 800]
                 (freshWorld 1000 Available ∅)) "stats"
          = Some (mkWrapped (JNum 7) 1000 1000)) as H1 by (vm_compute; reflexivity).
  assert (inFreshWindow (mkWrapped (JNum 7) 1000 1000)
            (clock (run [CallSet "stats" (JNum 7) (Some 1000); Tick 800]
                        (freshWorld 1000 Available ∅)))) as H2
    by (unfold inFreshWindow; simpl; lia).
  split; [done|].
  exact (proj1 (fresh_read_starts_nothing _ "stats" (mkOptions None true) _ H1 H2)).
Defined.

(** X2.  For an entry with a TTL that is not negative, the two thresholds
    are ordered and both are passed for good: an expired entry is stale,
    and an entry stale (or expired) at one time is stale (or expired) at
    every later time. *)
Theorem staleness_order (e : Wrapped) (w later : World) :
  0 <= ttl e ->
  clock w <= clock later ->
  (fst (isExpired e w) = true -> fst (isStale e w) = true) /\
  (fst (isStale e w) = true -> fst (isStale e later) = true) /\
  (fst (isExpired e w) = true -> fst (isExpired e later) = true).
Proof.
  intros Httl Hlater. rewrite !isExpired_run, !isStale_run. simpl.
  unfold expiredAt, staleAt.
  destruct (timestamp e =? 0); simpl; [done|].
  split; [|split].
  - intros H. apply Z.ltb_lt in H. by apply expired_exceeds.
  - apply exceeds_mono. lia.
  - rewrite !Z.ltb_lt. lia.
Qed.

Lemma staleness_order_witness :
  let e := mkWrapped (JNum 7) 1000 1000 in
  let w := freshWorld 2100 Available ∅ in
  let later := step (Tick 50) w in
  (0 <= ttl e /\ clock w <= clock later) /\
  (fst (isExpired e w) = true -> fst (isStale e w) = true) /\
  (fst (isStale e w) = true -> fst (isStale e later) = true) /\
  (fst (isExpired e w) = true -> fst (isExpired e later) = true).
Proof.
  cbv zeta.
  assert (0 <= ttl (mkWrapped (JNum 7) 1000 1000)) as H1 by (simpl; lia).
  assert (clock (freshWorld 2100 Available ∅) <=
          clock (step (Tick 50) (freshWorld 2100 Available ∅))) as H2
    by (simpl; lia).
  split; [done|].
  exact (staleness_order _ _ _ H1 H2).
Defined.

(** *** Round trips through either tier *)

(** X3.  With the persistent tier available, a value [JSON.stringify]
    accepts is read back as its JSON image: [get] after [set] returns the
    value with [undefined] array elements turned into [null] and
    [undefined] properties dropped, from the time of the write until the
    TTL has passed. *)
Theorem set_then_get_json_image (key : string) (d : JSValue) (ttl : option Z)
    (w : World) (t : Z) :
  lsStatus w = Available ->
  jsonSerializable d = true ->
  clock w <> 0 ->
  t - clock w <= effectiveTtl ttl ->
  fst (get key (withClock t (snd (set key d ttl w)))) = jsonCloneField d.
Proof.
  intros Hst Hs Hc Ht. rewrite get_run, set_run. cbv zeta.
  rewrite (stringify_serializable _ _ _ Hs), Hst.
  pose proof (setCacheAPI_frame key (mkWrapped d (clock w) (effectiveTtl ttl))
    (withLocalStorage
       (<[getCacheKey key:=Json (mkWrapped (jsonCloneField d) (clock w) (effectiveTtl ttl))]>
          (localStorage w)) w)) as F.
  cbv zeta in F. destruct F as (_ & Hst' & Hls & _).
  simpl fst. simpl snd.
  set (w1 := snd (setCacheAPI _ _ _)) in *. clearbody w1.
  rewrite cachedEntry_eq. unfold persisted. simpl in *.
  rewrite Hst', Hst, Hls, lookup_insert_eq. simpl.
  unfold expiredAt. simpl.
  destruct (clock w =? 0) eqn:E0; [apply Z.eqb_eq in E0; lia|].
  destruct (effectiveTtl ttl <? t - clock w) eqn:E1; [apply Z.ltb_lt in E1; lia|].
  done.
Qed.

Lemma set_then_get_json_image_witness :
  let w := freshWorld 1000 Available ∅ in
  let d := JObj [("a", JArr [JNum 1; JUndefined]); ("b", JUndefined)] in
  (lsStatus w = Available /\ jsonSerializable d = true /\ clock w <> 0 /\
   1500 - clock w <= effectiveTtl (Some 1000)) /\
  fst (get "k" (withClock 1500 (snd (set "k" d (Some 1000) w)))) =
  JObj [("a", JArr [JNum 1; JNull])].
Proof.
  cbv zeta.
  assert (clock (freshWorld 1000 Available ∅) <> 0) as H3 by (simpl; lia).
  assert (1500 - clock (freshWorld 1000 Available ∅) <= effectiveTtl (Some 1000)) as H4
    by (vm_compute; congruence).
  split; [repeat split; done|].
  exact (set_then_get_json_image "k"
           (JObj [("a", JArr [JNum 1; JUndefined]); ("b", JUndefined)])
           (Some 1000) (freshWorld 1000 Available ∅) 1500 eq_refl eq_refl H3 H4).
Defined.

Lemma set_refused key d ttl w :
  fst (setLocalStorage key (mkWrapped d (clock w) (effectiveTtl ttl)) w) = false ->
  snd (set key d ttl w) =
  snd (setMemoryCache key (mkWrapped d (clock w) (effectiveTtl ttl)) w).
Proof.
  rewrite set_run. cbv zeta. unfold setLocalStorage.
  destruct (JSON_stringify _) as [s|]; [|by destruct (lsStatus w)].
  unfold localStorage_setItem, bind, reads, modify, ret.
  by destruct (lsStatus w).
Qed.

(** X4.  When the persistent tier refuses the write (storage disabled or
    full, or a value [JSON.stringify] rejects) and holds no readable entry
    for the key, the entry is kept in memory as it is: [get] after [set]
    returns the very value, whatever it is, until the TTL has passed. *)
Theorem set_then_get_from_memory (key : string) (d : JSValue) (ttl : option Z)
    (w : World) (t : Z) :
  fst (setLocalStorage key (mkWrapped d (clock w) (effectiveTtl ttl)) w) = false ->
  fst (getLocalStorage key w) = None ->
  bounded w ->
  clock w <> 0 ->
  t - clock w <= effectiveTtl ttl ->
  fst (get key (withClock t (snd (set key d ttl w)))) = d.
Proof.
  intros Hrefused Hnone Hb Hc Ht.
  rewrite get_run, (set_refused _ _ _ _ Hrefused), setMemoryCache_world.
  rewrite getLocalStorage_run in Hnone. simpl in Hnone.
  rewrite cachedEntry_eq. unfold persisted in *. simpl.
  rewrite Hnone, (afterSetMemory_get _ _ _ Hb). simpl.
  unfold expiredAt. simpl.
  destruct (clock w =? 0) eqn:E0; [apply Z.eqb_eq in E0; lia|].
  destruct (effectiveTtl ttl <? t - clock w) eqn:E1; [apply Z.ltb_lt in E1; lia|].
  done.
Qed.

Lemma set_then_get_from_memory_witness :
  let w := freshWorld 1000 Disabled ∅ in
  let d := JArr [JUndefined; JBigInt 5] in
  (fst (setLocalStorage "k" (mkWrapped d (clock w) (effectiveTtl None)) w) = false /\
   fst (getLocalStorage "k" w) = None /\ bounded w /\ clock w <> 0 /\
   1000 - clock w <= effectiveTtl None) /\
  fst (get "k" (withClock 1000 (snd (set "k" d None w)))) = d.
Proof.
  cbv zeta.
  assert (bounded (freshWorld 1000 Disabled ∅)) as H3
    by (unfold bounded, Map_size; simpl; lia).
  assert (clock (freshWorld 1000 Disabled ∅) <> 0) as H4 by (simpl; lia).
  assert (1000 - clock (freshWorld 1000 Disabled ∅) <= effectiveTtl None) as H5
    by (vm_compute; congruence).
  split; [repeat split; done|].
  exact (set_then_get_from_memory "k" (JArr [JUndefined; JBigInt 5]) None
           (freshWorld 1000 Disabled ∅) 1000 eq_refl eq_refl H3 H4 H5).
Defined.

(** *** An invariant of the [Map]: its keys stay pairwise different *)

Section MemoryInvariant.
Variable P : list (string * Wrapped) -> Prop.
Hypothesis P_set : forall k v m, P m -> P (afterSetMemory k v m).
Hypothesis P_delete : forall k m, P m -> P (Map_delete k m).
Hypothesis P_clear : P [].




End MemoryInvariant.


(** *** Forgetting entries *)

Lemma remove_world key w :
  let w' := snd (remove key w) in
  lsStatus w' = lsStatus w /\ clock w' = clock w /\
  hasCacheAPI w' = hasCacheAPI w /\ cacheAPIWorks w' = cacheAPIWorks w /\
  localStorage w' =
    (match lsStatus w with
     | Disabled => localStorage w
     | _ => delete (getCacheKey key) (localStorage w)
     end) /\
  memoryCache w' = Map_delete (getCacheKey key) (memoryCache w) /\
  cacheAPI w' =
    (if hasCacheAPI w && cacheAPIWorks w
     then delete (getCacheKey key) (cacheAPI w) else cacheAPI w).
Proof.
  cbv zeta. turn.
  destruct (lsStatus w) eqn:E1, (hasCacheAPI w) eqn:E2, (cacheAPIWorks w) eqn:E3;
    simpl; rewrite ?E1, ?E2, ?E3; done.
Qed.

Lemma getAsync_after_miss key w :
  fst (get key w) = JNull ->
  fst (getAsync key w) =
  match (if hasCacheAPI w && cacheAPIWorks w
         then cacheAPI w !! getCacheKey key else None) with
  | Some e => if expiredAt (clock w) e then JNull else data e
  | None => JNull
  end.
Proof.
  intros Hmiss. unfold getAsync.
  rewrite get_run in Hmiss. simpl in Hmiss.
  erewrite bind_run by apply get_run. rewrite Hmiss.
  unfold getCacheAPI, bind, reads, ret. simpl.
  destruct (hasCacheAPI w); simpl; [|done].
  destruct (cacheAPIWorks w); simpl; [|done].
  destruct (cacheAPI w !! getCacheKey key) as [e|]; [|done].
  rewrite isExpired_run. destruct (expiredAt (clock w) e); [done|].
  by destruct (setLocalStorage key e w).
Qed.

(** X5.  [remove] makes the key unreadable and leaves every other key as
    it was: afterwards [get] and [getAsync] of the key return [null], any
    other key resolves to the entry it resolved to before, and nothing
    pending or in flight is touched. *)
Theorem remove_forgets_key (key : string) (w : World) :
  uniqueKeys (memoryCache w) ->
  let w' := snd (remove key w) in
  fst (get key w') = JNull /\
  fst (getAsync key w') = JNull /\
  (forall key', key' <> key -> cachedEntry w' key' = cachedEntry w key') /\
  sameAsync w w'.
Proof.
  intros Hu. cbv zeta.
  pose proof (remove_world key w) as F. cbv zeta in F.
  destruct F as (Hst & Hc & Hhas & Hworks & Hls & Hm & Hca).
  set (w' := snd (remove key w)) in *.
  assert (cachedEntry w' key = None) as Hnone.
  { rewrite cachedEntry_eq. unfold persisted. rewrite Hst, Hls, Hm.
    rewrite (Map_get_delete_eq _ _ Hu).
    destruct (lsStatus w); by rewrite ?lookup_delete_eq. }
  assert (fst (get key w') = JNull) as Hget by (by rewrite get_run, Hnone).
  split; [done|]. split; [|split].
  - rewrite (getAsync_after_miss _ _ Hget), Hhas, Hworks, Hca.
    destruct (hasCacheAPI w && cacheAPIWorks w); [|done].
    by rewrite lookup_delete_eq.
  - intros key' Hne. rewrite !cachedEntry_eq. unfold persisted.
    rewrite Hst, Hls, Hm.
    assert (getCacheKey key <> getCacheKey key') as Hk
      by (intros Heq; by apply getCacheKey_inj in Heq).
    rewrite (Map_get_delete_ne _ _ _ Hk).
    destruct (lsStatus w); by rewrite ?lookup_delete_ne.
  - subst w'. apply remove_frame.
Qed.

Lemma remove_forgets_key_witness :
  let w := run [CallSet "a" (JNum 1) None; CallSet "b" (JNum 2) None]
               (freshWorld 1000 QuotaExceeded ∅) in
  let w' := snd (remove "a" w) in
  uniqueKeys (memoryCache w) /\
  fst (get "a" w') = JNull /\ fst (getAsync "a" w') = JNull /\
  fst (get "b" w') = JNum 2.
Proof.
  cbv zeta.
  assert (uniqueKeys (memoryCache
            (run [CallSet "a" (JNum 1) None; CallSet "b" (JNum 2) None]
                 (freshWorld 1000 QuotaExceeded ∅)))) as H.
  { vm_compute. repeat constructor; set_solver. }
  destruct (remove_forgets_key "a" _ H) as (H1 & H2 & _).
  split; [exact H|]. split; [exact H1|]. split; [exact H2|].
  vm_compute. reflexivity.
Defined.

Lemma clear_world w :
  let w' := snd (clear w) in
  lsStatus w' = lsStatus w /\ clock w' = clock w /\
  hasCacheAPI w' = hasCacheAPI w /\ cacheAPIWorks w' = cacheAPIWorks w /\
  localStorage w' =
    (match lsStatus w with
     | Disabled => localStorage w
     | _ => filter (fun kv => negb (String.prefix "omc:" (fst kv)) = true)
              (localStorage w)
     end) /\
  memoryCache w' = [] /\
  cacheAPI w' = (if hasCacheAPI w && cacheAPIWorks w then ∅ else cacheAPI w).
Proof.
  cbv zeta. turn.
  destruct (lsStatus w) eqn:E1, (hasCacheAPI w) eqn:E2, (cacheAPIWorks w) eqn:E3;
    simpl; rewrite ?E1, ?E2, ?E3; done.
Qed.

(** X6.  [clear] makes every key unreadable: afterwards [get] and
    [getAsync] return [null] for every key and [getStats] counts no entry
    in either tier.  It is no wipe of the shared storage, a [localStorage]
    key outside the prefix [omc:] keeps its value; and it cancels nothing,
    what was pending or in flight still is. *)
Theorem clear_forgets_everything (w : World) :
  let w' := snd (clear w) in
  (forall key, fst (get key w') = JNull /\ fst (getAsync key w') = JNull) /\
  (forall k, String.prefix "omc:" k = false ->
             localStorage w' !! k = localStorage w !! k) /\
  localStorageItems (fst (getStats w')) = O /\
  memoryCacheItems (fst (getStats w')) = O /\
  sameAsync w w'.
Proof.
  cbv zeta.
  pose proof (clear_world w) as F. cbv zeta in F.
  destruct F as (Hst & Hc & Hhas & Hworks & Hls & Hm & Hca).
  pose proof (proj1 (clear_frame w)) as Hsame. cbv zeta in Hsame.
  set (w' := snd (clear w)) in *. clearbody w'.
  split; [|split; [|split; [|split]]].
  - intros key.
    assert (cachedEntry w' key = None) as Hnone.
    { rewrite cachedEntry_eq. unfold persisted. rewrite Hst, Hls, Hm. simpl.
      assert (filter (fun kv : string * Serialized =>
                        negb (String.prefix "omc:" (fst kv)) = true)
                (localStorage w) !! getCacheKey key = None) as Hf.
      { apply map_lookup_filter_None. right. intros x _. cbn [fst].
        by rewrite getCacheKey_prefix. }
      destruct (lsStatus w); by rewrite ?Hf. }
    assert (fst (get key w') = JNull) as Hget by (by rewrite get_run, Hnone).
    split; [done|].
    rewrite (getAsync_after_miss _ _ Hget), Hhas, Hworks, Hca.
    by destruct (hasCacheAPI w && cacheAPIWorks w).
  - intros k Hk. rewrite Hls. destruct (lsStatus w); try done.
    + destruct (localStorage w !! k) as [x|] eqn:E.
      * apply map_lookup_filter_Some. split; [done|]. simpl. by rewrite Hk.
      * apply map_lookup_filter_None. by left.
    + destruct (localStorage w !! k) as [x|] eqn:E.
      * apply map_lookup_filter_Some. split; [done|]. simpl. by rewrite Hk.
      * apply map_lookup_filter_None. by left.
  - unfold getStats, bind, reads, ret.
    assert (filter (fun kv : string * Serialized => String.prefix "omc:" (fst kv) = true)
              (filter (fun kv : string * Serialized =>
                         negb (String.prefix "omc:" (fst kv)) = true)
                 (localStorage w)) = ∅) as He.
    { apply map_empty. intros k. apply map_lookup_filter_None. right.
      intros x Hx. apply map_lookup_filter_Some in Hx as [_ Hx]. simpl in *.
      by destruct (String.prefix "omc:" k). }
    destruct (lsStatus w) eqn:Est; rewrite Hst; simpl;
      by rewrite ?Hls, ?He, ?map_size_empty.
  - unfold getStats, bind, reads, ret.
    destruct (lsStatus w'); simpl; by rewrite Hm.
  - done.
Qed.

(** *** Keys do not disturb each other *)

Lemma afterSetMemory_other k k' v m :
  k <> k' ->
  Map_size m < 100 \/ Map_firstKey m <> Some k' ->
  Map_get k' (afterSetMemory k v m) = Map_get k' m.
Proof.
  intros Hne Hroom. unfold afterSetMemory.
  destruct (100 <? Map_size (Map_set k v m)) eqn:E;
    [|by apply Map_get_set_ne].
  apply Z.ltb_lt in E. unfold Map_size in *.
  destruct (Map_set_length k v m) as [Hl|Hl].
  - destruct Hroom as [Hroom|Hroom]; [lia|].
    destruct m as [|[k0 v0] m]; simpl in *; [lia|].
    destruct (String.eqb k0 k) eqn:Ek; simpl.
    + rewrite String.eqb_refl.
      apply String.eqb_eq in Ek as ->.
      by destruct (String.eqb k k') eqn:E'; [apply String.eqb_eq in E'|].
    + rewrite String.eqb_refl.
      destruct (String.eqb k0 k') eqn:E'; [apply String.eqb_eq in E'; congruence|].
      by apply Map_get_set_ne.
  - rewrite Hl in *. rewrite length_app in E. simpl in E.
    destruct Hroom as [Hroom|Hroom]; [lia|].
    destruct m as [|[k0 v0] m]; simpl in *; [lia|].
    rewrite String.eqb_refl.
    destruct (String.eqb k0 k') eqn:E'; [apply String.eqb_eq in E'; congruence|].
    change (Map_get k' (m ++ [(k, v)]) = Map_get k' m).
    assert (Map_set k v ((k0, v0) :: m) = (k0, v0) :: m ++ [(k, v)]) as Hs by done.
    simpl in Hs. destruct (String.eqb k0 k) eqn:Ek.
    + injection Hs as Hs. assert (length m = length (m ++ [(k, v)])) as Hlen by congruence.
      rewrite length_app in Hlen. simpl in Hlen. lia.
    + injection Hs as Hs. rewrite <- Hs. by apply Map_get_set_ne.
Qed.

(** X7.  A write to one key leaves every other key as it was, with one
    exception the code makes on purpose: when the in-memory tier is full
    the write may push out its oldest entry.  So if the in-memory tier
    holds fewer than 100 entries, or the other key is not its first one,
    the other key resolves to the same entry after [set] as before. *)
Theorem set_leaves_other_keys (key key' : string) (d : JSValue) (ttl : option Z)
    (w : World) :
  key' <> key ->
  Map_size (memoryCache w) < 100 \/
  Map_firstKey (memoryCache w) <> Some (getCacheKey key') ->
  cachedEntry (snd (set key d ttl w)) key' = cachedEntry w key'.
Proof.
  intros Hne Hroom.
  assert (getCacheKey key <> getCacheKey key') as Hk
    by (intros Heq; by apply getCacheKey_inj in Heq).
  rewrite set_run. cbv zeta.
  destruct (JSON_stringify _) as [s|]; [destruct (lsStatus w) eqn:Est|]; simpl.
  - pose proof (setCacheAPI_frame key (mkWrapped d (clock w) (effectiveTtl ttl))
      (withLocalStorage (<[getCacheKey key:=s]> (localStorage w)) w)) as F.
    cbv zeta in F. destruct F as (_ & Hst & Hls & Hm & _).
    set (w1 := snd (setCacheAPI _ _ _)) in *. clearbody w1.
    rewrite !cachedEntry_eq. unfold persisted. simpl in *.
    rewrite Hst, Hls, Hm, Est. by rewrite lookup_insert_ne.
  - rewrite setMemoryCache_world, !cachedEntry_eq. unfold persisted. simpl.
    by rewrite (afterSetMemory_other _ _ _ _ Hk Hroom).
  - rewrite setMemoryCache_world, !cachedEntry_eq. unfold persisted. simpl.
    by rewrite (afterSetMemory_other _ _ _ _ Hk Hroom).
  - rewrite setMemoryCache_world, !cachedEntry_eq. unfold persisted. simpl.
    by rewrite (afterSetMemory_other _ _ _ _ Hk Hroom).
Qed.

Lemma set_leaves_other_keys_witness :
  let w := run [CallSet "a" (JNum 1) None] (freshWorld 1000 QuotaExceeded ∅) in
  ("a" <> "b" /\
   (Map_size (memoryCache w) < 100 \/
    Map_firstKey (memoryCache w) <> Some (getCacheKey "a"))) /\
  cachedEntry (snd (set "b" (JNum 2) None w)) "a" = cachedEntry w "a".
Proof.
  cbv zeta.
  assert ("a" <> "b") as H1 by congruence.
  assert (Map_size (memoryCache
            (run [CallSet "a" (JNum 1) None] (freshWorld 1000 QuotaExceeded ∅))) < 100
          \/ Map_firstKey (memoryCache
            (run [CallSet "a" (JNum 1) None] (freshWorld 1000 QuotaExceeded ∅)))
             <> Some (getCacheKey "a")) as H2
    by (left; vm_compute; reflexivity).
  split; [done|].
  exact (set_leaves_other_keys "b" "a" (JNum 2) None _ H1 H2).
Defined.

(** *** The asynchronous read *)

(** X8.  When the synchronous tiers give nothing for the key and the Cache
    API holds an entry for it that is not expired, [getAsync] returns that
    entry's data; with the persistent tier available and data that JSON
    carries, the entry is also put back there, so that the key resolves to
    it from then on. *)
Theorem getAsync_backfills (key : string) (w : World) (e : Wrapped) :
  fst (get key w) = JNull ->
  hasCacheAPI w = true ->
  cacheAPIWorks w = true ->
  cacheAPI w !! getCacheKey key = Some e ->
  fst (isExpired e w) = false ->
  fst (getAsync key w) = data e /\
  (lsStatus w = Available -> jsonValue (data e) ->
   cachedEntry (snd (getAsync key w)) key = Some e).
Proof.
  intros Hmiss Hhas Hworks Hca Hx.
  rewrite isExpired_run in Hx. simpl in Hx.
  split.
  - rewrite (getAsync_after_miss _ _ Hmiss), Hhas, Hworks. simpl.
    by rewrite Hca, Hx.
  - intros Hst Hj. unfold getAsync.
    rewrite get_run in Hmiss. simpl in Hmiss.
    erewrite bind_run by apply get_run. rewrite Hmiss.
    unfold getCacheAPI, bind, reads, ret. simpl.
    rewrite Hhas. simpl. rewrite Hworks. simpl. rewrite Hca, isExpired_run, Hx.
    unfold setLocalStorage. destruct e as [d ts l]. simpl in *.
    rewrite (stringify_jsonValue _ _ _ Hj).
    unfold localStorage_setItem, bind, reads, modify, ret. rewrite Hst. simpl.
    rewrite cachedEntry_eq. unfold persisted. simpl.
    by rewrite Hst, lookup_insert_eq.
Qed.

(** X8, on a run: an entry is written to both the persistent tier and the
    Cache API, the persistent tier is then emptied from outside. *)
Lemma getAsync_backfills_witness :
  let w := run [CallSet "k" (JNum 3) (Some 5000)] (freshWorld 1000 Available ∅) in
  let w := withLocalStorage ∅ w in
  let e := mkWrapped (JNum 3) 1000 5000 in
  (fst (get "k" w) = JNull /\ hasCacheAPI w = true /\ cacheAPIWorks w = true /\
   cacheAPI w !! getCacheKey "k" = Some e /\ fst (isExpired e w) = false) /\
  fst (getAsync "k" w) = JNum 3 /\
  cachedEntry (snd (getAsync "k" w)) "k" = Some e.
Proof.
  cbv zeta.
  set (w := withLocalStorage ∅
              (run [CallSet "k" (JNum 3) (Some 5000)] (freshWorld 1000 Available ∅))).
  assert (fst (get "k" w) = JNull) as H1 by (vm_compute; reflexivity).
  assert (cacheAPI w !! getCacheKey "k" = Some (mkWrapped (JNum 3) 1000 5000)) as H4
    by (vm_compute; reflexivity).
  assert (fst (isExpired (mkWrapped (JNum 3) 1000 5000) w) = false) as H5
    by (vm_compute; reflexivity).
  destruct (getAsync_backfills "k" w _ H1 eq_refl eq_refl H4 H5) as [Hd Hback].
  split; [repeat split; done|].
  split; [exact Hd|].
  apply Hback; [reflexivity | split; reflexivity].
Defined.

(** *** Statistics *)

Lemma unfinishedRefreshes_cons t ts :
  unfinishedRefreshes (t :: ts) =
  ((if isRefresh t then 1 else 0) + unfinishedRefreshes ts)%nat.
Proof. unfold unfinishedRefreshes. simpl. by destruct (isRefresh t). Qed.

Lemma pending_size_counts ts : forall (pending : gset string),
  (forall key, guarding key ts = if decide (key ∈ pending) then 1%nat else 0%nat) ->
  size pending = unfinishedRefreshes ts.
Proof.
  induction ts as [|t ts IH]; intros pending H.
  - apply size_empty_iff, elem_of_equiv_empty. intros key Hin.
    specialize (H key). by rewrite decide_True in H.
  - rewrite unfinishedRefreshes_cons.
    assert (isRefresh t = false /\ (forall key, guards key t = false) \/
            exists k, isRefresh t = true /\
                      forall key, guards key t = String.eqb k key) as [[Hr Hg]|(k & Hr & Hg)].
    { destruct t as [k l u|k l e|k d u]; [right; by exists k | by left | right; by exists k]. }
    + rewrite Hr. apply IH. intros key. specialize (H key).
      by rewrite guarding_cons, Hg in H.
    + rewrite Hr.
      assert (k ∈ pending) as Hk.
      { specialize (H k). rewrite guarding_cons, Hg, String.eqb_refl in H.
        destruct (decide (k ∈ pending)); [done|lia]. }
      rewrite (union_difference_singleton_L k pending Hk).
      rewrite size_union by set_solver. rewrite size_singleton.
      rewrite (IH (pending ∖ {[k]})); [done|].
      intros key. specialize (H key). rewrite guarding_cons, Hg in H.
      destruct (String.eqb k key) eqn:E.
      * apply String.eqb_eq in E as <-.
        rewrite decide_True in H by done.
        rewrite decide_False by set_solver. lia.
      * apply String.eqb_neq in E.
        destruct (decide (key ∈ pending)).
        -- by rewrite decide_True by set_solver.
        -- by rewrite decide_False by set_solver.
Qed.

(** X9.  In every state the page reaches after a load, [getStats] changes
    nothing, its count of pending revalidations is the number of
    background refreshes that have not finished (the [fetchFn] call is in
    flight, or it has resolved and the refresh waits for [set]), which is
    at least the number of background [fetchFn] calls in flight for any
    one key, and its count of in-memory entries is at most 100. *)
Theorem getStats_counts (events : list Event) (now : Z) (st : StorageStatus)
    (ls : gmap string Serialized) :
  let w := run events (freshWorld now st ls) in
  let stats := fst (getStats w) in
  snd (getStats w) = w /\
  pendingRevalidationsCount stats = unfinishedRefreshes (inflight w) /\
  (forall key, (revalidating key (inflight w) <= pendingRevalidationsCount stats)%nat) /\
  (memoryCacheItems stats <= 100)%nat.
Proof.
  cbv zeta.
  destruct (freshWorld_invariants now st ls) as [Hb0 Hc0].
  destruct (run_invariants events _ Hb0 Hc0) as [Hb Hco].
  set (w := run events (freshWorld now st ls)) in *.
  assert (size (pendingRevalidations w) = unfinishedRefreshes (inflight w)) as Hsize
    by (by apply pending_size_counts).
  assert (forall key, (revalidating key (inflight w) <= size (pendingRevalidations w))%nat)
    as Hle.
  { intros key. pose proof (revalidating_le_guarding key (inflight w)) as Hg.
    rewrite (Hco key) in Hg.
    destruct (decide (key ∈ pendingRevalidations w)) as [Hin|]; [|lia].
    assert (0 < size (pendingRevalidations w))%nat; [|lia].
    rewrite (union_difference_singleton_L key _ Hin), size_union by set_solver.
    rewrite size_singleton. lia. }
  unfold getStats, bind, reads, ret.
  destruct (lsStatus w); simpl;
    (split; [done|]; split; [done|]; split; [done|];
     unfold bounded, Map_size in Hb; lia).
Qed.

(** X9, on a run: two keys are refreshed in the background; one fetch has
    resolved and waits for [set], the other is in flight, and the count
    is 2. *)
Example getStats_counts_run :
  let w := run [CallSet "a" (JNum 1) (Some 10); CallSet "b" (JNum 2) (Some 10);
                Tick 9; CallSWR "a" (mkOptions None false);
                CallSWR "b" (mkOptions None false); CallSWR "a" (mkOptions None false);
                Settle 0 (Resolves (JNum 3))]
               (freshWorld 1000 Available ∅) in
  pendingRevalidationsCount (fst (getStats w)) = 2%nat /\
  inflight w = [Revalidating "b" 300000 false; Storing "a" (JNum 3) false].
Proof. vm_compute. split; reflexivity. Qed.

(** *** Preloading *)

Lemma set_available key d ttl w :
  lsStatus w = Available ->
  jsonValue d ->
  let w' := snd (set key d ttl w) in
  lsStatus w' = Available /\ clock w' = clock w /\
  localStorage w' =
    <[getCacheKey key := Json (mkWrapped d (clock w) (effectiveTtl ttl))]>
      (localStorage w).
Proof.
  intros Hst Hj. cbv zeta. rewrite set_run. cbv zeta.
  rewrite (stringify_jsonValue _ _ _ Hj), Hst.
  pose proof (setCacheAPI_frame key (mkWrapped d (clock w) (effectiveTtl ttl))
    (withLocalStorage
       (<[getCacheKey key:=Json (mkWrapped d (clock w) (effectiveTtl ttl))]>
          (localStorage w)) w)) as F.
  cbv zeta in F. destruct F as (Hc & Hst' & Hls & _).
  simpl snd. rewrite Hc, Hst', Hls. by simpl.
Qed.

Lemma preload_available items : forall w,
  lsStatus w = Available ->
  Forall (fun item => jsonValue (item_data item)) items ->
  let w' := snd (preload items w) in
  lsStatus w' = Available /\ clock w' = clock w /\
  (forall key, key ∉ map item_key items ->
     localStorage w' !! getCacheKey key = localStorage w !! getCacheKey key).
Proof.
  induction items as [|item items IH]; intros w Hst Hall; cbv zeta; simpl.
  - done.
  - inversion Hall as [|? ? Hj Hrest]; subst.
    pose proof (set_available (item_key item) (item_data item)
                  (Some (preloadTtl item)) w Hst Hj) as F.
    cbv zeta in F. unfold preloadTtl in F.
    unfold bind. destruct (set _ _ _ w) as [b w1]. simpl in F.
    destruct F as (Hst1 & Hc1 & Hls1).
    destruct (IH w1 Hst1 Hrest) as (Hst2 & Hc2 & Hls2).
    split; [done|]. split; [congruence|].
    intros key Hn. apply not_elem_of_cons in Hn as [Hne Hn].
    rewrite (Hls2 key Hn), Hls1.
    apply lookup_insert_ne. intros Heq. by apply getCacheKey_inj in Heq.
Qed.

(** X10.  With the persistent tier available and a clock that is not 0,
    [preload] makes every item readable: when the keys of the items are
    pairwise different, the values are ones JSON carries and no TTL is
    negative, [get] of each item's key returns its data right after the
    call. *)
Theorem preload_then_get (items : list PreloadItem) (w : World) :
  lsStatus w = Available ->
  clock w <> 0 ->
  NoDup (map item_key items) ->
  Forall (fun item => jsonValue (item_data item) /\ 0 <= preloadTtl item) items ->
  forall item, item ∈ items ->
    fst (get (item_key item) (snd (preload items w))) = item_data item.
Proof.
  revert w. induction items as [|first items IH]; intros w Hst Hc Hnd Hall item Hin.
  - by apply elem_of_nil in Hin.
  - inversion Hall as [|? ? [Hj Httl] Hrest]; subst.
    apply NoDup_cons in Hnd as [Hfresh Hnd].
    assert (Forall (fun item => jsonValue (item_data item)) items) as Hjs.
    { eapply Forall_impl; [exact Hrest|]. by intros ? [? _]. }
    pose proof (set_available (item_key first) (item_data first)
                  (Some (preloadTtl first)) w Hst Hj) as F.
    cbv zeta in F. unfold preloadTtl in F.
    simpl. unfold bind. destruct (set _ _ _ w) as [b w1] eqn:Eset. simpl in F.
    destruct F as (Hst1 & Hc1 & Hls1).
    apply elem_of_cons in Hin as [->|Hin].
    + pose proof (preload_available items w1 Hst1 Hjs) as P. cbv zeta in P.
      destruct P as (Hst2 & Hc2 & Hls2).
      rewrite get_run, cachedEntry_eq. unfold persisted.
      rewrite Hst2, (Hls2 _ Hfresh), Hls1, lookup_insert_eq. simpl.
      unfold expiredAt. simpl. rewrite Hc2, Hc1.
      destruct (clock w =? 0) eqn:E0; [apply Z.eqb_eq in E0; lia|].
      replace (clock w - clock w) with 0 by lia.
      assert ((effectiveTtl
                 (Some (match item_ttl first with
                        | Some 0 | None => DEFAULT_TTL
                        | Some t => t
                        end)) <? 0) = false) as ->; [|done].
      apply Z.ltb_ge. unfold effectiveTtl, preloadTtl in *. simpl.
      destruct (_ =? 0); [vm_compute; congruence | done].
    + apply (IH w1); try done. by rewrite Hc1.
Qed.

Lemma preload_then_get_witness :
  let w := freshWorld 1000 Available ∅ in
  let items := [mkItem "stars" (JNum 100) (Some 5000); mkItem "agents" (JNum 7) None] in
  (lsStatus w = Available /\ clock w <> 0 /\ NoDup (map item_key items) /\
   Forall (fun item => jsonValue (item_data item) /\ 0 <= preloadTtl item) items) /\
  fst (get "agents" (snd (preload items w))) = JNum 7.
Proof.
  cbv zeta.
  assert (clock (freshWorld 1000 Available ∅) <> 0) as H2 by (simpl; lia).
  assert (NoDup (map item_key
            [mkItem "stars" (JNum 100) (Some 5000); mkItem "agents" (JNum 7) None])) as H3.
  { simpl. repeat constructor; set_solver. }
  assert (Forall (fun item => jsonValue (item_data item) /\ 0 <= preloadTtl item)
            [mkItem "stars" (JNum 100) (Some 5000); mkItem "agents" (JNum 7) None]) as H4.
  { repeat constructor; vm_compute; congruence. }
  split; [repeat split; done|].
  apply (preload_then_get _ (freshWorld 1000 Available ∅) eq_refl H2 H3 H4
           (mkItem "agents" (JNum 7) None)).
  set_solver.
Defined.

(** *** The refresh cycle *)

Lemma lookup_last_added (ts : list Task) t : (ts ++ [t]) !! length ts = Some t.
Proof. induction ts as [|t0 ts IH]; simpl; [done|]. exact IH. Qed.

Lemma delete_last_added (ts : list Task) t : delete (length ts) (ts ++ [t]) = ts.
Proof. induction ts as [|t0 ts IH]; simpl; [done|]. by f_equal. Qed.

(** A read that finds the entry stale and not expired, of a key that is
    not pending, puts one refresh in flight, as the last of the suspended
    functions. *)
Lemma stale_read_starts_refresh key options e w :
  cachedEntry w key = Some e ->
  readAsStale e (clock w) ->
  key ∉ pendingRevalidations w ->
  getStaleWhileRevalidate key options w =
  (Returned (data e),
   withInflight
     (inflight w ++ [Revalidating key (default DEFAULT_TTL (opt_ttl options))
                       (opt_onUpdate options)])
     (withPending ({[key]} ∪ pendingRevalidations w) w)).
Proof.
  intros He [Hx Hs] Hp. rewrite getStaleWhileRevalidate_run. cbv zeta.
  rewrite He, Hx, Hs, revalidateInBackground_run. simpl.
  by rewrite decide_False by done.
Qed.

(** X11.  A refresh that succeeds writes through, and holds the guard
    until it has.  A read finds the entry stale and not expired (by the
    tests of the code) while the key is not pending: it returns the old
    data and starts the refresh.  When the [fetchFn] call resolves at time
    [t2] with a value JSON carries and the persistent tier is available,
    the key resolves to the fresh value stamped [t2] at once, while the
    refresh waits for [set]: no call is in flight, the key is still
    pending and [onUpdate] has not been called.  When the refresh resumes,
    [onUpdate] is called with the fresh value if a callback was given and
    the key is pending no more; a read in the fresh window of the new
    entry returns the fresh value and starts nothing. *)
Theorem refresh_writes_through (key : string) (options : Options) (e : Wrapped)
    (fresh : JSValue) (w : World) (t2 t3 t4 : Z) :
  cachedEntry w key = Some e ->
  readAsStale e (clock w) ->
  key ∉ pendingRevalidations w ->
  lsStatus w = Available ->
  jsonValue fresh ->
  let ttl := default DEFAULT_TTL (opt_ttl options) in
  let renewed := mkWrapped fresh t2 (effectiveTtl (Some ttl)) in
  inFreshWindow renewed t4 ->
  let w1 := snd (getStaleWhileRevalidate key options w) in
  let w2 := step (Settle (length (inflight w)) (Resolves fresh)) (withClock t2 w1) in
  let w3 := step (Resume (length (inflight w))) (withClock t3 w2) in
  (fst (getStaleWhileRevalidate key options w) = Returned (data e) /\
   inflight w1 = inflight w ++ [Revalidating key ttl (opt_onUpdate options)]) /\
  (cachedEntry w2 key = Some renewed /\
   key ∈ pendingRevalidations w2 /\
   inflight w2 = inflight w ++ [Storing key fresh (opt_onUpdate options)] /\
   updates w2 = updates w) /\
  (cachedEntry w3 key = Some renewed /\
   updates w3 = (if opt_onUpdate options then (key, fresh) :: updates w
                 else updates w) /\
   (key ∉ pendingRevalidations w3) /\
   inflight w3 = inflight w) /\
  getStaleWhileRevalidate key options (withClock t4 w3) =
  (Returned fresh, withClock t4 w3).
Proof.
  intros He Hst Hp Hls Hj. cbv zeta. intros Hfresh.
  rewrite (stale_read_starts_refresh _ _ _ _ He Hst Hp).
  split; [done|].
  cbn [step snd inflight withClock withInflight withPending].
  rewrite lookup_last_added, delete_last_added.
  unfold settle, revalidate_settled.
  remember (withInflight (inflight w)
              (withClock t2
                 (withInflight
                    (inflight w ++
                     [Revalidating key (default DEFAULT_TTL (opt_ttl options))
                        (opt_onUpdate options)])
                    (withPending ({[key]} ∪ pendingRevalidations w) w)))) as w0 eqn:Ew0.
  assert (lsStatus w0 = Available) as Hst0 by (by subst w0).
  assert (updates w0 = updates w /\ inflight w0 = inflight w /\
          pendingRevalidations w0 = {[key]} ∪ pendingRevalidations w /\
          clock w0 = t2) as (Hu0 & Hi0 & Hp0 & Hc0)
    by (by subst w0).
  clear Ew0.
  pose proof (set_available key fresh
                (Some (default DEFAULT_TTL (opt_ttl options))) w0 Hst0 Hj) as F.
  pose proof (set_frame key fresh
                (Some (default DEFAULT_TTL (opt_ttl options))) w0) as G.
  pose proof (set_updates key fresh
                (Some (default DEFAULT_TTL (opt_ttl options))) w0) as Hu1.
  cbv zeta in F, G. unfold bind, reads, modify, ret.
  destruct (set key fresh _ w0) as [b w1]. simpl in F, G, Hu1.
  destruct F as (Hst1 & Hc1 & Hls1). destruct G as (_ & _ & Hp1 & Hi1).
  assert (forall wz, lsStatus wz = Available ->
            localStorage wz = localStorage w1 ->
            cachedEntry wz key =
            Some (mkWrapped fresh t2
                    (effectiveTtl (Some (default DEFAULT_TTL (opt_ttl options)))))) as Hentry.
  { intros wz Hz1 Hz2. rewrite cachedEntry_eq. unfold persisted.
    by rewrite Hz1, Hz2, Hls1, Hc0, lookup_insert_eq. }
  cbn [snd inflight withInflight].
  split.
  { split; [by apply Hentry|]. cbn. rewrite Hp1, Hp0, Hi1, Hi0, Hu1, Hu0.
    split; [set_solver|done]. }
  rewrite Hi1, Hi0, lookup_last_added, delete_last_added.
  rewrite revalidate_stored_frame.
  cbn [pendingRevalidations withInflight withClock]. rewrite Hp1, Hp0.
  assert (forall wz, lsStatus wz = Available ->
            localStorage wz = localStorage w1 ->
            getStaleWhileRevalidate key options (withClock t4 wz) =
            (Returned fresh, withClock t4 wz)) as Hread.
  { intros wz Hz1 Hz2.
    apply (fresh_read_run _ key options
             (mkWrapped fresh t2
                (effectiveTtl (Some (default DEFAULT_TTL (opt_ttl options))))));
      [by apply Hentry | done]. }
  destruct (opt_onUpdate options); cbn.
  - split; [|by apply Hread].
    split; [by apply Hentry|]. rewrite Hu1, Hu0.
    split; [done|]. split; [set_solver|done].
  - split; [|by apply Hread].
    split; [by apply Hentry|]. rewrite Hu1, Hu0.
    split; [done|]. split; [set_solver|done].
Qed.

(** X11, on a run: 7 is cached at time 1000 for 1000 ms, read stale at
    1900; the fetch resolves to 8 at 2000, the refresh resumes at 2001, and
    a read at 2500 returns 8 without a fetch. *)
Lemma refresh_writes_through_witness :
  let w := run [CallSet "stats" (JNum 7) (Some 1000); Tick 900]
               (freshWorld 1000 Available ∅) in
  let options := mkOptions (Some 1000) true in
  let e := mkWrapped (JNum 7) 1000 1000 in
  let w1 := snd (getStaleWhileRevalidate "stats" options w) in
  let w2 := step (Settle (length (inflight w)) (Resolves (JNum 8))) (withClock 2000 w1) in
  let w3 := step (Resume (length (inflight w))) (withClock 2001 w2) in
  (cachedEntry w "stats" = Some e /\
   readAsStale e (clock w) /\
   ("stats" ∉ pendingRevalidations w) /\ lsStatus w = Available /\
   jsonValue (JNum 8) /\
   inFreshWindow (mkWrapped (JNum 8) 2000 (effectiveTtl (Some 1000))) 2500) /\
  cachedEntry w2 "stats" = Some (mkWrapped (JNum 8) 2000 1000) /\
  "stats" ∈ pendingRevalidations w2 /\
  updates w3 = [("stats", JNum 8)] /\
  getStaleWhileRevalidate "stats" options (withClock 2500 w3) =
  (Returned (JNum 8), withClock 2500 w3).
Proof.
  cbv zeta.
  set (w := run [CallSet "stats" (JNum 7) (Some 1000); Tick 900]
                (freshWorld 1000 Available ∅)).
  assert (cachedEntry w "stats" = Some (mkWrapped (JNum 7) 1000 1000)) as H1
    by (vm_compute; reflexivity).
  assert (readAsStale (mkWrapped (JNum 7) 1000 1000) (clock w)) as H3
    by (split; vm_compute; reflexivity).
  assert ("stats" ∉ pendingRevalidations w) as H4 by (vm_compute; set_solver).
  assert (lsStatus w = Available) as H5 by reflexivity.
  assert (jsonValue (JNum 8)) as H6 by (split; reflexivity).
  assert (inFreshWindow (mkWrapped (JNum 8) 2000 (effectiveTtl (Some 1000))) 2500) as H7
    by (unfold inFreshWindow; vm_compute; repeat split; congruence).
  split; [exact (conj H1 (conj H3 (conj H4 (conj H5 (conj H6 H7)))))|].
  destruct (refresh_writes_through "stats" (mkOptions (Some 1000) true) _ (JNum 8)
              w 2000 2001 2500 H1 H3 H4 H5 H6 H7)
    as (_ & (R1 & R2 & _) & (_ & R3 & _) & R4).
  split; [exact R1|]. split; [exact R2|]. split; [exact R3|]. exact R4.
Defined.

(** X12.  A refresh that fails changes nothing but the guard.  A read
    finds the entry stale and not expired (by the tests of the code) while
    the key is not pending, and the [fetchFn] call it started rejects:
    both tiers are as they were and the key resolves to the old entry,
    [onUpdate] has not been called, and the key is pending no more, so
    that the next read that finds the entry stale returns the old data
    again and starts a new refresh. *)
Theorem refresh_failure_keeps_entry (key : string) (options : Options)
    (e : Wrapped) (err : JSValue) (w : World) (t2 t3 : Z) :
  cachedEntry w key = Some e ->
  readAsStale e (clock w) ->
  key ∉ pendingRevalidations w ->
  readAsStale e t3 ->
  let task := Revalidating key (default DEFAULT_TTL (opt_ttl options))
                (opt_onUpdate options) in
  let w1 := snd (getStaleWhileRevalidate key options w) in
  let w2 := step (Settle (length (inflight w)) (Rejects err)) (withClock t2 w1) in
  let w3 := snd (getStaleWhileRevalidate key options (withClock t3 w2)) in
  inflight w1 = inflight w ++ [task] /\
  localStorage w2 = localStorage w /\ memoryCache w2 = memoryCache w /\
  cachedEntry w2 key = Some e /\
  updates w2 = updates w /\
  pendingRevalidations w2 = pendingRevalidations w /\
  inflight w2 = inflight w /\
  fst (getStaleWhileRevalidate key options (withClock t3 w2)) = Returned (data e) /\
  inflight w3 = inflight w ++ [task].
Proof.
  intros He Hst Hp Hst3. cbv zeta.
  rewrite (stale_read_starts_refresh _ _ _ _ He Hst Hp).
  cbn [step snd inflight withClock withInflight withPending].
  rewrite lookup_last_added, delete_last_added.
  unfold settle, revalidate_settled, bind, reads, modify, ret.
  cbn [snd pendingRevalidations withInflight withClock withPending].
  assert (({[key]} ∪ pendingRevalidations w) ∖ {[key]} = pendingRevalidations w) as ->
    by set_solver.
  set (w2 := withPending _ _).
  assert (cachedEntry w2 key = Some e) as He2.
  { rewrite <- He. by apply cachedEntry_ext. }
  repeat (split; [done|]).
  assert (cachedEntry (withClock t3 w2) key = Some e) as He3.
  { rewrite <- He. by apply cachedEntry_ext. }
  rewrite (stale_read_starts_refresh key options e (withClock t3 w2) He3 Hst3 Hp).
  done.
Qed.

Lemma refresh_failure_keeps_entry_witness :
  let w := run [CallSet "stats" (JNum 7) (Some 1000); Tick 900]
               (freshWorld 1000 Available ∅) in
  let options := mkOptions (Some 1000) true in
  let e := mkWrapped (JNum 7) 1000 1000 in
  let w1 := snd (getStaleWhileRevalidate "stats" options w) in
  let w2 := step (Settle (length (inflight w)) (Rejects (JStr "offline")))
                 (withClock 1950 w1) in
  (cachedEntry w "stats" = Some e /\
   readAsStale e (clock w) /\
   ("stats" ∉ pendingRevalidations w) /\ readAsStale e 1990) /\
  cachedEntry w2 "stats" = Some e /\ updates w2 = [] /\
  fst (getStaleWhileRevalidate "stats" options (withClock 1990 w2)) = Returned (JNum 7).
Proof.
  cbv zeta.
  set (w := run [CallSet "stats" (JNum 7) (Some 1000); Tick 900]
                (freshWorld 1000 Available ∅)).
  assert (cachedEntry w "stats" = Some (mkWrapped (JNum 7) 1000 1000)) as H1
    by (vm_compute; reflexivity).
  assert (readAsStale (mkWrapped (JNum 7) 1000 1000) (clock w)) as H3
    by (split; vm_compute; reflexivity).
  assert ("stats" ∉ pendingRevalidations w) as H4 by (vm_compute; set_solver).
  assert (readAsStale (mkWrapped (JNum 7) 1000 1000) 1990) as H5
    by (split; vm_compute; reflexivity).
  split; [exact (conj H1 (conj H3 (conj H4 H5)))|].
  destruct (refresh_failure_keeps_entry "stats" (mkOptions (Some 1000) true) _
              (JStr "offline") w 1950 1990 H1 H3 H4 H5)
    as (_ & _ & _ & R4 & R5 & _ & _ & R8 & _).
  split; [exact R4|]. split; [exact R5|]. exact R8.
Defined.

(** *** Hits of [getAsync], and the path of a miss *)

(** X23.  When [get] finds a value other than [null], [getAsync] is
    [get]: it returns the same value, does not consult the Cache API and
    changes nothing. *)
Theorem getAsync_hit_is_get (key : string) (w : World) :
  fst (get key w) <> JNull ->
  getAsync key w = (fst (get key w), w).
Proof.
  intros Hhit. unfold getAsync. erewrite bind_run by apply get_run.
  rewrite get_run in Hhit |- *. cbn [fst] in Hhit |- *.
  by destruct (match cachedEntry w key with
               | Some e => if expiredAt (clock w) e then JNull else data e
               | None => JNull
               end).
Qed.

Lemma getAsync_hit_is_get_witness :
  let w := run [CallSet "stats" (JNum 7) (Some 1000); CacheAPIChanges false;
                Tick 500]
               (freshWorld 1000 Available ∅) in
  fst (get "stats" w) <> JNull /\
  getAsync "stats" w = (JNum 7, w).
Proof.
  cbv zeta.
  assert (fst (get "stats"
                 (run [CallSet "stats" (JNum 7) (Some 1000); CacheAPIChanges false;
                       Tick 500]
                      (freshWorld 1000 Available ∅))) <> JNull) as H
    by (vm_compute; discriminate).
  split; [done|].
  exact (getAsync_hit_is_get "stats"
           (run [CallSet "stats" (JNum 7) (Some 1000); CacheAPIChanges false;
                 Tick 500]
                (freshWorld 1000 Available ∅)) H).
Defined.

Lemma cachedEntry_withInflight ts w key :
  cachedEntry (withInflight ts w) key = cachedEntry w key.
Proof. by rewrite !cachedEntry_eq. Qed.

(** X24.  A miss is fetched by every caller and stored when it arrives.
    For a key that no tier resolves, [getStaleWhileRevalidate] calls
    [fetchFn] and makes the caller wait, without marking the key pending:
    a second call before the first fetch settles calls [fetchFn] again.
    When the fetch resolves at time [t2] with a value JSON carries and the
    persistent tier is available, the caller gets the fresh value, the key
    resolves to it stamped [t2], and the call is no longer in flight. *)
Theorem miss_fetches_and_stores (key : string) (options : Options)
    (fresh : JSValue) (w : World) (t2 : Z) :
  cachedEntry w key = None ->
  lsStatus w = Available ->
  jsonValue fresh ->
  let ttl := default DEFAULT_TTL (opt_ttl options) in
  let w1 := snd (getStaleWhileRevalidate key options w) in
  let w2 := step (Settle (length (inflight w)) (Resolves fresh)) (withClock t2 w1) in
  fst (getStaleWhileRevalidate key options w) = Awaiting key ttl None /\
  inflight w1 = inflight w ++ [Fetching key ttl None] /\
  pendingRevalidations w1 = pendingRevalidations w /\
  inflight (snd (getStaleWhileRevalidate key options w1))
    = inflight w ++ [Fetching key ttl None; Fetching key ttl None] /\
  fst (fetch_settled key ttl None (Resolves fresh)
         (withInflight (inflight w) (withClock t2 w1))) = Resolved fresh /\
  cachedEntry w2 key = Some (mkWrapped fresh t2 (effectiveTtl (Some ttl))) /\
  inflight w2 = inflight w.
Proof.
  intros Hmiss Hst Hj. cbv zeta.
  rewrite getStaleWhileRevalidate_run. cbv zeta. rewrite Hmiss. cbn [fst snd].
  split; [done|]. split; [done|]. split; [done|]. split.
  { rewrite getStaleWhileRevalidate_run. cbv zeta.
    rewrite cachedEntry_withInflight, Hmiss. cbn [snd].
    cbn [inflight withInflight]. by rewrite <- app_assoc. }
  cbn [step]. cbn [inflight withClock withInflight].
  rewrite lookup_last_added, delete_last_added.
  unfold settle, fetch_settled.
  remember (withInflight (inflight w)
              (withClock t2
                 (withInflight
                    (inflight w ++
                     [Fetching key (default DEFAULT_TTL (opt_ttl options)) None])
                    w))) as w0 eqn:Ew0.
  assert (lsStatus w0 = Available) as Hst0 by (by subst w0).
  assert (inflight w0 = inflight w /\ clock w0 = t2) as (Hi0 & Hc0)
    by (by subst w0).
  clear Ew0.
  pose proof (set_available key fresh
                (Some (default DEFAULT_TTL (opt_ttl options))) w0 Hst0 Hj) as F.
  pose proof (set_frame key fresh
                (Some (default DEFAULT_TTL (opt_ttl options))) w0) as G.
  cbv zeta in F, G. unfold bind, ret.
  destruct (set key fresh _ w0) as [b w1]. cbn [fst snd] in F, G |- *.
  destruct F as (Hst1 & Hc1 & Hls1). destruct G as (_ & _ & Hp1 & Hi1).
  split; [done|]. split; [|by rewrite Hi1].
  rewrite cachedEntry_eq. unfold persisted.
  by rewrite Hst1, Hls1, Hc0, lookup_insert_eq.
Qed.

Lemma miss_fetches_and_stores_witness :
  let w := freshWorld 1000 Available ∅ in
  let options := mkOptions (Some 1000) false in
  let w1 := snd (getStaleWhileRevalidate "stats" options w) in
  let w2 := step (Settle (length (inflight w)) (Resolves (JNum 8))) (withClock 2000 w1) in
  (cachedEntry w "stats" = None /\ lsStatus w = Available /\ jsonValue (JNum 8)) /\
  fst (getStaleWhileRevalidate "stats" options w) = Awaiting "stats" 1000 None /\
  cachedEntry w2 "stats" = Some (mkWrapped (JNum 8) 2000 1000).
Proof.
  cbv zeta.
  assert (cachedEntry (freshWorld 1000 Available ∅) "stats" = None) as H1
    by (vm_compute; reflexivity).
  assert (lsStatus (freshWorld 1000 Available ∅) = Available) as H2 by reflexivity.
  assert (jsonValue (JNum 8)) as H3 by (split; reflexivity).
  split; [done|].
  destruct (miss_fetches_and_stores "stats" (mkOptions (Some 1000) false) (JNum 8)
              (freshWorld 1000 Available ∅) 2000 H1 H2 H3)
    as (R1 & _ & _ & _ & _ & R6 & _).
  split; [exact R1 | exact R6].
Defined.

(** ** The in-memory tier, the answer of [set], and a TTL of 0 *)

Lemma Map_set_absent k v m :
  Map_get k m = None -> Map_set k v m = m ++ [(k, v)].
Proof.
  induction m as [|[k0 v0] m IH]; simpl; [done|].
  destruct (String.eqb k0 k); [done|]. intros H. by rewrite IH.
Qed.

Lemma Map_set_present k v m :
  Map_get k m <> None -> map fst (Map_set k v m) = map fst m.
Proof.
  induction m as [|[k0 v0] m IH]; simpl; [done|].
  destruct (String.eqb k0 k); [done|]. intros H. simpl. by rewrite IH.
Qed.

Lemma pageLoad_invariants now st ls has works cache :
  bounded (pageLoad now st ls has works cache) /\
  coalesced (pageLoad now st ls has works cache) /\
  uniqueKeys (memoryCache (pageLoad now st ls has works cache)).
Proof.
  split; [unfold bounded, Map_size; simpl; lia|]. split.
  - intros key. simpl. by rewrite decide_False by set_solver.
  - apply NoDup_nil_2.
Qed.

(** C7.  The in-memory tier never holds more than 100 entries, and what
    [setMemoryCache] drops is the earliest inserted entry.  In every state
    a page reaches after a load the tier holds at most 100 entries, and
    after [setMemoryCache] it holds the new entry under its key and again
    at most 100 entries.  A key that was not there goes last; if the tier
    was full, exactly one entry goes, the first of the map, and all others
    keep their places.  A key that was there keeps its place, and so does
    every other entry: a write does not move a key to the back, and
    neither does a read, which leaves the map as it is, so the order is
    the order of first insertion and not of use.  Every further event of
    the event loop keeps the bound. *)
Theorem memory_tier_bounded (events : list Event) (now : Z)
    (st : StorageStatus) (ls : gmap string Serialized) (has works : bool)
    (cache : gmap string Wrapped) (key : string) (e : Wrapped) :
  let w := run events (pageLoad now st ls has works cache) in
  let k := getCacheKey key in
  let m := memoryCache w in
  let m' := memoryCache (snd (setMemoryCache key e w)) in
  Map_size m <= 100 /\
  Map_get k m' = Some e /\
  Map_size m' <= 100 /\
  (Map_get k m = None -> Map_size m < 100 -> m' = m ++ [(k, e)]) /\
  (Map_get k m = None -> Map_size m = 100 ->
     exists oldest rest, m = oldest :: rest /\ m' = rest ++ [(k, e)]) /\
  (Map_get k m <> None ->
     map fst m' = map fst m /\
     forall k', k' <> k -> Map_get k' m' = Map_get k' m) /\
  (forall key', memoryCache (snd (get key' w)) = m) /\
  (forall more, bounded (run more (snd (setMemoryCache key e w)))).
Proof.
  cbv zeta.
  assert (bounded (run events (pageLoad now st ls has works cache))) as Hb.
  { apply run_invariants_bounded. apply pageLoad_invariants. }
  revert Hb. generalize (run events (pageLoad now st ls has works cache)).
  intros w Hb. split; [exact Hb|].
  rewrite setMemoryCache_world.
  cbn [memoryCache withMemoryCache].
  split; [by apply afterSetMemory_get|].
  split; [by apply afterSetMemory_bound|].
  unfold bounded in Hb. unfold afterSetMemory, Map_size in *.
  split; [|split; [|split; [|split]]].
  - intros Habs Hlt. rewrite (Map_set_absent _ _ _ Habs).
    rewrite length_app. simpl.
    destruct (Z.ltb_spec 100 (Z.of_nat (length (memoryCache w) + 1))); [lia|done].
  - intros Habs Hfull. rewrite (Map_set_absent _ _ _ Habs).
    rewrite length_app. simpl.
    destruct (Z.ltb_spec 100 (Z.of_nat (length (memoryCache w) + 1))); [|lia].
    destruct (memoryCache w) as [|[k0 v0] rest]; simpl in *; [lia|].
    exists (k0, v0), rest. split; [done|]. by rewrite String.eqb_refl.
  - intros Hpres.
    pose proof (Map_set_present (getCacheKey key) e _ Hpres) as Hkeys.
    assert (length (Map_set (getCacheKey key) e (memoryCache w))
            = length (memoryCache w)) as Hlen.
    { apply (f_equal (@length _)) in Hkeys. by rewrite !length_map in Hkeys. }
    rewrite Hlen.
    destruct (Z.ltb_spec 100 (Z.of_nat (length (memoryCache w)))); [lia|].
    split; [done|]. intros k' Hne. by apply Map_get_set_ne.
  - intros key'. by rewrite get_run.
  - intros more. apply run_invariants_bounded. unfold bounded.
    cbn [memoryCache withMemoryCache]. by apply afterSetMemory_bound.
Qed.

(** C7, at capacity: a page without usable storage has written 100 keys;
    the 101st write drops the first of them and goes last. *)
Lemma memory_tier_bounded_witness :
  let w := run (writes 100) (pageLoad 1000 Disabled ∅ true true ∅) in
  let e := mkWrapped (JStr "new") 2000 5000 in
  let m' := memoryCache (snd (setMemoryCache "new" e w)) in
  (Map_size (memoryCache w) = 100 /\
   Map_get (getCacheKey "new") (memoryCache w) = None) /\
  Map_firstKey (memoryCache w) = Some (getCacheKey (String (ascii_of_nat 0) "")) /\
  Map_get (getCacheKey "new") m' = Some e /\
  (exists oldest rest,
     memoryCache w = oldest :: rest /\ m' = rest ++ [(getCacheKey "new", e)]) /\
  Map_get (getCacheKey (String (ascii_of_nat 0) "")) m' = None /\
  Map_size m' = 100.
Proof.
  cbv zeta.
  set (w := run (writes 100) (pageLoad 1000 Disabled ∅ true true ∅)).
  assert (Map_size (memoryCache w) = 100) as H2 by (vm_compute; reflexivity).
  assert (Map_get (getCacheKey "new") (memoryCache w) = None) as H3
    by (vm_compute; reflexivity).
  split; [exact (conj H2 H3)|].
  split; [vm_compute; reflexivity|].
  destruct (memory_tier_bounded (writes 100) 1000 Disabled ∅ true true ∅
              "new" (mkWrapped (JStr "new") 2000 5000))
    as (_ & R1 & _ & _ & R4 & _).
  split; [exact R1|]. split; [exact (R4 H3 H2)|].
  split; vm_compute; reflexivity.
Defined.

(** C9.  [set] resolves to [true] for every key, value and TTL, in every
    state a page reaches after a load.  When the persistent tier takes the
    write the entry is there and the in-memory tier is untouched.  When it
    refuses (quota, disabled storage, a value [JSON.stringify] rejects)
    the persistent tier is untouched and the entry is in the in-memory
    tier, from where [getMemoryCache] gives it back; the answer is [true]
    all the same, so it does not tell the tiers apart. *)
Theorem set_always_resolves_true (events : list Event) (now : Z)
    (st : StorageStatus) (ls : gmap string Serialized) (has works : bool)
    (cache : gmap string Wrapped) (key : string) (d : JSValue)
    (ttl : option Z) :
  let w := run events (pageLoad now st ls has works cache) in
  let wrapped := fst (wrapData d (default DEFAULT_TTL ttl) w) in
  let w' := snd (set key d ttl w) in
  fst (set key d ttl w) = true /\
  (if fst (setLocalStorage key wrapped w)
   then Some <$> (localStorage w' !! getCacheKey key) = Some (JSON_stringify wrapped) /\
        memoryCache w' = memoryCache w
   else localStorage w' = localStorage w /\
        fst (getMemoryCache key w') = Some wrapped /\
        Map_size (memoryCache w') <= 100).
Proof.
  cbv zeta.
  assert (bounded (run events (pageLoad now st ls has works cache))) as Hb.
  { apply run_invariants_bounded. apply pageLoad_invariants. }
  revert Hb. generalize (run events (pageLoad now st ls has works cache)).
  intros w Hb.
  rewrite wrapData_run. simpl fst.
  split; [by rewrite set_run; cbv zeta; destruct (JSON_stringify _), (lsStatus w)|].
  destruct (fst (setLocalStorage key (mkWrapped d (clock w) (effectiveTtl ttl)) w))
    eqn:Estored.
  - rewrite set_run. cbv zeta. unfold setLocalStorage in Estored.
    destruct (JSON_stringify _) as [s|] eqn:Es; [|done].
    unfold localStorage_setItem, bind, reads, modify, ret in Estored.
    destruct (lsStatus w) eqn:Est; simpl in Estored; [|done..].
    pose proof (setCacheAPI_frame key (mkWrapped d (clock w) (effectiveTtl ttl))
      (withLocalStorage (<[getCacheKey key:=s]> (localStorage w)) w)) as F.
    cbv zeta in F. destruct F as (_ & _ & Hls & Hm & _).
    simpl snd. rewrite Hls, Hm. simpl. by rewrite lookup_insert_eq.
  - rewrite (set_refused _ _ _ _ Estored), setMemoryCache_world.
    split; [done|]. unfold getMemoryCache, bind, reads, ret.
    cbn [fst memoryCache withMemoryCache].
    split; [by apply afterSetMemory_get | by apply afterSetMemory_bound].
Qed.

(** C9, on a run: the storage is full, [set] answers [true], the entry is
    in the in-memory tier and [get] returns the value. *)
Lemma set_always_resolves_true_witness :
  let w := run [StorageChanges QuotaExceeded] (pageLoad 1000 Available ∅ true true ∅) in
  let w' := snd (set "k" (JNum 5) (Some 1000) w) in
  fst (setLocalStorage "k" (mkWrapped (JNum 5) 1000 1000) w) = false /\
  fst (set "k" (JNum 5) (Some 1000) w) = true /\
  fst (getMemoryCache "k" w') = Some (mkWrapped (JNum 5) 1000 1000) /\
  fst (get "k" w') = JNum 5.
Proof.
  cbv zeta.
  set (w := run [StorageChanges QuotaExceeded] (pageLoad 1000 Available ∅ true true ∅)).
  pose proof (set_always_resolves_true [StorageChanges QuotaExceeded]
                1000 Available ∅ true true ∅ "k" (JNum 5) (Some 1000)) as H.
  cbv zeta in H. fold w in H. destruct H as [Htrue Hrest].
  change (fst (wrapData (JNum 5) (default DEFAULT_TTL (Some 1000)) w))
    with (mkWrapped (JNum 5) 1000 1000) in Hrest.
  assert (fst (setLocalStorage "k" (mkWrapped (JNum 5) 1000 1000) w) = false) as Hf
    by reflexivity.
  rewrite Hf in Hrest. destruct Hrest as (_ & Hmem & _).
  split; [exact Hf|]. split; [exact Htrue|].
  split; [exact Hmem|]. vm_compute. reflexivity.
Defined.

(** C10, as stated, fails in three ways, each with a TTL of 0.  A value
    that JSON does not carry comes back changed: an array holding
    [undefined] is read back as an array holding [null].  At the instant
    [Date.now() = 0] the entry gets the timestamp 0, which [isExpired]
    takes for no timestamp: the entry is expired at once and [get] returns
    [null].  And when the persistent tier refuses the write and holds an
    older entry of the key, [get] returns the older value. *)
Lemma set_zero_ttl_counterexample :
  (let w := freshWorld 1000 Available ∅ in
   let value := JArr [JUndefined] in
   fst (get "k" (snd (set "k" value (Some 0) w))) = JArr [JNull] /\
   JArr [JNull] <> value) /\
  (let w := freshWorld 0 Available ∅ in
   jsonValue (JNum 5) /\
   cachedEntry (snd (set "k" (JNum 5) (Some 0) w)) "k"
     = Some (mkWrapped (JNum 5) 0 300000) /\
   fst (get "k" (snd (set "k" (JNum 5) (Some 0) w))) = JNull) /\
  (let w := run [CallSet "k" (JNum 1) (Some 60000); StorageChanges QuotaExceeded]
                (freshWorld 1000 Available ∅) in
   jsonValue (JNum 2) /\
   fst (get "k" (snd (set "k" (JNum 2) (Some 0) w))) = JNum 1).
Proof.
  split; [split; [vm_compute; reflexivity | congruence]|].
  split; vm_compute; repeat split; reflexivity.
Qed.

(** C10, amended.  A TTL argument of 0 is replaced by the default of
    300000 ms.  In every state a page reaches after a load, at any time
    but [Date.now() = 0], for every key and every value that survives JSON
    unchanged, when the write is not shadowed by the persistent tier (it
    takes the write, or holds no readable entry for the key):
    [set(key, value, 0)] leaves the key resolving to the entry with that
    value, the time of the write and a TTL of 300000, and [get] returns
    the value from then until 300000 ms later. *)
Theorem set_zero_ttl_uses_default (events : list Event) (now : Z)
    (st : StorageStatus) (ls : gmap string Serialized) (has works : bool)
    (cache : gmap string Wrapped) (key : string) (d : JSValue) (t : Z) :
  let w := run events (pageLoad now st ls has works cache) in
  clock w <> 0 ->
  jsonValue d ->
  (fst (setLocalStorage key (mkWrapped d (clock w) 300000) w) = true
   \/ fst (getLocalStorage key w) = None) ->
  t - clock w <= 300000 ->
  let w' := withClock t (snd (set key d (Some 0) w)) in
  cachedEntry w' key = Some (mkWrapped d (clock w) 300000) /\
  fst (get key w') = d.
Proof.
  cbv zeta. intros Hc Hj Hns Ht.
  destruct (pageLoad_invariants now st ls has works cache) as (Hb0 & Hc0 & _).
  destruct (run_invariants events _ Hb0 Hc0) as [Hb _].
  change 300000 with (effectiveTtl (Some 0)) in *.
  split.
  - by apply cachedEntry_after_set.
  - by apply set_then_get.
Qed.

(** C10, on a run: [set("k", 5, 0)] on a page that has written another key,
    read at once and 300000 ms later. *)
Lemma set_zero_ttl_uses_default_witness :
  let w := run [CallSet "j" (JNum 1) None; Tick 10] (pageLoad 1000 Available ∅ true true ∅) in
  let w' := snd (set "k" (JNum 5) (Some 0) w) in
  (clock w <> 0 /\ jsonValue (JNum 5) /\
   (fst (setLocalStorage "k" (mkWrapped (JNum 5) (clock w) 300000) w) = true
    \/ fst (getLocalStorage "k" w) = None)) /\
  cachedEntry (withClock 1010 w') "k" = Some (mkWrapped (JNum 5) 1010 300000) /\
  fst (get "k" (withClock 1010 w')) = JNum 5 /\
  fst (get "k" (withClock 301010 w')) = JNum 5.
Proof.
  cbv zeta.
  set (w := run [CallSet "j" (JNum 1) None; Tick 10]
                (pageLoad 1000 Available ∅ true true ∅)).
  assert (clock w <> 0) as H1 by (vm_compute; congruence).
  assert (jsonValue (JNum 5)) as H2 by (split; reflexivity).
  assert (fst (setLocalStorage "k" (mkWrapped (JNum 5) (clock w) 300000) w) = true
          \/ fst (getLocalStorage "k" w) = None) as H3 by (left; reflexivity).
  split; [exact (conj H1 (conj H2 H3))|].
  assert (1010 - clock w <= 300000) as H4 by (vm_compute; congruence).
  assert (301010 - clock w <= 300000) as H5 by (vm_compute; congruence).
  destruct (set_zero_ttl_uses_default
              [CallSet "j" (JNum 1) None; Tick 10] 1000 Available ∅ true true ∅
              "k" (JNum 5) 1010 H1 H2 H3 H4) as [R1 R2].
  destruct (set_zero_ttl_uses_default
              [CallSet "j" (JNum 1) None; Tick 10] 1000 Available ∅ true true ∅
              "k" (JNum 5) 301010 H1 H2 H3 H5) as [_ R3].
  split; [exact R1|]. split; [exact R2|exact R3].
Defined.

(** ** Expiry, and what can undo it *)











End StorageFacts.

(** * Properties of the search scoring *)

Module SearchFacts.
Import SearchService.

(** *** Code units *)

Ltac by_cases_on_code_unit c :=
  destruct c as [[] [] [] [] [] [] [] []]; vm_compute; try reflexivity; try discriminate.

Lemma toLowerChar_idempotent c : toLowerChar (toLowerChar c) = toLowerChar c.
Proof. by_cases_on_code_unit c. Qed.

Lemma isWordChar_lower c : isWordChar (toLowerChar c) = isWordChar c.
Proof. by_cases_on_code_unit c. Qed.

Lemma isWhitespace_lower c : isWhitespace (toLowerChar c) = isWhitespace c.
Proof. by_cases_on_code_unit c. Qed.

Lemma whitespace_not_word c : isWhitespace c = true -> isWordChar c = false.
Proof. by_cases_on_code_unit c. Qed.

Lemma ascii_eqb_true a b : Ascii.eqb a b = true -> a = b.
Proof. apply Ascii.eqb_eq. Qed.

(** *** Prefixes, substrings, subsequences *)

Lemma startsWith_includes text q : startsWith text q = true -> includes text q = true.
Proof. intros H. destruct text; cbn [includes]; rewrite H; reflexivity. Qed.

Lemma includes_later c text q :
  includes text q = true -> includes (String c text) q = true.
Proof. intros H. cbn [includes]. rewrite H. apply orb_true_r. Qed.

Lemma startsWith_fuzzyMatch : forall q text,
  startsWith text q = true -> fuzzyMatch text q = true.
Proof.
  induction q as [|a q IH]; intros text H.
  - destruct text; reflexivity.
  - destruct text as [|b text]; simpl in *; [discriminate|].
    apply andb_true_iff in H as [Hab Hrest].
    apply ascii_eqb_true in Hab as ->.
    rewrite Ascii.eqb_refl. by apply IH.
Qed.

Lemma fuzzyMatch_subsequence : forall txt pattern,
  fuzzyMatch txt pattern = true <-> Subsequence pattern txt.
Proof.
  intros txt. induction txt as [|t txt IH]; intros pattern.
  - destruct pattern as [|p pattern]; simpl.
    + split; [intros _; constructor | done].
    + split; [discriminate | inversion 1].
  - destruct pattern as [|p pattern]; simpl.
    + split; [intros _; constructor | done].
    + destruct (Ascii.eqb t p) eqn:E.
      * apply ascii_eqb_true in E as ->. rewrite IH. split.
        -- intros Hs. by constructor.
        -- inversion 1 as [| |c pat tx Hs]; subst; [done|].
           clear -Hs.
           remember (String p pattern) as pp eqn:Epp.
           revert p pattern Epp.
           induction Hs as [tx|c pat tx Hs IHs|c pat tx Hs IHs];
             intros p pattern Epp; [discriminate| |].
           ++ injection Epp as -> ->. by constructor.
           ++ constructor. by eapply IHs.
      * rewrite IH. split.
        -- intros Hs. by constructor.
        -- inversion 1 as [|c pat tx Hs|]; subst; [|done].
           by rewrite Ascii.eqb_refl in E.
Qed.

(** *** The pieces of a query *)

Lemma split_head_whitespace : forall s c,
  isWhitespace c = true ->
  exists others, splitWhitespace (String c s) = EmptyString :: others.
Proof.
  induction s as [|c' s IH]; intros c Hc.
  - exists [EmptyString]. cbn [splitWhitespace]. by rewrite Hc.
  - destruct (isWhitespace c') eqn:Hc'.
    + destruct (IH c' Hc') as [others Ho]. exists others.
      change (splitWhitespace (String c (String c' s)))
        with (if isWhitespace c
              then if isWhitespace c' then splitWhitespace (String c' s)
                   else EmptyString :: splitWhitespace (String c' s)
              else match splitWhitespace (String c' s) with
                   | piece :: rest => String c piece :: rest
                   | [] => [String c EmptyString]
                   end).
      by rewrite Hc, Hc'.
    + exists (splitWhitespace (String c' s)).
      change (splitWhitespace (String c (String c' s)))
        with (if isWhitespace c
              then if isWhitespace c' then splitWhitespace (String c' s)
                   else EmptyString :: splitWhitespace (String c' s)
              else match splitWhitespace (String c' s) with
                   | piece :: rest => String c piece :: rest
                   | [] => [String c EmptyString]
                   end).
      by rewrite Hc, Hc'.
Qed.

Lemma split_nonempty s : exists first others, splitWhitespace s = first :: others.
Proof.
  induction s as [|c s (p & others & IH)].
  - by exists EmptyString, [].
  - destruct (isWhitespace c) eqn:Hc.
    + destruct (split_head_whitespace s c Hc) as [o Ho]. eauto.
    + exists (String c p), others. cbn [splitWhitespace]. by rewrite Hc, IH.
Qed.

(** After a whitespace code unit the pieces are those of the rest, up to
    the empty piece in front. *)
Lemma split_after_whitespace c s first others :
  isWhitespace c = true ->
  splitWhitespace (String c s) = first :: others ->
  first = EmptyString /\ forall w, In w others -> In w (splitWhitespace s).
Proof.
  intros Hc H.
  destruct (split_head_whitespace s c Hc) as [o Ho].
  rewrite Ho in H. injection H as <- <-. split; [done|].
  revert Ho. cbn [splitWhitespace]. rewrite Hc.
  destruct s as [|c' s'].
  - intros [= <-]. auto.
  - destruct (isWhitespace c') eqn:Hc'.
    + intros Ho w Hw. rewrite Ho. by right.
    + intros [= <-]. auto.
Qed.

Lemma split_after_letter c s first others :
  isWhitespace c = false ->
  splitWhitespace (String c s) = first :: others ->
  exists p, first = String c p /\ splitWhitespace s = p :: others.
Proof.
  intros Hc. cbn [splitWhitespace]. rewrite Hc.
  destruct (split_nonempty s) as (p & o & ->).
  intros [= <- <-]. eauto.
Qed.

Lemma startsWith_cons txt c q :
  startsWith (toLowerCase txt) (String c q) = true ->
  exists d txt', txt = String d txt' /\ c = toLowerChar d /\
                 startsWith (toLowerCase txt') q = true.
Proof.
  destruct txt as [|d txt']; cbn [toLowerCase startsWith]; [discriminate|].
  intros H. apply andb_true_iff in H as [H1 H2].
  apply ascii_eqb_true in H1. eauto.
Qed.

(** The first piece of a query is a prefix of a text that starts with the
    query. *)
Lemma first_piece_prefix : forall q txt first others,
  startsWith (toLowerCase txt) q = true ->
  splitWhitespace q = first :: others ->
  startsWithIgnoreCase txt first = true /\
  startsWith (toLowerCase txt) first = true.
Proof.
  induction q as [|c q IH]; intros txt first others Hq Hs.
  - injection Hs as <- <-. by destruct txt.
  - destruct (startsWith_cons _ _ _ Hq) as (d & txt' & -> & -> & Hq').
    destruct (isWhitespace (toLowerChar d)) eqn:Hc.
    + destruct (split_after_whitespace _ _ _ _ Hc Hs) as [-> _]. done.
    + destruct (split_after_letter _ _ _ _ Hc Hs) as (p & -> & Hp).
      destruct (IH txt' p others Hq' Hp) as [H1 H2].
      cbn [startsWithIgnoreCase toLowerCase startsWith].
      unfold sameLetter. rewrite toLowerChar_idempotent, Ascii.eqb_refl, H1, H2.
      done.
Qed.

Lemma matchAtBoundary_later before c txt w :
  matchAtBoundary (Some c) txt w = true ->
  matchAtBoundary before (String c txt) w = true.
Proof. intros H. cbn [matchAtBoundary]. rewrite H. apply orb_true_r. Qed.

Lemma matchAtBoundary_here before txt w :
  wordBoundary before txt = true ->
  startsWithIgnoreCase txt w = true ->
  matchAtBoundary before txt w = true.
Proof. intros H1 H2. destruct txt; cbn [matchAtBoundary]; by rewrite H1, H2. Qed.

(** A prefix, letter case ignored, that starts with a word character makes
    the text start with a word character. *)
Lemma prefix_starts_word txt w :
  startsWithWordChar w = true ->
  startsWithIgnoreCase txt w = true ->
  match txt with String c _ => isWordChar c | EmptyString => false end = true.
Proof.
  destruct w as [|a w]; [done|]. destruct txt as [|b txt]; [done|].
  cbn [startsWithWordChar startsWithIgnoreCase]. intros Ha H.
  apply andb_true_iff in H as [H _]. unfold sameLetter in H.
  apply ascii_eqb_true in H.
  by rewrite <- isWordChar_lower, <- H, isWordChar_lower.
Qed.

(** Every later piece that starts with a word character occurs in the text
    after a word boundary. *)
Lemma later_pieces_at_boundary : forall q txt first others,
  startsWith (toLowerCase txt) q = true ->
  splitWhitespace q = first :: others ->
  forall w, In w others -> startsWithWordChar w = true ->
  forall before,
    matchAtBoundary before txt w = true /\ includes (toLowerCase txt) w = true.
Proof.
  induction q as [|c q IH]; intros txt first others Hq Hs w Hw Hword before.
  - injection Hs as <- <-. done.
  - destruct (startsWith_cons _ _ _ Hq) as (d & txt' & -> & -> & Hq').
    destruct (isWhitespace (toLowerChar d)) eqn:Hc.
    + destruct (split_after_whitespace _ _ _ _ Hc Hs) as [-> Hin].
      specialize (Hin w Hw).
      destruct (split_nonempty q) as (p & o & Hp). rewrite Hp in Hin.
      destruct Hin as [<-|Hin].
      * destruct (first_piece_prefix q txt' p o Hq' Hp) as [H1 H2].
        split.
        -- apply matchAtBoundary_later, matchAtBoundary_here; [|done].
           unfold wordBoundary.
           rewrite isWhitespace_lower in Hc.
           rewrite (whitespace_not_word _ Hc).
           by rewrite (prefix_starts_word _ _ Hword H1).
        -- cbn [toLowerCase]. by apply includes_later, startsWith_includes.
      * destruct (IH txt' p o Hq' Hp w Hin Hword (Some d)) as [H1 H2].
        split; [by apply matchAtBoundary_later|].
        cbn [toLowerCase]. by apply includes_later.
    + destruct (split_after_letter _ _ _ _ Hc Hs) as (p & -> & Hp).
      destruct (IH txt' p others Hq' Hp w Hw Hword (Some d)) as [H1 H2].
      split; [by apply matchAtBoundary_later|].
      cbn [toLowerCase]. by apply includes_later.
Qed.

(** Every piece of the query that starts with a word character earns both
    word bonuses in a text that starts with the query. *)
Lemma pieces_at_boundary q txt w :
  startsWith (toLowerCase txt) q = true ->
  In w (splitWhitespace q) ->
  startsWithWordChar w = true ->
  matchAtBoundary None txt w = true /\ includes (toLowerCase txt) w = true.
Proof.
  intros Hq Hw Hword.
  destruct (split_nonempty q) as (first & others & Hs). rewrite Hs in Hw.
  destruct Hw as [<-|Hw].
  - destruct (first_piece_prefix q txt first others Hq Hs) as [H1 H2].
    split; [|by apply startsWith_includes].
    apply matchAtBoundary_here; [|done].
    unfold wordBoundary. by rewrite (prefix_starts_word _ _ Hword H1).
  - by apply (later_pieces_at_boundary q txt first others).
Qed.

(** Every piece of the query is a substring of a text that starts with
    the query. *)
Lemma later_pieces_included : forall q txt first others,
  startsWith (toLowerCase txt) q = true ->
  splitWhitespace q = first :: others ->
  forall w, In w others -> includes (toLowerCase txt) w = true.
Proof.
  induction q as [|c q IH]; intros txt first others Hq Hs w Hw.
  - injection Hs as <- <-. done.
  - destruct (startsWith_cons _ _ _ Hq) as (d & txt' & -> & -> & Hq').
    destruct (isWhitespace (toLowerChar d)) eqn:Hc.
    + destruct (split_after_whitespace _ _ _ _ Hc Hs) as [-> Hin].
      specialize (Hin w Hw).
      destruct (split_nonempty q) as (p & o & Hp). rewrite Hp in Hin.
      cbn [toLowerCase]. apply includes_later.
      destruct Hin as [<-|Hin].
      * destruct (first_piece_prefix q txt' p o Hq' Hp) as [_ H2].
        by apply startsWith_includes.
      * by apply (IH txt' p o Hq' Hp).
    + destruct (split_after_letter _ _ _ _ Hc Hs) as (p & -> & Hp).
      cbn [toLowerCase]. apply includes_later.
      by apply (IH txt' p others Hq' Hp).
Qed.

Lemma pieces_included q txt w :
  startsWith (toLowerCase txt) q = true ->
  In w (splitWhitespace q) ->
  includes (toLowerCase txt) w = true.
Proof.
  intros Hq Hw.
  destruct (split_nonempty q) as (first & others & Hs). rewrite Hs in Hw.
  destruct Hw as [<-|Hw].
  - destruct (first_piece_prefix q txt first others Hq Hs) as [_ H2].
    by apply startsWith_includes.
  - by apply (later_pieces_included q txt first others).
Qed.

(** *** The code computes the score of the specification *)

Lemma wordBoundaryTest_literal w txt :
  isLiteralWord w = true ->
  wordBoundaryTest w txt = Ok (matchAtBoundary None txt w).
Proof.
  unfold isLiteralWord, wordBoundaryTest.
  by destruct (classifyPattern false w).
Qed.

Lemma scoreWords_literal item words : forall s,
  Forall (fun w => isLiteralWord w = true) words ->
  fold_left (scoreWord item (toLowerCase (text item))) words (Ok s) =
  Ok (s + fold_right (fun w sum => specWordBonus item w + sum) 0 words).
Proof.
  induction words as [|w words IH]; intros s Hall; simpl.
  - f_equal. lia.
  - inversion Hall as [|? ? Hw Hrest]; subst.
    unfold specWordBonus at 1.
    destruct (includes (toLowerCase (text item)) w).
    + rewrite (wordBoundaryTest_literal _ _ Hw). simpl.
      destruct (matchAtBoundary None (text item) w);
        rewrite (IH _ Hrest); f_equal; lia.
    + rewrite (IH _ Hrest). f_equal; lia.
Qed.

Lemma entryScore_literal query item :
  Forall (fun w => isLiteralWord w = true) (splitWhitespace (toLowerCase query)) ->
  entryScore query item = Ok (specScore query item).
Proof.
  intros Hall. unfold entryScore, scoreItem, specScore, specRawScore. cbv zeta.
  rewrite (scoreWords_literal _ _ _ Hall). simpl.
  f_equal.
  destruct (includes _ _); [destruct (startsWith _ _)|];
    destruct (fuzzyMatch _ _); lia.
Qed.

Lemma collect_literal query index : forall results,
  Forall (fun w => isLiteralWord w = true) (splitWhitespace (toLowerCase query)) ->
  collect (toLowerCase query) (splitWhitespace (toLowerCase query)) index results =
  Ok (results ++
      List.filter (fun r => 0 <? score r)
        (map (fun item => mkResult item (specScore query item)) index)).
Proof.
  induction index as [|item index IH]; intros results Hall; simpl.
  - by rewrite app_nil_r.
  - pose proof (entryScore_literal query item Hall) as H.
    unfold entryScore in H. rewrite H. simpl.
    rewrite (IH _ Hall).
    destruct (0 <? specScore query item); [|done].
    by rewrite <- app_assoc.
Qed.

(** For a query whose words carry no regular-expression syntax character
    the code returns the result list of the specification. *)
Lemma fuzzySearch_literal maxResults index query :
  Forall (fun w => isLiteralWord w = true) (splitWhitespace (toLowerCase query)) ->
  fuzzySearch maxResults index query = Ok (specSearch maxResults index query).
Proof.
  intros Hall. unfold fuzzySearch, specSearch. cbv zeta.
  by rewrite (collect_literal _ _ _ Hall).
Qed.

(** *** The sort and the cut *)

Lemma insertByScore_perm r l : Permutation (insertByScore r l) (r :: l).
Proof.
  induction l as [|r' l IH]; simpl; [done|].
  destruct (score r' <=? score r); [done|].
  rewrite IH. apply perm_swap.
Qed.

Lemma sortByScore_perm l : Permutation (sortByScore l) l.
Proof.
  induction l as [|r l IH]; simpl; [done|].
  by rewrite insertByScore_perm, IH.
Qed.

Lemma insertByScore_descending r l :
  descending l -> descending (insertByScore r l).
Proof.
  unfold descending. induction l as [|r' l IH]; intros Hs; simpl.
  - by repeat constructor.
  - inversion Hs as [|? ? Hl Hall]; subst.
    destruct (score r' <=? score r) eqn:E.
    + apply Z.leb_le in E. constructor; [done|].
      constructor; [done|].
      eapply Forall_impl; [exact Hall|]. simpl. intros; lia.
    + apply Z.leb_gt in E. constructor; [by apply IH|].
      apply Forall_forall. intros x Hx.
      apply list_elem_of_In, (Permutation_in _ (insertByScore_perm r l)) in Hx.
      destruct Hx as [<-|Hx]; [lia|].
      rewrite Forall_forall in Hall. by apply Hall, list_elem_of_In.
Qed.

Lemma sortByScore_descending l : descending (sortByScore l).
Proof.
  induction l as [|r l IH]; simpl; [constructor|].
  by apply insertByScore_descending.
Qed.

Lemma slice0_length {A} (l : list A) finish :
  0 <= finish -> Z.of_nat (length (slice0 l finish)) <= finish.
Proof.
  intros H. unfold slice0.
  destruct (finish <? 0) eqn:E; [apply Z.ltb_lt in E; lia|].
  rewrite length_firstn. lia.
Qed.

Lemma slice0_descending l finish : descending l -> descending (slice0 l finish).
Proof.
  unfold slice0, descending. generalize (Z.to_nat
    (if finish <? 0 then Z.max (Z.of_nat (length l) + finish) 0
     else Z.min finish (Z.of_nat (length l)))).
  intros n. revert l. induction n as [|n IH]; intros l Hs; simpl.
  - constructor.
  - destruct l as [|r l]; [constructor|].
    inversion Hs as [|? ? Hl Hall]; subst.
    constructor; [by apply IH|].
    apply Forall_forall. intros x Hx.
    rewrite Forall_forall in Hall. apply Hall.
    by apply (subseteq_take n l).
Qed.

(** The result list of the specification: every score positive, larger
    scores first, and no longer than a non-negative [maxResults]. *)
Lemma specSearch_shape maxResults index query :
  Forall (fun r => 0 < score r) (specSearch maxResults index query) /\
  descending (specSearch maxResults index query) /\
  (0 <= maxResults ->
   Z.of_nat (length (specSearch maxResults index query)) <= maxResults).
Proof.
  unfold specSearch. split; [|split].
  - apply Forall_forall. intros r Hr.
    apply (subseteq_take _ _) in Hr.
    apply list_elem_of_In, (Permutation_in _ (sortByScore_perm _)) in Hr.
    apply filter_In in Hr as [_ Hr]. by apply Z.ltb_lt in Hr.
  - apply slice0_descending, sortByScore_descending.
  - apply slice0_length.
Qed.

(** The examples of the specification: [abc] is a subsequence of [a1b2c3]
    and not of [cba]; the query [install] finds the heading and the
    paragraph, the heading first. *)
Example fuzzyMatch_boundary :
  fuzzyMatch "a1b2c3" "abc" = true /\ fuzzyMatch "cba" "abc" = false.
Proof. split; reflexivity. Qed.

Example install_query :
  let started := mkEntry heading "Getting Started" "getting-started" "" 6 in
  let installation := mkEntry heading "Installation" "installation" "" 5 in
  let paragraph :=
    mkEntry content "Run the installer from your terminal to begin setup quickly."
      "installation" "Installation" 1 in
  fuzzySearch (maxResultsOf None) [started; installation; paragraph] "install" =
  Ok [mkResult installation 110; mkResult paragraph 17].
Proof. vm_compute. reflexivity. Qed.

(** *** Claims about the scoring *)

Lemma wordBonuses_bound item words :
  fold_right (fun w sum => specWordBonus item w + sum) 0 words
  <= 5 * Z.of_nat (length words).
Proof.
  induction words as [|w words IH]; simpl length; cbn [fold_right]; [lia|].
  unfold specWordBonus at 1.
  destruct (includes _ _); [destruct (matchAtBoundary _ _ _)|]; lia.
Qed.

Lemma wordBonuses_full item words :
  Forall (fun w => matchAtBoundary None (text item) w = true /\
                   includes (toLowerCase (text item)) w = true) words ->
  fold_right (fun w sum => specWordBonus item w + sum) 0 words
  = 5 * Z.of_nat (length words).
Proof.
  induction 1 as [|w words [Hm Hi] Hall IH]; simpl length; cbn [fold_right]; [lia|].
  unfold specWordBonus at 1. rewrite Hm, Hi. lia.
Qed.

(** C5.  The score is not the one of the specification when a word of the
    query carries regular-expression syntax: the word is pasted into
    [new RegExp] as it is.  For the query [c++] and the heading
    [C++ guide] of weight 5 the rule of the specification gives
    (10 + 5 + 3 + 2 + 2) * 5 = 110; the constructor rejects the pattern
    [\bc++] and [fuzzySearch] throws. *)
Theorem fuzzySearch_throws_on_regex_syntax :
  let item := mkEntry heading "C++ guide" "c-guide" "" 5 in
  specScore "c++" item = 110 /\
  specSearch 10 [item] "c++" = [mkResult item 110] /\
  entryScore "c++" item = Throws /\
  fuzzySearch 10 [item] "c++" = Throws.
Proof. vm_compute. repeat split; reflexivity. Qed.

(** A text that starts with the query earns +3 for every word of the
    query and +2 more for every word that starts with a word character. *)
Lemma wordBonuses_prefix item words :
  (forall w, In w words ->
     includes (toLowerCase (text item)) w = true /\
     (startsWithWordChar w = true -> matchAtBoundary None (text item) w = true)) ->
  5 * Z.of_nat (length words)
  - 2 * Z.of_nat (length (List.filter (fun w => negb (startsWithWordChar w)) words))
  <= fold_right (fun w sum => specWordBonus item w + sum) 0 words.
Proof.
  induction words as [|w words IH]; intros H; [simpl; lia|].
  assert (forall w', In w' words ->
            includes (toLowerCase (text item)) w' = true /\
            (startsWithWordChar w' = true ->
             matchAtBoundary None (text item) w' = true)) as Hrest
    by (intros w' Hin; apply H; by right).
  specialize (IH Hrest).
  destruct (H w (or_introl eq_refl)) as [Hi Hm].
  cbn [fold_right List.filter]. unfold specWordBonus at 1. rewrite Hi.
  destruct (startsWithWordChar w).
  - rewrite (Hm eq_refl). cbn [negb]. simpl length. lia.
  - cbn [negb]. simpl length. destruct (matchAtBoundary _ _ _); lia.
Qed.

(** C6, as stated, fails: with the query [#a #a #a] and weight 1, the text
    [#a #a #a!] starts with the query and scores 26, the text [x#a #a #a]
    of the same length holds the query at position 1 only and scores 27,
    because there every word follows a word boundary.  It fails as well
    for a negative weight, which turns the order of the scores around:
    with the query [ab] and weight -1, [ab!] scores -22 and [xab] -15.
    And a query with a word the [RegExp] constructor rejects gives a text
    that starts with it no score at all: the scoring throws. *)
Lemma prefix_score_counterexample :
  (let query := "#a #a #a" in
   let a := mkEntry content "#a #a #a!" "" "" 1 in
   let b := mkEntry content "x#a #a #a" "" "" 1 in
   weight a = weight b /\
   String.length (text a) = String.length (text b) /\
   startsWith (toLowerCase (text a)) (toLowerCase query) = true /\
   includes (toLowerCase (text b)) (toLowerCase query) = true /\
   startsWith (toLowerCase (text b)) (toLowerCase query) = false /\
   entryScore query a = Ok 26 /\
   entryScore query b = Ok 27) /\
  (let query := "ab" in
   let a := mkEntry content "ab!" "" "" (-1) in
   let b := mkEntry content "xab" "" "" (-1) in
   weight a = weight b /\
   String.length (text a) = String.length (text b) /\
   startsWith (toLowerCase (text a)) (toLowerCase query) = true /\
   includes (toLowerCase (text b)) (toLowerCase query) = true /\
   startsWith (toLowerCase (text b)) (toLowerCase query) = false /\
   entryScore query a = Ok (-22) /\
   entryScore query b = Ok (-15)) /\
  (let query := "c++" in
   let a := mkEntry content "c++ basics" "" "" 1 in
   startsWith (toLowerCase (text a)) (toLowerCase query) = true /\
   entryScore query a = Throws).
Proof. vm_compute. repeat split; reflexivity. Qed.

(** C6, amended.  For a query whose whitespace-separated words carry no
    regular-expression syntax character, and of which at most two do not
    start with a word character: an entry whose text starts with the
    query, letter case ignored, scores at least as much as every entry of
    the same weight whose text does not start with the query, when that
    weight is not negative; and when every word of the query starts with a
    word character, it scores at least as much as every entry of the same
    weight.  The lengths of the texts play no part. *)
Theorem prefix_entry_scores_at_least (query : string) (a b : IndexEntry) :
  let words := splitWhitespace (toLowerCase query) in
  let others := List.filter (fun w => negb (startsWithWordChar w)) words in
  Forall (fun w => isLiteralWord w = true) words ->
  others = [] \/
  ((length others <= 2)%nat /\
   startsWith (toLowerCase (text b)) (toLowerCase query) = false) ->
  weight a = weight b ->
  0 <= weight a ->
  startsWith (toLowerCase (text a)) (toLowerCase query) = true ->
  exists sa sb,
    entryScore query a = Ok sa /\ entryScore query b = Ok sb /\ sb <= sa.
Proof.
  cbv zeta. intros Hlit Hcases Hw Hpos Hprefix.
  exists (specScore query a), (specScore query b).
  split; [by apply entryScore_literal|].
  split; [by apply entryScore_literal|].
  unfold specScore. rewrite <- Hw.
  apply Z.mul_le_mono_nonneg_r; [done|].
  unfold specRawScore. cbv zeta.
  rewrite Hprefix, (startsWith_includes _ _ Hprefix),
    (startsWith_fuzzyMatch _ _ Hprefix).
  pose proof (wordBonuses_bound b (splitWhitespace (toLowerCase query))) as Hb.
  pose proof (wordBonuses_prefix a (splitWhitespace (toLowerCase query))) as Ha.
  assert (forall w, In w (splitWhitespace (toLowerCase query)) ->
            includes (toLowerCase (text a)) w = true /\
            (startsWithWordChar w = true ->
             matchAtBoundary None (text a) w = true)) as Hpieces.
  { intros w Hin. split.
    - by apply (pieces_included (toLowerCase query)).
    - intros Hword. by apply (pieces_at_boundary (toLowerCase query)). }
  specialize (Ha Hpieces). cbv beta iota.
  destruct Hcases as [Hnone|[Hfew Hnot]].
  - rewrite Hnone in Ha. simpl length in Ha.
    destruct (includes (toLowerCase (text b)) _);
      [destruct (startsWith (toLowerCase (text b)) _)|];
      destruct (fuzzyMatch (toLowerCase (text b)) _); lia.
  - rewrite Hnot.
    destruct (includes (toLowerCase (text b)) _);
      destruct (fuzzyMatch (toLowerCase (text b)) _); lia.
Qed.

(** C6, on a query with two words that do not start with a word
    character: [#install -v], a text that starts with it and scores 23, and
    a text of the same length that holds it further on, where [#install]
    follows a word boundary, and scores 20. *)
Lemma prefix_entry_scores_at_least_witness :
  let query := "#install -v" in
  let a := mkEntry content "#install -v first" "" "" 1 in
  let b := mkEntry content "now x#install -v." "" "" 1 in
  let words := splitWhitespace (toLowerCase query) in
  let others := List.filter (fun w => negb (startsWithWordChar w)) words in
  (Forall (fun w => isLiteralWord w = true) words /\
   (others = [] \/
    ((length others <= 2)%nat /\
     startsWith (toLowerCase (text b)) (toLowerCase query) = false)) /\
   weight a = weight b /\ 0 <= weight a /\
   startsWith (toLowerCase (text a)) (toLowerCase query) = true) /\
  length others = 2%nat /\
  entryScore query a = Ok 23 /\ entryScore query b = Ok 20 /\
  exists sa sb,
    entryScore query a = Ok sa /\ entryScore query b = Ok sb /\ sb <= sa.
Proof.
  cbv zeta.
  assert (Forall (fun w => isLiteralWord w = true)
            (splitWhitespace (toLowerCase "#install -v"))) as H1
    by (vm_compute; repeat constructor).
  assert (List.filter (fun w => negb (startsWithWordChar w))
            (splitWhitespace (toLowerCase "#install -v")) = [] \/
          ((length (List.filter (fun w => negb (startsWithWordChar w))
                      (splitWhitespace (toLowerCase "#install -v"))) <= 2)%nat /\
           startsWith (toLowerCase (text (mkEntry content "now x#install -v." "" "" 1)))
             (toLowerCase "#install -v") = false)) as H2
    by (right; split; [vm_compute; lia | vm_compute; reflexivity]).
  assert (weight (mkEntry content "#install -v first" "" "" 1) =
          weight (mkEntry content "now x#install -v." "" "" 1)) as H3 by reflexivity.
  assert (0 <= weight (mkEntry content "#install -v first" "" "" 1)) as H4
    by (simpl; lia).
  assert (startsWith (toLowerCase (text (mkEntry content "#install -v first" "" "" 1)))
            (toLowerCase "#install -v") = true) as H5 by (vm_compute; reflexivity).
  split; [exact (conj H1 (conj H2 (conj H3 (conj H4 H5))))|].
  split; [vm_compute; reflexivity|].
  split; [vm_compute; reflexivity|].
  split; [vm_compute; reflexivity|].
  exact (prefix_entry_scores_at_least "#install -v" _ _ H1 H2 H3 H4 H5).
Defined.

(** ** Further properties of the search *)

(** *** What the scoring guarantees *)

Lemma fuzzyMatch_later c txt pattern :
  fuzzyMatch txt pattern = true -> fuzzyMatch (String c txt) pattern = true.
Proof.
  rewrite !fuzzyMatch_subsequence. by constructor.
Qed.

Lemma includes_fuzzyMatch : forall txt q,
  includes txt q = true -> fuzzyMatch txt q = true.
Proof.
  intros txt. induction txt as [|c txt IH]; intros q H.
  - cbn [includes] in H. rewrite orb_false_r in H. by apply startsWith_fuzzyMatch.
  - cbn [includes] in H. apply orb_true_iff in H as [H|H].
    + by apply startsWith_fuzzyMatch.
    + by apply fuzzyMatch_later, IH.
Qed.

Lemma Subsequence_length pattern txt :
  Subsequence pattern txt -> (String.length pattern <= String.length txt)%nat.
Proof. induction 1; simpl; lia. Qed.

(** X13.  [fuzzyMatch] decides the subsequence relation: it answers [true]
    exactly when the characters of the pattern occur in the text in the
    same order, not necessarily next to each other.  So the empty pattern
    matches every text, and a match is never longer than the text. *)
Theorem fuzzyMatch_decides_subsequence (txt pattern : string) :
  (fuzzyMatch txt pattern = true <-> Subsequence pattern txt) /\
  fuzzyMatch txt EmptyString = true /\
  (if fuzzyMatch txt pattern
   then (String.length pattern <= String.length txt)%nat else True).
Proof.
  split; [apply fuzzyMatch_subsequence|]. split.
  - apply fuzzyMatch_subsequence. constructor.
  - destruct (fuzzyMatch txt pattern) eqn:E; [|done].
    by apply Subsequence_length, fuzzyMatch_subsequence.
Qed.

Lemma wordBonuses_nonneg item words :
  0 <= fold_right (fun w sum => specWordBonus item w + sum) 0 words.
Proof.
  induction words as [|w words IH]; cbn [fold_right]; [lia|].
  unfold specWordBonus at 1.
  destruct (includes _ _); [destruct (matchAtBoundary _ _ _)|]; lia.
Qed.

(** X14.  An entry whose text contains the query, letter case ignored, is
    never left out for its score: for a query whose words carry no
    regular-expression syntax character and an entry of positive weight,
    the score is at least 12 times the weight (10 for the match, 2 for the
    subsequence), so it is positive. *)
Theorem containing_entry_scores (query : string) (item : IndexEntry) :
  Forall (fun w => isLiteralWord w = true) (splitWhitespace (toLowerCase query)) ->
  0 < weight item ->
  includes (toLowerCase (text item)) (toLowerCase query) = true ->
  exists s, entryScore query item = Ok s /\ 12 * weight item <= s /\ 0 < s.
Proof.
  intros Hlit Hw Hin.
  exists (specScore query item).
  split; [by apply entryScore_literal|].
  assert (12 <= specRawScore query item) as Hraw.
  { unfold specRawScore. cbv zeta.
    rewrite Hin, (includes_fuzzyMatch _ _ Hin).
    pose proof (wordBonuses_nonneg item (splitWhitespace (toLowerCase query))).
    destruct (startsWith _ _); lia. }
  unfold specScore. split; nia.
Qed.

Lemma containing_entry_scores_witness :
  let item := mkEntry content
                "Run the installer from your terminal to begin setup quickly."
                "installation" "Installation" 1 in
  (Forall (fun w => isLiteralWord w = true) (splitWhitespace (toLowerCase "Install")) /\
   0 < weight item /\
   includes (toLowerCase (text item)) (toLowerCase "Install") = true) /\
  exists s, entryScore "Install" item = Ok s /\ 12 * weight item <= s /\ 0 < s.
Proof.
  cbv zeta.
  assert (Forall (fun w => isLiteralWord w = true)
            (splitWhitespace (toLowerCase "Install"))) as H1
    by (vm_compute; repeat constructor).
  assert (0 < weight (mkEntry content
                "Run the installer from your terminal to begin setup quickly."
                "installation" "Installation" 1)) as H2 by (simpl; lia).
  assert (includes (toLowerCase (text (mkEntry content
                "Run the installer from your terminal to begin setup quickly."
                "installation" "Installation" 1))) (toLowerCase "Install") = true) as H3
    by (vm_compute; reflexivity).
  split; [done|].
  exact (containing_entry_scores "Install" _ H1 H2 H3).
Defined.

Lemma slice0_all {A} (l : list A) finish :
  Z.of_nat (length l) <= finish -> slice0 l finish = l.
Proof.
  intros H. unfold slice0.
  destruct (finish <? 0) eqn:E; [apply Z.ltb_lt in E; lia|].
  rewrite Z.min_r by lia. rewrite Nat2Z.id. apply firstn_all.
Qed.

(** X15.  For a query whose words carry no regular-expression syntax
    character and a [maxResults] that is not negative, [fuzzySearch] does
    not throw and returns at most [maxResults] results, larger scores
    first; every result is an entry of the index with the score the
    scoring gives it, which is positive; and when the index has no more
    than [maxResults] entries, every entry with a positive score is among
    the results. *)
Theorem fuzzySearch_results (maxResults : Z) (index : list IndexEntry)
    (query : string) :
  Forall (fun w => isLiteralWord w = true) (splitWhitespace (toLowerCase query)) ->
  0 <= maxResults ->
  exists results,
    fuzzySearch maxResults index query = Ok results /\
    Z.of_nat (length results) <= maxResults /\
    descending results /\
    Forall (fun r => In (entry r) index /\
                     entryScore query (entry r) = Ok (score r) /\
                     0 < score r) results /\
    (Z.of_nat (length index) <= maxResults ->
     forall item s, In item index -> entryScore query item = Ok s -> 0 < s ->
                    In (mkResult item s) results).
Proof.
  intros Hlit Hmax. exists (specSearch maxResults index query).
  split; [by apply fuzzySearch_literal|].
  destruct (specSearch_shape maxResults index query) as (Hpos & Hdesc & Hlen).
  split; [by apply Hlen|]. split; [done|]. split.
  - apply Forall_forall. intros r Hr. unfold specSearch in Hr.
    apply (subseteq_take _ _) in Hr.
    apply list_elem_of_In, (Permutation_in _ (sortByScore_perm _)) in Hr.
    apply filter_In in Hr as [Hr Hp]. apply in_map_iff in Hr as (item & <- & Hitem).
    simpl. split; [done|]. split; [by apply entryScore_literal|].
    by apply Z.ltb_lt in Hp.
  - intros Hall item sc Hitem Hsc Hp.
    rewrite (entryScore_literal _ _ Hlit) in Hsc. injection Hsc as <-.
    unfold specSearch. rewrite slice0_all.
    + apply (Permutation_in _ (Permutation_sym (sortByScore_perm _))).
      apply filter_In. split; [|by apply Z.ltb_lt].
      apply in_map_iff. by exists item.
    + rewrite (Permutation_length (sortByScore_perm _)).
      pose proof (filter_length_le (fun r => 0 <? score r)
                    (map (fun item => mkResult item (specScore query item)) index)) as Hf.
      rewrite length_map in Hf. lia.
Qed.

Lemma fuzzySearch_results_witness :
  let index := [mkEntry heading "Getting Started" "getting-started" "" 6;
                mkEntry heading "Installation" "installation" "" 5] in
  (Forall (fun w => isLiteralWord w = true) (splitWhitespace (toLowerCase "install")) /\
   0 <= 10) /\
  exists results,
    fuzzySearch 10 index "install" = Ok results /\
    Z.of_nat (length results) <= 10 /\ descending results.
Proof.
  cbv zeta.
  assert (Forall (fun w => isLiteralWord w = true)
            (splitWhitespace (toLowerCase "install"))) as H1
    by (vm_compute; repeat constructor).
  assert (0 <= 10) as H2 by lia.
  split; [done|].
  destruct (fuzzySearch_results 10
              [mkEntry heading "Getting Started" "getting-started" "" 6;
               mkEntry heading "Installation" "installation" "" 5]
              "install" H1 H2) as (results & R1 & R2 & R3 & _).
  exists results. done.
Defined.

(** *** The result panel *)

Lemma keeps_open_close p :
  selectionValid p -> selectionValid (open p) /\ selectionValid (close p).
Proof. done. Qed.

Lemma selectNext_valid p : selectionValid p -> selectionValid (selectNext p).
Proof.
  unfold selectionValid, selectNext. intros Hv.
  destruct (items p) as [|r rest] eqn:E; [by rewrite E|].
  cbn [items selectedIndex]. intros _.
  specialize (Hv ltac:(done)).
  apply Z.rem_bound_pos; lia.
Qed.

Lemma selectPrevious_valid p :
  selectionValid p -> selectionValid (selectPrevious p).
Proof.
  unfold selectionValid, selectPrevious. intros Hv.
  destruct (items p) as [|r rest] eqn:E; [by rewrite E|].
  cbn [items selectedIndex]. intros _.
  specialize (Hv ltac:(done)).
  apply Z.rem_bound_pos; lia.
Qed.

Lemma activateSelected_valid p :
  selectionValid p -> selectionValid (activateSelected p).
Proof.
  unfold activateSelected, navigateToResult. by destruct (itemAt _ _).
Qed.

Lemma keydown_valid key typing p :
  selectionValid p -> selectionValid (keydown key typing p).
Proof.
  intros Hv. unfold keydown.
  set (p1 := if (key =? "/")%string && negb typing then open p else p).
  assert (selectionValid p1) as Hv1 by (subst p1; by destruct (_ && _)).
  clearbody p1.
  set (p2 := if (key =? "Escape")%string && isOpen p1 then close p1 else p1).
  assert (selectionValid p2) as Hv2 by (subst p2; by destruct (_ && _)).
  clearbody p2.
  destruct (isOpen p2); [|done].
  destruct (key =? "ArrowDown")%string; [by apply selectNext_valid|].
  destruct (key =? "ArrowUp")%string; [by apply selectPrevious_valid|].
  destruct (key =? "Enter")%string; [by apply activateSelected_valid|done].
Qed.

Lemma performSearch_valid minQueryLength maxResults index query p p' :
  performSearch minQueryLength maxResults index query p = Ok p' ->
  selectionValid p'.
Proof.
  unfold performSearch. cbv zeta.
  destruct (_ <? _); [by intros [= <-]|].
  destruct (fuzzySearch _ _ _) as [results| |]; cbn [andThen]; [|done..].
  unfold renderResults. destruct results as [|r results]; [by intros [= <-]|].
  destruct (highlightMatch _) as [[]| |]; cbn [andThen]; [|done..].
  intros [= <-]. unfold selectionValid. cbn [items selectedIndex length]. lia.
Qed.

Lemma handle_valid minQueryLength maxResults index e p p' :
  selectionValid p ->
  handle minQueryLength maxResults index e p = Ok p' ->
  selectionValid p'.
Proof.
  intros Hv. destruct e as [query| | |i|key typing|query]; cbn [handle].
  - apply performSearch_valid.
  - by intros [= <-].
  - by intros [= <-].
  - by destruct (items p !! i); intros [= <-].
  - intros [= <-]. by apply keydown_valid.
  - destruct (performSearch _ _ _ _ _) as [p1| |] eqn:E; cbn [andThen]; [|done..].
    intros [= <-]. by apply performSearch_valid in E.
Qed.

(** *** The panel under any engine *)

Lemma scoreWords_simulated engine item textLower words :
  agreesOnFragment engine ->
  forall o r, simulates o r ->
  simulates (fold_left (scoreWord item textLower) words o)
            (fold_left (scoreWordWith engine item textLower) words r).
Proof.
  intros Ha. induction words as [|w words IH]; intros o r Hs; [done|].
  cbn [fold_left]. apply IH.
  destruct o as [s| |]; cbn [simulates] in Hs |- *; subst; cbn [scoreWord andThen];
    [|done..].
  cbn [scoreWordWith]. destruct (includes textLower w); [|done].
  specialize (Ha w). unfold wordBoundaryTest.
  destruct (classifyPattern false w).
  - destruct Ha as (H1 & _ & H3). cbn [andThen simulates]. by rewrite H1, H3.
  - cbn [andThen simulates]. by rewrite Ha.
  - done.
Qed.

Lemma scoreItem_simulated engine queryLower queryWords item :
  agreesOnFragment engine ->
  simulates (scoreItem queryLower queryWords item)
            (scoreItemWith engine queryLower queryWords item).
Proof.
  intros Ha. unfold scoreItem, scoreItemWith. cbv zeta.
  set (s := if includes _ _ then _ else _).
  pose proof (scoreWords_simulated engine item (toLowerCase (text item))
                queryWords Ha (Ok s) (Some s) eq_refl) as H.
  destruct (fold_left (scoreWord _ _) _ _) as [s'| |]; cbn [simulates andThen] in *;
    by rewrite ?H.
Qed.

Lemma collect_simulated engine queryLower queryWords index :
  agreesOnFragment engine ->
  forall results,
  simulates (collect queryLower queryWords index results)
            (collectWith engine queryLower queryWords index results).
Proof.
  intros Ha. induction index as [|item index IH]; intros results; [done|].
  cbn [collect collectWith].
  pose proof (scoreItem_simulated engine queryLower queryWords item Ha) as H.
  destruct (scoreItem _ _ _) as [s| |]; cbn [simulates andThen] in *;
    rewrite ?H; [apply IH|done..].
Qed.

Lemma fuzzySearch_simulated engine maxResults index query :
  agreesOnFragment engine ->
  simulates (fuzzySearch maxResults index query)
            (fuzzySearchWith engine maxResults index query).
Proof.
  intros Ha. unfold fuzzySearch, fuzzySearchWith. cbv zeta.
  pose proof (collect_simulated engine (toLowerCase query)
                (splitWhitespace (toLowerCase query)) index Ha []) as H.
  destruct (collect _ _ _ _) as [rs| |]; cbn [simulates andThen] in *;
    by rewrite ?H.
Qed.

Lemma highlightMatch_simulated engine query :
  agreesOnFragment engine ->
  simulates (highlightMatch query) (highlightMatchWith engine query).
Proof.
  intros Ha. unfold highlightMatch, highlightMatchWith.
  destruct (forallb isLiteralWord _) eqn:E; [|done].
  cbn [simulates].
  assert (forallb (fun word => regexAccepts engine (groupPattern word))
            (highlightWords query) = true) as ->; [|done].
  rewrite forallb_forall in E. apply forallb_forall. intros w Hw.
  specialize (E w Hw). specialize (Ha w). unfold isLiteralWord in E.
  destruct (classifyPattern false w); [|done..]. apply Ha.
Qed.

Lemma performSearch_simulated engine minQueryLength maxResults index query p :
  agreesOnFragment engine ->
  simulates (performSearch minQueryLength maxResults index query p)
            (performSearchWith engine minQueryLength maxResults index query p).
Proof.
  intros Ha. unfold performSearch, performSearchWith. cbv zeta.
  destruct (_ <? _); [done|].
  pose proof (fuzzySearch_simulated engine maxResults index (trim query) Ha) as H.
  destruct (fuzzySearch _ _ _) as [rs| |]; cbn [simulates andThen] in *;
    rewrite ?H; [|done..].
  unfold renderResults, renderResultsWith. destruct rs as [|r rs]; [done|].
  pose proof (highlightMatch_simulated engine (trim query) Ha) as H'.
  destruct (highlightMatch _) as [[]| |]; cbn [simulates andThen] in *;
    by rewrite ?H'.
Qed.

Lemma handle_simulated engine minQueryLength maxResults index e p :
  agreesOnFragment engine ->
  simulates (handle minQueryLength maxResults index e p)
            (handleWith engine minQueryLength maxResults index e p).
Proof.
  intros Ha. destruct e as [query| | |i|key typing|query]; cbn [handle handleWith];
    try done.
  - by apply performSearch_simulated.
  - by destruct (items p !! i).
  - pose proof (performSearch_simulated engine minQueryLength maxResults index
                  query p Ha) as H.
    destruct (performSearch _ _ _ _ _) as [p1| |]; cbn [simulates andThen] in *;
      by rewrite ?H.
Qed.

Lemma performSearchWith_valid engine minQueryLength maxResults index query p p' :
  performSearchWith engine minQueryLength maxResults index query p = Some p' ->
  selectionValid p'.
Proof.
  unfold performSearchWith. cbv zeta.
  destruct (_ <? _); [by intros [= <-]|].
  destruct (fuzzySearchWith _ _ _ _) as [results|]; [|done].
  unfold renderResultsWith. destruct results as [|r results]; [by intros [= <-]|].
  destruct (highlightMatchWith _ _); [|done].
  intros [= <-]. unfold selectionValid. cbn [items selectedIndex length]. lia.
Qed.

Lemma handleWith_valid engine minQueryLength maxResults index e p :
  selectionValid p ->
  selectionValid (match handleWith engine minQueryLength maxResults index e p with
                  | Some p' => p'
                  | None => p
                  end).
Proof.
  intros Hv. destruct e as [query| | |i|key typing|query]; cbn [handleWith].
  - destruct (performSearchWith _ _ _ _ _ _) as [p1|] eqn:E; [|done].
    by apply performSearchWith_valid in E.
  - done.
  - done.
  - by destruct (items p !! i).
  - by apply keydown_valid.
  - destruct (performSearchWith _ _ _ _ _ _) as [p1|] eqn:E; [|done].
    by apply performSearchWith_valid in E.
Qed.

(** X16.  The highlighted index stays inside the list of results, for
    every query and whatever the regular-expression engine does with the
    patterns built from it: from a panel whose highlighted index is a
    position of its list (or whose list is empty), after any sequence of
    typing, focus, clicks, key presses and programmatic searches, the
    list is empty or the highlighted index is one of its positions; a
    search that throws leaves the panel as it was.  Where every query of
    the sequence is in the interpreted fragment, the panel is the one that
    fragment gives, for every engine that agrees with it. *)
Theorem selection_stays_valid (engine : RegExpEngine)
    (minQueryLength maxResults : Z) (index : list IndexEntry)
    (events : list UiEvent) (p : Panel) :
  selectionValid p ->
  selectionValid (handleAllWith engine minQueryLength maxResults index events p) /\
  forall p',
    handleAll minQueryLength maxResults index events p = Some p' ->
    selectionValid p' /\
    (agreesOnFragment engine ->
     handleAllWith engine minQueryLength maxResults index events p = p').
Proof.
  revert p. induction events as [|e events IH]; intros p Hv.
  - split; [done|]. by intros p' [= <-].
  - cbn [handleAllWith handleAll].
    pose proof (handleWith_valid engine minQueryLength maxResults index e p Hv) as Hv1.
    split; [by apply IH|].
    intros p' Hall.
    destruct (handle _ _ _ e p) as [p1| |] eqn:E; [| |done].
    + pose proof (handle_valid _ _ _ _ _ _ Hv E) as Hp1.
      destruct (IH p1 Hp1) as [_ H]. destruct (H p' Hall) as [H1 H2].
      split; [done|]. intros Ha.
      pose proof (handle_simulated engine minQueryLength maxResults index e p Ha) as Hs.
      rewrite E in Hs. cbn [simulates] in Hs. rewrite Hs. by apply H2.
    + destruct (IH p Hv) as [_ H]. destruct (H p' Hall) as [H1 H2].
      split; [done|]. intros Ha.
      pose proof (handle_simulated engine minQueryLength maxResults index e p Ha) as Hs.
      rewrite E in Hs. cbn [simulates] in Hs. rewrite Hs. by apply H2.
Qed.

(** X16, on a run with queries outside the interpreted fragment.  The
    page has four headings.  [node.js] finds two of them, the arrow key
    moves the highlight to the second, and [v1.0] then finds one heading:
    the highlight is back on the first.  [c++] occurs in a heading, so
    its pattern is built, the constructor rejects it, the search throws
    and the panel stays as it was. *)
Lemma selection_stays_valid_witness :
  let index := [mkEntry heading "Node.js setup" "node-js-setup" "" 6;
                mkEntry heading "Upgrading to v1.0" "upgrading" "" 5;
                mkEntry heading "Deploying Node.js apps" "deploying" "" 4;
                mkEntry heading "C++ bindings" "bindings" "" 3] in
  let first := [KeyPressed "/" false; Typed "node.js";
                KeyPressed "ArrowDown" true] in
  let second := [Typed "v1.0"; Typed "c++"] in
  let p1 := handleAllWith dotsEngine 2 10 index first initialPanel in
  let p2 := handleAllWith dotsEngine 2 10 index second p1 in
  selectionValid initialPanel /\
  handleAll 2 10 index first initialPanel = None /\
  map (fun r => id (entry r)) (items p1) = ["node-js-setup"; "deploying"] /\
  selectedIndex p1 = 1 /\
  map (fun r => id (entry r)) (items p2) = ["upgrading"] /\
  selectedIndex p2 = 0 /\
  performSearchWith dotsEngine 2 10 index "c++" p1 = None /\
  selectionValid p1 /\ selectionValid p2.
Proof.
  cbv zeta.
  assert (selectionValid initialPanel) as H1 by (intros H; by destruct H).
  split; [exact H1|].
  split; [vm_compute; reflexivity|].
  split; [vm_compute; reflexivity|].
  split; [vm_compute; reflexivity|].
  split; [vm_compute; reflexivity|].
  split; [vm_compute; reflexivity|].
  split; [vm_compute; reflexivity|].
  pose proof (selection_stays_valid dotsEngine 2 10
                [mkEntry heading "Node.js setup" "node-js-setup" "" 6;
                 mkEntry heading "Upgrading to v1.0" "upgrading" "" 5;
                 mkEntry heading "Deploying Node.js apps" "deploying" "" 4;
                 mkEntry heading "C++ bindings" "bindings" "" 3]
                [KeyPressed "/" false; Typed "node.js"; KeyPressed "ArrowDown" true]
                initialPanel H1) as [R1 _].
  split; [exact R1|].
  exact (proj1 (selection_stays_valid dotsEngine 2 10 _
                  [Typed "v1.0"; Typed "c++"] _ R1)).
Defined.

(** X17.  The arrow keys go round the list: in a panel that shows results
    with a highlighted index inside the list, [selectNext] moves to the
    next position and from the last to the first, [selectPrevious] moves
    to the position before and from the first to the last, and each undoes
    the other. *)
Theorem arrows_wrap_around (p : Panel) :
  items p <> [] ->
  0 <= selectedIndex p < Z.of_nat (length (items p)) ->
  let n := Z.of_nat (length (items p)) in
  selectedIndex (selectNext p)
    = (if selectedIndex p =? n - 1 then 0 else selectedIndex p + 1) /\
  selectedIndex (selectPrevious p)
    = (if selectedIndex p =? 0 then n - 1 else selectedIndex p - 1) /\
  selectPrevious (selectNext p) = p /\
  selectNext (selectPrevious p) = p.
Proof.
  intros Hne Hv. cbv zeta.
  assert (forall i, 0 <= i < Z.of_nat (length (items p)) ->
            Z.rem (i + 1) (Z.of_nat (length (items p)))
            = if i =? Z.of_nat (length (items p)) - 1 then 0 else i + 1) as Hnext.
  { intros i Hi. destruct (Z.eqb_spec i (Z.of_nat (length (items p)) - 1)) as [->|Hd].
    - replace (Z.of_nat (length (items p)) - 1 + 1)
        with (Z.of_nat (length (items p))) by lia.
      apply Z.rem_same. lia.
    - apply Z.rem_small. lia. }
  assert (forall i, 0 <= i < Z.of_nat (length (items p)) ->
            Z.rem (i - 1 + Z.of_nat (length (items p))) (Z.of_nat (length (items p)))
            = if i =? 0 then Z.of_nat (length (items p)) - 1 else i - 1) as Hprev.
  { intros i Hi. destruct (Z.eqb_spec i 0) as [->|Hd].
    - replace (0 - 1 + Z.of_nat (length (items p)))
        with (Z.of_nat (length (items p)) - 1) by lia.
      apply Z.rem_small. lia.
    - rewrite Z.rem_mod_nonneg by lia.
      replace (i - 1 + Z.of_nat (length (items p)))
        with (i - 1 + 1 * Z.of_nat (length (items p))) by lia.
      rewrite Z_mod_plus_full. apply Z.mod_small. lia. }
  unfold selectNext, selectPrevious.
  destruct p as [o its sel]. cbn [items selectedIndex isOpen] in *.
  destruct its as [|r rest]; [done|].
  cbn [items selectedIndex isOpen].
  set (n := Z.of_nat (length (r :: rest))) in *.
  rewrite (Hnext sel Hv), (Hprev sel Hv).
  split; [done|]. split; [done|]. split; f_equal.
  - destruct (Z.eqb_spec sel (n - 1)) as [->|Hd].
    + rewrite Hprev by lia. done.
    + rewrite Hprev by lia. destruct (Z.eqb_spec (sel + 1) 0); lia.
  - destruct (Z.eqb_spec sel 0) as [->|Hd].
    + rewrite Hnext by lia. by rewrite Z.eqb_refl.
    + rewrite Hnext by lia. destruct (Z.eqb_spec (sel - 1) (n - 1)); lia.
Qed.

Lemma arrows_wrap_around_witness :
  let p := mkPanel true
             [mkResult (mkEntry heading "Getting Started" "getting-started" "" 6) 102;
              mkResult (mkEntry heading "Starting the server" "starting" "" 4) 88] 1 in
  (items p <> [] /\ 0 <= selectedIndex p < Z.of_nat (length (items p))) /\
  selectedIndex (selectNext p) = 0 /\ selectPrevious (selectNext p) = p.
Proof.
  cbv zeta.
  assert (items (mkPanel true
             [mkResult (mkEntry heading "Getting Started" "getting-started" "" 6) 102;
              mkResult (mkEntry heading "Starting the server" "starting" "" 4) 88] 1)
          <> []) as H1 by done.
  assert (0 <= selectedIndex (mkPanel true
             [mkResult (mkEntry heading "Getting Started" "getting-started" "" 6) 102;
              mkResult (mkEntry heading "Starting the server" "starting" "" 4) 88] 1)
          < Z.of_nat (length (items (mkPanel true
             [mkResult (mkEntry heading "Getting Started" "getting-started" "" 6) 102;
              mkResult (mkEntry heading "Starting the server" "starting" "" 4) 88] 1))))
    as H2 by (simpl; lia).
  split; [done|].
  destruct (arrows_wrap_around _ H1 H2) as (R1 & _ & R3 & _).
  split; [exact R1 | exact R3].
Defined.

(** X18.  Enter always lands on a result: in an open panel that shows
    results with a highlighted index inside the list, the Enter key finds
    the highlighted result and closes the panel, leaving list and index as
    they are. *)
Theorem enter_closes_panel (typing : bool) (p : Panel) :
  isOpen p = true ->
  items p <> [] ->
  0 <= selectedIndex p < Z.of_nat (length (items p)) ->
  (exists resultItem, itemAt p (selectedIndex p) = Some resultItem) /\
  keydown "Enter" typing p = close p.
Proof.
  intros Ho Hne Hv.
  assert (exists resultItem, itemAt p (selectedIndex p) = Some resultItem) as [r Hr].
  { unfold itemAt. destruct (Z.ltb_spec (selectedIndex p) 0); [lia|].
    apply lookup_lt_is_Some_2. lia. }
  split; [by exists r|].
  unfold keydown. cbn [String.eqb Ascii.eqb Bool.eqb andb].
  rewrite Ho. unfold activateSelected. by rewrite Hr.
Qed.

Lemma enter_closes_panel_witness :
  let p := mkPanel true
             [mkResult (mkEntry heading "Getting Started" "getting-started" "" 6) 102;
              mkResult (mkEntry heading "Starting the server" "starting" "" 4) 88] 1 in
  (isOpen p = true /\ items p <> [] /\
   0 <= selectedIndex p < Z.of_nat (length (items p))) /\
  keydown "Enter" true p = close p.
Proof.
  cbv zeta.
  assert (isOpen (mkPanel true
             [mkResult (mkEntry heading "Getting Started" "getting-started" "" 6) 102;
              mkResult (mkEntry heading "Starting the server" "starting" "" 4) 88] 1)
          = true) as H0 by reflexivity.
  assert (items (mkPanel true
             [mkResult (mkEntry heading "Getting Started" "getting-started" "" 6) 102;
              mkResult (mkEntry heading "Starting the server" "starting" "" 4) 88] 1)
          <> []) as H1 by done.
  assert (0 <= selectedIndex (mkPanel true
             [mkResult (mkEntry heading "Getting Started" "getting-started" "" 6) 102;
              mkResult (mkEntry heading "Starting the server" "starting" "" 4) 88] 1)
          < Z.of_nat (length (items (mkPanel true
             [mkResult (mkEntry heading "Getting Started" "getting-started" "" 6) 102;
              mkResult (mkEntry heading "Starting the server" "starting" "" 4) 88] 1))))
    as H2 by (simpl; lia).
  split; [done|].
  exact (proj2 (enter_closes_panel true _ H0 H1 H2)).
Defined.


(** *** Trimmed queries *)

Lemma trimStart_head s : headNotWhitespace (trimStart s) = true.
Proof.
  induction s as [|c s IH]; [done|]. cbn [trimStart].
  destruct (isWhitespace c) eqn:E; [done|]. cbn [headNotWhitespace]. by rewrite E.
Qed.

Lemma trimEnd_head c rest :
  isWhitespace c = false -> exists kept, trimEnd (String c rest) = String c kept.
Proof.
  intros E. cbn [trimEnd]. destruct (trimEnd rest); rewrite ?E; eauto.
Qed.

Lemma trimEnd_keeps_head s :
  headNotWhitespace s = true -> headNotWhitespace (trimEnd s) = true.
Proof.
  destruct s as [|c rest]; [done|]. cbn [headNotWhitespace]. intros E.
  apply negb_true_iff in E. destruct (trimEnd_head c rest E) as [kept ->].
  cbn [headNotWhitespace]. by rewrite E.
Qed.

Lemma trimEnd_idempotent s : trimEnd (trimEnd s) = trimEnd s.
Proof.
  induction s as [|c s IH]; [done|]. cbn [trimEnd].
  destruct (trimEnd s) as [|k ks] eqn:E.
  - destruct (isWhitespace c) eqn:Ec; [done|]. cbn [trimEnd]. by rewrite Ec.
  - cbn [trimEnd] in IH |- *. by rewrite IH.
Qed.

Lemma trimEnd_fixed_cons c rest :
  trimEnd (String c rest) = String c rest ->
  (rest = EmptyString /\ isWhitespace c = false) \/
  (rest <> EmptyString /\ trimEnd rest = rest).
Proof.
  cbn [trimEnd]. destruct (trimEnd rest) as [|k ks] eqn:E.
  - destruct (isWhitespace c); [done|]. intros [= <-]. by left.
  - intros [= <-]. by right.
Qed.

Lemma trimEnd_lower s : trimEnd (toLowerCase s) = toLowerCase (trimEnd s).
Proof.
  induction s as [|c s IH]; [done|]. cbn [toLowerCase trimEnd]. rewrite IH.
  destruct (trimEnd s) as [|k ks]; cbn [toLowerCase]; [|done].
  rewrite isWhitespace_lower. by destruct (isWhitespace c).
Qed.

Lemma headNotWhitespace_lower s :
  headNotWhitespace (toLowerCase s) = headNotWhitespace s.
Proof.
  destruct s as [|c s]; [done|]. cbn [toLowerCase headNotWhitespace].
  by rewrite isWhitespace_lower.
Qed.

Lemma split_trimmed : forall s first others,
  trimEnd s = s -> s <> EmptyString ->
  splitWhitespace s = first :: others ->
  Forall (fun w => w <> EmptyString) others /\
  (headNotWhitespace s = true -> first <> EmptyString).
Proof.
  induction s as [|c rest IH]; intros first others Hfix Hne Hsplit; [done|].
  apply trimEnd_fixed_cons in Hfix as [[-> Hc]|[Hrest Hfix]].
  - cbn [splitWhitespace] in Hsplit. rewrite Hc in Hsplit.
    injection Hsplit as <- <-. done.
  - destruct (split_nonempty rest) as (p & o & Hp).
    destruct (IH p o Hfix Hrest Hp) as [Ho Hhead].
    cbn [splitWhitespace] in Hsplit. cbv zeta in Hsplit. rewrite Hp in Hsplit.
    cbn [headNotWhitespace].
    destruct (isWhitespace c) eqn:Ec.
    + split; [|done].
      destruct rest as [|c' r']; [done|].
      cbn [headNotWhitespace] in Hhead.
      destruct (isWhitespace c') eqn:Ec'.
      * by injection Hsplit as <- <-.
      * injection Hsplit as <- <-. constructor; [by apply Hhead|done].
    + by injection Hsplit as <- <-.
Qed.

(** X19.  [performSearch] never hands an empty word to the search: with a
    [minQueryLength] of at least 1, a query that is long enough after
    trimming goes to [fuzzySearch] and [renderResults] in its trimmed
    form, and splitting its lower-case form at whitespace leaves no empty
    word. *)
Theorem searched_words_not_empty (minQueryLength maxResults : Z)
    (index : list IndexEntry) (query : string) (p : Panel) :
  1 <= minQueryLength ->
  minQueryLength <= Z.of_nat (String.length (trim query)) ->
  performSearch minQueryLength maxResults index query p
    = andThen (fuzzySearch maxResults index (trim query))
        (fun results => renderResults results (trim query) p) /\
  Forall (fun w => w <> EmptyString)
    (splitWhitespace (toLowerCase (trim query))).
Proof.
  intros Hmin Hlen. split.
  - unfold performSearch. cbv zeta.
    destruct (Z.ltb_spec (Z.of_nat (String.length (trim query))) minQueryLength);
      [lia|done].
  - assert (trim query <> EmptyString) as Hne.
    { intros E. rewrite E in Hlen. simpl in Hlen. lia. }
    assert (toLowerCase (trim query) <> EmptyString) as Hne'.
    { destruct (trim query); [done|]. done. }
    destruct (split_nonempty (toLowerCase (trim query))) as (first & others & Hs).
    rewrite Hs.
    destruct (split_trimmed (toLowerCase (trim query)) first others)
      as [Ho Hf]; [|done|done|].
    + rewrite trimEnd_lower. unfold trim. by rewrite trimEnd_idempotent.
    + constructor; [|done]. apply Hf.
      rewrite headNotWhitespace_lower. unfold trim.
      apply trimEnd_keeps_head, trimStart_head.
Qed.

Lemma searched_words_not_empty_witness :
  (1 <= 2 /\ 2 <= Z.of_nat (String.length (trim "  Quick  Start "))) /\
  Forall (fun w => w <> EmptyString)
    (splitWhitespace (toLowerCase (trim "  Quick  Start "))).
Proof.
  assert (1 <= 2) as H1 by lia.
  assert (2 <= Z.of_nat (String.length (trim "  Quick  Start "))) as H2
    by (vm_compute; discriminate).
  split; [done|].
  exact (proj2 (searched_words_not_empty 2 10 [] "  Quick  Start " initialPanel H1 H2)).
Defined.

(** *** Cleaned text *)

Lemma spacesApart_tail c s : spacesApart (String c s) = true -> spacesApart s = true.
Proof. cbn [spacesApart]. intros H. by apply andb_true_iff in H as [_ H]. Qed.

Lemma collapseWhitespace_apart : forall s inRun,
  spacesApart (collapseWhitespace inRun s) = true /\
  (inRun = true -> headNotWhitespace (collapseWhitespace inRun s) = true).
Proof.
  induction s as [|c s IH]; intros inRun; [done|].
  cbn [collapseWhitespace]. destruct (isWhitespace c) eqn:Ec.
  - destruct inRun.
    + apply IH.
    + split; [|done]. destruct (IH true) as [Ha Hh].
      cbn [spacesApart]. rewrite Ha, andb_true_r.
      specialize (Hh eq_refl).
      destruct (collapseWhitespace true s); [done|].
      cbn [headNotWhitespace] in Hh. by rewrite Hh.
  - destruct (IH false) as [Ha _]. split.
    + cbn [spacesApart]. by rewrite Ec, Ha.
    + intros _. cbn [headNotWhitespace]. by rewrite Ec.
Qed.

Lemma newline_is_whitespace c :
  Ascii.eqb c "010"%char = true -> isWhitespace c = true.
Proof. intros H. apply Ascii.eqb_eq in H. by subst. Qed.

Lemma replaceNewlines_apart s : spacesApart s = true -> replaceNewlines s = s.
Proof.
  induction s as [|c s IH]; [done|]. intros H.
  cbn [replaceNewlines]. rewrite (IH (spacesApart_tail _ _ H)).
  cbn [spacesApart] in H. apply andb_true_iff in H as [H _].
  destruct (Ascii.eqb c "010"%char) eqn:E; [|done].
  rewrite (newline_is_whitespace _ E) in H.
  apply andb_true_iff in H as [H _]. apply Ascii.eqb_eq in H. subst. done.
Qed.

Lemma trimStart_apart s : spacesApart s = true -> spacesApart (trimStart s) = true.
Proof.
  induction s as [|c s IH]; [done|]. intros H. cbn [trimStart].
  destruct (isWhitespace c); [|done]. by apply IH, (spacesApart_tail c).
Qed.

Lemma trimEnd_single s : spacesApart s = true -> spacesSingle (trimEnd s) = true.
Proof.
  induction s as [|c s IH]; [done|]. intros H.
  pose proof (IH (spacesApart_tail _ _ H)) as IHs.
  cbn [trimEnd]. destruct (trimEnd s) as [|k ks] eqn:E.
  - destruct (isWhitespace c) eqn:Ec; [done|]. cbn [spacesSingle]. by rewrite Ec.
  - cbn [spacesSingle] in IHs |- *. rewrite IHs, andb_true_r.
    destruct (isWhitespace c) eqn:Ec; [|done].
    cbn [spacesApart] in H. rewrite Ec in H.
    apply andb_true_iff in H as [H _]. apply andb_true_iff in H as [H1 H2].
    rewrite H1. cbn [andb].
    destruct s as [|c' r']; [done|].
    apply negb_true_iff in H2.
    destruct (trimEnd_head c' r' H2) as [kept Hk]. rewrite Hk in E.
    injection E as <- _. by rewrite H2.
Qed.

Lemma spacesSingle_apart s : spacesSingle s = true -> spacesApart s = true.
Proof.
  induction s as [|c s IH]; [done|]. cbn [spacesSingle spacesApart]. intros H.
  apply andb_true_iff in H as [H1 H2]. rewrite (IH H2), andb_true_r.
  destruct (isWhitespace c); [|done].
  apply andb_true_iff in H1 as [-> H1]. by destruct s.
Qed.

Lemma collapseWhitespace_single s :
  spacesSingle s = true -> collapseWhitespace false s = s.
Proof.
  induction s as [|c s IH]; [done|]. cbn [spacesSingle]. intros H.
  apply andb_true_iff in H as [H1 H2]. specialize (IH H2).
  cbn [collapseWhitespace]. destruct (isWhitespace c) eqn:Ec.
  - apply andb_true_iff in H1 as [Hsp H1]. apply Ascii.eqb_eq in Hsp. subst c.
    destruct s as [|c' r']; [done|]. apply negb_true_iff in H1.
    cbn [collapseWhitespace] in IH |- *. rewrite H1 in IH |- *. by rewrite IH.
  - by rewrite IH.
Qed.

Lemma trimEnd_of_single s : spacesSingle s = true -> trimEnd s = s.
Proof.
  induction s as [|c s IH]; [done|]. cbn [spacesSingle]. intros H.
  apply andb_true_iff in H as [H1 H2]. specialize (IH H2).
  cbn [trimEnd]. rewrite IH. destruct s as [|c' r']; [|done].
  destruct (isWhitespace c); [|done]. by rewrite andb_false_r in H1.
Qed.

Lemma cleanText_clean s : isCleanText (cleanText s) = true.
Proof.
  unfold cleanText, trim.
  destruct (collapseWhitespace_apart s false) as [Ha _].
  rewrite (replaceNewlines_apart _ Ha).
  change (isCleanText ?u) with (headNotWhitespace u && spacesSingle u).
  rewrite trimEnd_keeps_head by apply trimStart_head.
  by rewrite trimEnd_single by by apply trimStart_apart.
Qed.

Lemma cleanText_fixed s : isCleanText s = true -> cleanText s = s.
Proof.
  intros H.
  change (isCleanText s) with (headNotWhitespace s && spacesSingle s) in H.
  apply andb_true_iff in H as [Hh Hs].
  unfold cleanText, trim. rewrite (collapseWhitespace_single _ Hs).
  rewrite (replaceNewlines_apart _ (spacesSingle_apart _ Hs)).
  assert (trimStart s = s) as ->.
  { destruct s as [|c s]; [done|]. cbn [headNotWhitespace] in Hh.
    apply negb_true_iff in Hh. cbn [trimStart]. by rewrite Hh. }
  by apply trimEnd_of_single.
Qed.

(** X20.  [cleanText] gives a normal form: the result has no whitespace at
    either end and every whitespace inside it is one space between two
    other characters; a text that already has this form is returned as it
    is, so cleaning twice is cleaning once. *)
Theorem cleanText_normal_form (txt : string) :
  isCleanText (cleanText txt) = true /\
  (isCleanText txt = true -> cleanText txt = txt) /\
  cleanText (cleanText txt) = cleanText txt.
Proof.
  split; [apply cleanText_clean|]. split; [apply cleanText_fixed|].
  apply cleanText_fixed, cleanText_clean.
Qed.

(** *** Heading ids *)

Lemma dash_not_slugChar : isSlugChar "-"%char = false.
Proof. reflexivity. Qed.

Lemma dashesApart_tail c s : dashesApart (String c s) = true -> dashesApart s = true.
Proof. cbn [dashesApart]. intros H. by apply andb_true_iff in H as [_ H]. Qed.

Lemma dashRuns_apart : forall s inRun,
  dashesApart (dashRuns inRun s) = true /\
  (inRun = true -> headIsSlugChar (dashRuns inRun s) = true).
Proof.
  induction s as [|c s IH]; intros inRun; [done|].
  cbn [dashRuns]. destruct (isSlugChar c) eqn:Ec.
  - destruct (IH false) as [Ha _]. split.
    + cbn [dashesApart]. by rewrite Ec, Ha.
    + intros _. cbn [headIsSlugChar]. done.
  - destruct inRun.
    + apply IH.
    + split; [|done]. destruct (IH true) as [Ha Hh].
      cbn [dashesApart]. rewrite dash_not_slugChar, Ha, andb_true_r.
      specialize (Hh eq_refl).
      destruct (dashRuns true s); [done|].
      cbn [headIsSlugChar] in Hh. by rewrite Hh.
Qed.

Lemma dropLastDash_head c s :
  isSlugChar c = true -> exists kept, dropLastDash (String c s) = String c kept.
Proof.
  intros Hc. cbn [dropLastDash]. destruct s; [|eauto].
  destruct (Ascii.eqb c "-"%char) eqn:E; [|eauto].
  apply Ascii.eqb_eq in E. subst. by rewrite dash_not_slugChar in Hc.
Qed.

Lemma dropLastDash_single s :
  dashesApart s = true -> dashesSingle (dropLastDash s) = true.
Proof.
  induction s as [|c s IH]; [done|]. intros H.
  pose proof (IH (dashesApart_tail _ _ H)) as IHs.
  cbn [dashesApart] in H. apply andb_true_iff in H as [H _].
  destruct s as [|c' r'].
  - cbn [dropLastDash]. destruct (Ascii.eqb c "-"%char) eqn:E; [done|].
    cbn [dashesSingle]. destruct (isSlugChar c) eqn:Es; [done|].
    done.
  - change (dropLastDash (String c (String c' r')))
      with (String c (dropLastDash (String c' r'))).
    cbn [dashesSingle]. rewrite IHs, andb_true_r.
    destruct (isSlugChar c) eqn:Es; [done|].
    apply andb_true_iff in H as [-> H]. cbn [andb].
    destruct (dropLastDash_head c' r' H) as [kept ->]. done.
Qed.

Lemma dropLastDash_keeps_head s :
  headIsSlugChar s = true -> headIsSlugChar (dropLastDash s) = true.
Proof.
  destruct s as [|c s]; [done|]. cbn [headIsSlugChar]. intros Hc.
  destruct (dropLastDash_head c s Hc) as [kept ->]. done.
Qed.

(** X21.  The base of a generated id is a slug: whatever the heading
    text, it holds only lower-case letters, digits and dashes, it neither
    starts nor ends with a dash, and no two dashes follow each other. *)
Theorem slug_is_slug (textContent : string) :
  isSlug (slug textContent) = true.
Proof.
  unfold slug, stripDashes.
  destruct (dashRuns_apart (toLowerCase textContent) false) as [Ha _].
  set (t := dashRuns false (toLowerCase textContent)) in *. clearbody t.
  change (isSlug ?u) with (headIsSlugChar u && dashesSingle u).
  assert (dashesApart (match t with
                       | String c rest => if Ascii.eqb c "-"%char then rest else t
                       | EmptyString => t
                       end) = true /\
          headIsSlugChar (match t with
                          | String c rest => if Ascii.eqb c "-"%char then rest else t
                          | EmptyString => t
                          end) = true) as [Ha' Hh'].
  { destruct t as [|c rest]; [done|].
    pose proof (dashesApart_tail _ _ Ha) as Hrest.
    pose proof Ha as Hfull.
    cbn [dashesApart] in Ha. apply andb_true_iff in Ha as [H _].
    destruct (Ascii.eqb c "-"%char) eqn:E.
    - apply Ascii.eqb_eq in E. subst c. rewrite dash_not_slugChar in H.
      split; [done|]. cbn [andb] in H. by destruct rest.
    - split; [exact Hfull|].
      cbn [headIsSlugChar]. by destruct (isSlugChar c) eqn:Es. }
  by rewrite dropLastDash_keeps_head, dropLastDash_single.
Qed.

Lemma getElementById_elem ids i :
  getElementById ids i = true -> i ∈ ids.
Proof.
  unfold getElementById. destruct i; [done|]. apply bool_decide_eq_true.
Qed.

Lemma string_append_length (a b : string) :
  String.length (a +:+ b) = (String.length a + String.length b)%nat.
Proof. induction a as [|c a IH]; [done|]. cbn. by rewrite <- IH. Qed.

Lemma string_append_inv (a b c : string) : a +:+ b = a +:+ c -> b = c.
Proof. induction a as [|x a IH]; [done|]. cbn. intros [= H]. by apply IH. Qed.

Lemma decimal_inj n m : decimal n = decimal m -> n = m.
Proof.
  unfold decimal. intros H.
  assert (Nat.to_uint n = Nat.to_uint m) as H'.
  { apply (f_equal NilEmpty.uint_of_string) in H.
    rewrite !NilEmpty.usu in H. by injection H. }
  by apply DecimalNat.Unsigned.to_uint_inj.
Qed.

Lemma candidateId_inj base n m :
  candidateId base n = candidateId base m -> n = m.
Proof.
  unfold candidateId. destruct n as [|n], m as [|m]; [done| | |].
  - intros H. apply (f_equal String.length) in H.
    rewrite !string_append_length in H.
    change (String.length "-") with 1%nat in H. lia.
  - intros H. apply (f_equal String.length) in H.
    rewrite !string_append_length in H.
    change (String.length "-") with 1%nat in H. lia.
  - intros H. apply string_append_inv in H.
    apply (string_append_inv "-") in H. by apply decimal_inj.
Qed.

Lemma taken_candidates_bound (ids : gset string) base : forall k,
  (forall i, (i < k)%nat -> getElementById ids (candidateId base i) = true) ->
  (k <= size ids)%nat.
Proof.
  intros k Hall.
  assert (NoDup (map (candidateId base) (seq 0 k))) as Hnd.
  { apply NoDup_fmap_2; [|apply NoDup_seq].
    intros n m. apply candidateId_inj. }
  assert (length (map (candidateId base) (seq 0 k)) = k) as Hlen
    by (by rewrite length_map, length_seq).
  apply (Nat.le_trans _
           (size (list_to_set (map (candidateId base) (seq 0 k)) : gset string))).
  { rewrite size_list_to_set by done. by rewrite Hlen. }
  apply subseteq_size. intros x Hx.
  apply elem_of_list_to_set, list_elem_of_In, in_map_iff in Hx as (i & <- & Hi).
  apply in_seq in Hi. apply getElementById_elem, Hall. lia.
Qed.

Lemma nextFreeId_least (ids : gset string) base : forall fuel k,
  (forall i, (i < k)%nat -> getElementById ids (candidateId base i) = true) ->
  (size ids <= k + fuel)%nat ->
  exists n, (k <= n)%nat /\
    nextFreeId fuel ids base (candidateId base k) (S k)
      = Some (candidateId base n) /\
    getElementById ids (candidateId base n) = false /\
    forall i, (i < n)%nat -> getElementById ids (candidateId base i) = true.
Proof.
  induction fuel as [|fuel IH]; intros k Hbelow Hfuel.
  - destruct (getElementById ids (candidateId base k)) eqn:E.
    + exfalso.
      assert (S k <= size ids)%nat; [|lia].
      apply (taken_candidates_bound ids base). intros i Hi.
      destruct (decide (i = k)) as [->|]; [done|]. apply Hbelow. lia.
    + exists k. cbn [nextFreeId]. rewrite E. done.
  - destruct (getElementById ids (candidateId base k)) eqn:E.
    + destruct (IH (S k)) as (n & Hn & Hrun & Hfree & Hleast).
      * intros i Hi. destruct (decide (i = k)) as [->|]; [done|]. apply Hbelow. lia.
      * lia.
      * exists n. split; [lia|]. cbn [nextFreeId]. rewrite E.
        change (base +:+ "-" +:+ decimal (S k)) with (candidateId base (S k)).
        done.
    + exists k. cbn [nextFreeId]. rewrite E. done.
Qed.

Lemma generateId_run (ids : gset string) (textContent : string) :
  exists n,
    generateId ids textContent = Some (candidateId (slug textContent) n) /\
    getElementById ids (candidateId (slug textContent) n) = false /\
    forall i, (i < n)%nat ->
      getElementById ids (candidateId (slug textContent) i) = true.
Proof.
  destruct (nextFreeId_least ids (slug textContent) (size ids) 0)
    as (n & _ & Hrun & Hfree & Hleast); [lia|lia|].
  by exists n.
Qed.

(** X22.  [generateId] returns, and what it returns is free: the loop ends
    after at most as many rounds as the document has ids, the id it
    returns names no element of the document, and it is the first free one
    of the slug, the slug with -1, with -2 and so on. *)
Theorem generateId_fresh (ids : gset string) (textContent : string) :
  exists n, (n <= size ids)%nat /\
    generateId ids textContent = Some (candidateId (slug textContent) n) /\
    getElementById ids (candidateId (slug textContent) n) = false /\
    forall i, (i < n)%nat ->
      getElementById ids (candidateId (slug textContent) i) = true.
Proof.
  destruct (generateId_run ids textContent) as (n & Hrun & Hfree & Hleast).
  exists n. split; [by apply (taken_candidates_bound ids (slug textContent))|done].
Qed.


(** *** The index that [buildIndex] builds *)

Lemma candidateId_empty base n :
  candidateId base n = EmptyString -> base = EmptyString.
Proof.
  destruct n as [|n]; [done|]. cbn [candidateId]. by destruct base.
Qed.

Lemma getElementById_free ids i :
  getElementById ids i = false -> i = EmptyString \/ i ∉ ids.
Proof.
  unfold getElementById. destruct i; [by left|]. intros H. right.
  by apply bool_decide_eq_false in H.
Qed.

(** What [generateId] gives a heading. *)
Lemma generateId_gives ids textContent :
  exists newId, generateId ids textContent = Some newId /\
    (newId = EmptyString \/ newId ∉ ids) /\
    (newId <> EmptyString \/ slug textContent = EmptyString).
Proof.
  destruct (generateId_run ids textContent) as (n & Hrun & Hfree & _).
  exists (candidateId (slug textContent) n). split; [done|].
  split; [by apply getElementById_free|].
  destruct (decide (candidateId (slug textContent) n = EmptyString)) as [E|E];
    [right; by apply candidateId_empty in E | by left].
Qed.

Lemma generateId_empty_slug ids textContent :
  slug textContent = EmptyString -> generateId ids textContent = Some EmptyString.
Proof.
  intros E. unfold generateId. rewrite E. cbv zeta. by destruct (size ids).
Qed.

Lemma withId_same h : withId (h_id h) h = h.
Proof. by destruct h. Qed.

(** The heading loop visits every heading, gives an id to those without,
    and pushes one entry for each. *)
Lemma indexHeadings_shape other : forall todo seen index,
  exists todo',
    indexHeadings other seen todo index
      = Some (seen ++ todo',
              index ++ map (fun h => headingEntry h (h_id h)) todo') /\
    Forall2 visited todo todo'.
Proof.
  induction todo as [|h rest IH]; intros seen index.
  - exists []. cbn [indexHeadings map]. by rewrite !app_nil_r.
  - cbn [indexHeadings]. destruct (h_id h) as [|c i] eqn:Eid.
    + destruct (generateId_gives (documentIds other (seen ++ h :: rest))
                  (h_textContent h)) as (newId & -> & _ & Hs).
      destruct (IH (seen ++ [withId newId h]) (index ++ [headingEntry h newId]))
        as (rest' & -> & HR).
      exists (withId newId h :: rest'). split.
      * by rewrite <- !app_assoc.
      * constructor; [|done]. split; [done|]. split; [by rewrite Eid|exact Hs].
    + destruct (IH (seen ++ [h]) (index ++ [headingEntry h (String c i)]))
        as (rest' & -> & HR).
      exists (h :: rest'). split.
      * rewrite <- !app_assoc. cbn [map app]. by rewrite Eid.
      * constructor; [|done]. split; [by rewrite withId_same|].
        split; [done|]. left. by rewrite Eid.
Qed.

(** Over headings that are settled the loop changes nothing. *)
Lemma indexHeadings_settled other : forall todo seen index,
  Forall settled todo ->
  indexHeadings other seen todo index
    = Some (seen ++ todo, index ++ map (fun h => headingEntry h (h_id h)) todo).
Proof.
  induction todo as [|h rest IH]; intros seen index Hs.
  - cbn [indexHeadings map]. by rewrite !app_nil_r.
  - apply Forall_cons in Hs as [Hh Hs]. cbn [indexHeadings].
    destruct (h_id h) as [|c i] eqn:Eid.
    + destruct Hh as [Hh|Hh]; [done|].
      rewrite (generateId_empty_slug _ _ Hh).
      rewrite <- Eid, withId_same, (IH _ _ Hs), <- !app_assoc. done.
    + rewrite (IH _ _ Hs), <- !app_assoc. cbn [map app]. by rewrite Eid.
Qed.

Lemma substring_length : forall s n,
  String.length (String.substring 0 n s) = Nat.min n (String.length s).
Proof.
  induction s as [|c s IH]; intros [|n]; cbn; [done..|]. by rewrite IH.
Qed.

Lemma headingEntry_wellFormed h i :
  1 <= h_level h <= 6 -> wellFormedEntry (headingEntry h i).
Proof.
  intros H. split; [cbn; lia|]. cbn [type headingEntry text].
  apply cleanText_clean.
Qed.

Lemma indexText_wellFormed hs index el :
  Forall wellFormedEntry index -> Forall wellFormedEntry (indexText hs index el).
Proof.
  intros H. unfold indexText. cbv zeta.
  destruct (Z.ltb_spec (Z.of_nat (String.length (cleanText (t_textContent el)))) 20);
    [done|].
  apply Forall_app. split; [done|]. constructor; [|done].
  split; [cbn; lia|]. cbn [type text weight]. split; [done|].
  rewrite substring_length. lia.
Qed.

Lemma insertByWeight_perm e : forall l, Permutation (insertByWeight e l) (e :: l).
Proof.
  induction l as [|e' l IH]; cbn [insertByWeight]; [done|].
  destruct (weight e' <=? weight e); [done|].
  rewrite IH. apply perm_swap.
Qed.

Lemma sortByWeight_perm : forall l, Permutation (sortByWeight l) l.
Proof.
  induction l as [|e l IH]; cbn [sortByWeight]; [done|].
  rewrite insertByWeight_perm. by constructor.
Qed.

Lemma insertByWeight_sorted e : forall l, byWeight l -> byWeight (insertByWeight e l).
Proof.
  unfold byWeight. induction l as [|e' l IH]; intros Hs; cbn [insertByWeight].
  - repeat constructor.
  - apply StronglySorted_inv in Hs as [Hs Hall].
    destruct (Z.leb_spec (weight e') (weight e)).
    + constructor; [by constructor|]. constructor; [done|].
      eapply List.Forall_impl; [|exact Hall]. cbv beta. intros a Ha. lia.
    + constructor; [by apply IH|].
      apply Forall_forall. intros a Ha.
      apply list_elem_of_In, (Permutation_in _ (insertByWeight_perm e l)) in Ha.
      destruct Ha as [<-|Ha]; [lia|].
      rewrite List.Forall_forall in Hall. by apply Hall.
Qed.

Lemma sortByWeight_sorted : forall l, byWeight (sortByWeight l).
Proof.
  induction l as [|e l IH]; cbn [sortByWeight]; [constructor|].
  by apply insertByWeight_sorted.
Qed.

Lemma visited_levels todo todo' :
  Forall2 visited todo todo' ->
  Forall (fun h => 1 <= h_level h <= 6) todo ->
  Forall (fun h => 1 <= h_level h <= 6) todo'.
Proof.
  induction 1 as [|h h' todo todo' (E & _ & _) _ IH]; [done|].
  intros Hl. apply Forall_cons in Hl as [Hh Hl].
  constructor; [|by apply IH]. rewrite E. done.
Qed.

Lemma fold_indexText_wellFormed hs : forall els index,
  Forall wellFormedEntry index ->
  Forall wellFormedEntry (fold_left (indexText hs) els index).
Proof.
  induction els as [|el els IH]; intros index H; cbn [fold_left]; [done|].
  by apply IH, indexText_wellFormed.
Qed.

Lemma fold_indexText_length hs : forall els index,
  (length (fold_left (indexText hs) els index) <= length index + length els)%nat.
Proof.
  induction els as [|el els IH]; intros index; cbn [fold_left length]; [lia|].
  etransitivity; [apply IH|]. unfold indexText. cbv zeta.
  destruct (_ <? _); [lia|]. rewrite length_app. cbn. lia.
Qed.

(** X25.  [buildIndex] builds a well-formed index.  For a document whose
    headings are h1 to h6, the build ends and every entry has a weight
    from 1 to 6; a heading entry has a cleaned text; a content entry has
    weight 1 and a text of 20 to 200 characters; the entries are in order
    of weight, larger first; and there are no more entries than headings
    and text elements. *)
Theorem buildIndex_well_formed (doc : Document) :
  Forall (fun h => 1 <= h_level h <= 6) (headings doc) ->
  exists doc' index,
    refresh doc = Some (doc', index) /\
    Forall wellFormedEntry index /\
    byWeight index /\
    (length index <= length (headings doc) + length (textElements doc))%nat.
Proof.
  intros Hlevels. unfold refresh, buildIndex.
  destruct (hasContent doc).
  2:{ exists doc, []. split; [done|]. split; [done|].
      split; [constructor|cbn; lia]. }
  destruct (indexHeadings_shape (otherIds doc) (headings doc) [] [])
    as (hs & -> & HR).
  cbn [app]. eexists _, _. split; [done|].
  assert (Forall wellFormedEntry (map (fun h => headingEntry h (h_id h)) hs)) as Hwf.
  { pose proof (visited_levels _ _ HR Hlevels) as Hl.
    apply Forall_forall. intros e He.
    apply list_elem_of_In, in_map_iff in He as (h' & <- & Hh').
    apply headingEntry_wellFormed.
    rewrite List.Forall_forall in Hl. by apply Hl. }
  split; [|split].
  - apply Forall_forall. intros e He.
    apply list_elem_of_In, (Permutation_in _ (sortByWeight_perm _)),
      list_elem_of_In in He.
    pose proof (fold_indexText_wellFormed hs (textElements doc) _ Hwf) as Hall.
    rewrite Forall_forall in Hall. by apply Hall.
  - apply sortByWeight_sorted.
  - rewrite (Permutation_length (sortByWeight_perm _)).
    etransitivity; [apply fold_indexText_length|].
    rewrite length_map. by rewrite (Forall2_length _ _ _ HR).
Qed.

Lemma buildIndex_well_formed_witness :
  let doc := mkDocument {["intro"]} true
               [mkHeading 2 "Quick  Start" "" None;
                mkHeading 1 "Guide" "guide" None]
               [mkTextElement "Run the installer from your terminal." (Some (InContent 0));
                mkTextElement "Too short." None] in
  Forall (fun h => 1 <= h_level h <= 6) (headings doc) /\
  exists doc' index,
    refresh doc = Some (doc', index) /\
    Forall wellFormedEntry index /\ byWeight index.
Proof.
  cbv zeta.
  assert (Forall (fun h => 1 <= h_level h <= 6)
            (headings (mkDocument {["intro"]} true
               [mkHeading 2 "Quick  Start" "" None;
                mkHeading 1 "Guide" "guide" None]
               [mkTextElement "Run the installer from your terminal." (Some (InContent 0));
                mkTextElement "Too short." None]))) as H
    by (repeat constructor; simpl; lia).
  split; [done|].
  destruct (buildIndex_well_formed _ H) as (doc' & index & R1 & R2 & R3 & _).
  exists doc', index. split; [exact R1|]. split; [exact R2|exact R3].
Defined.

(** X26.  [refresh] on a document that has not changed builds the same
    index again: after a build, building again gives the same entries in
    the same order and gives no heading a new id. *)
Theorem refresh_is_idempotent (doc doc' : Document) (index : list IndexEntry) :
  refresh doc = Some (doc', index) ->
  refresh doc' = Some (doc', index).
Proof.
  unfold refresh, buildIndex. destruct (hasContent doc) eqn:Ec.
  2:{ intros [= <- <-]. by rewrite Ec. }
  destruct (indexHeadings_shape (otherIds doc) (headings doc) [] [])
    as (hs & -> & HR).
  cbn [app]. intros [= <- <-]. cbn [hasContent otherIds headings textElements].
  rewrite indexHeadings_settled; [done|].
  clear -HR. induction HR as [|h h' todo todo' (_ & _ & Hs) _ IH]; by constructor.
Qed.

Lemma refresh_is_idempotent_witness :
  let doc := mkDocument {["intro"]} true
               [mkHeading 2 "Quick  Start" "" None;
                mkHeading 1 "Guide" "guide" None]
               [mkTextElement "Run the installer from your terminal." (Some (InContent 0));
                mkTextElement "Too short." None] in
  let doc' := mkDocument {["intro"]} true
               [mkHeading 2 "Quick  Start" "quick-start" None;
                mkHeading 1 "Guide" "guide" None]
               [mkTextElement "Run the installer from your terminal." (Some (InContent 0));
                mkTextElement "Too short." None] in
  let index := [mkEntry heading "Guide" "guide" "" 6;
                mkEntry heading "Quick Start" "quick-start" "" 5;
                mkEntry content "Run the installer from your terminal."
                  "quick-start" "Quick Start" 1] in
  refresh doc = Some (doc', index) /\ refresh doc' = Some (doc', index).
Proof.
  cbv zeta.
  assert (refresh (mkDocument {["intro"]} true
               [mkHeading 2 "Quick  Start" "" None;
                mkHeading 1 "Guide" "guide" None]
               [mkTextElement "Run the installer from your terminal." (Some (InContent 0));
                mkTextElement "Too short." None])
          = Some (mkDocument {["intro"]} true
               [mkHeading 2 "Quick  Start" "quick-start" None;
                mkHeading 1 "Guide" "guide" None]
               [mkTextElement "Run the installer from your terminal." (Some (InContent 0));
                mkTextElement "Too short." None],
              [mkEntry heading "Guide" "guide" "" 6;
               mkEntry heading "Quick Start" "quick-start" "" 5;
               mkEntry content "Run the installer from your terminal."
                 "quick-start" "Quick Start" 1])) as H
    by (vm_compute; reflexivity).
  split; [done|].
  exact (refresh_is_idempotent _ _ _ H).
Defined.


Lemma elem_documentIds other hs x :
  x ∈ documentIds other hs <-> x ∈ other \/ exists h, In h hs /\ h_id h = x.
Proof.
  unfold documentIds.
  rewrite elem_of_union, elem_of_list_to_set, list_elem_of_In, in_map_iff.
  split; (intros [H|(h & H1 & H2)]; [by left|right; by exists h]).
Qed.

(** The ids the loop gives are new: not an id of the document when the
    loop gets there, and not the id of any other heading afterwards. *)
Lemma indexHeadings_fresh other : forall todo seen index todo' index',
  indexHeadings other seen todo index = Some (seen ++ todo', index') ->
  forall k h h',
    todo !! k = Some h -> todo' !! k = Some h' ->
    h_id h = EmptyString -> h_id h' <> EmptyString ->
    (h_id h' ∉ documentIds other (seen ++ todo)) /\
    forall j h'', j <> k -> todo' !! j = Some h'' -> h_id h'' <> h_id h'.
Proof.
  induction todo as [|h0 rest IH]; intros seen index todo' index' Hrun k h h' Hk Hk' He Hne;
    [done|].
  cbn [indexHeadings] in Hrun.
  destruct (h_id h0) as [|c i] eqn:Eid.
  - destruct (generateId_gives (documentIds other (seen ++ h0 :: rest))
                (h_textContent h0)) as (newId & Hgen & Hfree & _).
    rewrite Hgen in Hrun.
    destruct (indexHeadings_shape other rest (seen ++ [withId newId h0])
                (index ++ [headingEntry h0 newId])) as (rest' & Hshape & HR).
    rewrite Hshape in Hrun. injection Hrun as Hout _.
    rewrite <- app_assoc in Hout. apply app_inv_head in Hout. cbn [app] in Hout.
    subst todo'.
    pose proof (IH _ _ _ _ Hshape) as Hfresh.
    assert (forall x, x <> EmptyString ->
              x ∈ documentIds other (seen ++ h0 :: rest) ->
              x ∈ documentIds other ((seen ++ [withId newId h0]) ++ rest)) as Hgrow.
    { intros x Hx. rewrite !elem_documentIds. intros [Ho|(hh & Hin & Hid)]; [by left|].
      right. apply in_app_iff in Hin as [Hin|[<-|Hin]].
      - exists hh. split; [|done]. rewrite <- app_assoc. apply in_app_iff. by left.
      - congruence.
      - exists hh. split; [|done]. apply in_app_iff. by right. }
    assert (newId ∈ documentIds other ((seen ++ [withId newId h0]) ++ rest)) as Hnew.
    { apply elem_documentIds. right. exists (withId newId h0). split; [|done].
      rewrite <- app_assoc. apply in_app_iff. right. by left. }
    destruct k as [|k].
    + cbn in Hk, Hk'. injection Hk as <-. injection Hk' as <-. cbn [h_id withId] in *.
      destruct Hfree as [Hfree|Hfree]; [done|]. split; [done|].
      intros [|j] h'' Hj Hj''; [done|]. cbn in Hj''.
      destruct (Forall2_lookup_r _ _ _ _ _ HR Hj'') as (hr & Hr & Hv).
      destruct (decide (h_id hr = EmptyString)) as [Ehr|Ehr].
      * destruct (decide (h_id h'' = EmptyString)) as [E''|E'']; [congruence|].
        destruct (Hfresh j hr h'' Hr Hj'' Ehr E'') as [Hout _].
        intros E. apply Hout. by rewrite E.
      * destruct Hv as (_ & Hsame & _). rewrite (Hsame Ehr).
        intros E. apply Hfree. rewrite <- E. apply elem_documentIds. right.
        exists hr. split; [|done]. apply in_app_iff. right. right.
        apply list_elem_of_In. by eapply list_elem_of_lookup_2.
    + cbn in Hk, Hk'.
      destruct (Hfresh k h h' Hk Hk' He Hne) as [Hout Hothers]. split.
      * intros Hin. by apply Hout, Hgrow.
      * intros [|j] h'' Hj Hj''.
        -- cbn in Hj''. injection Hj'' as <-. cbn [h_id withId].
           intros E. apply Hout. by rewrite <- E.
        -- cbn in Hj''. apply (Hothers j); [lia|done].
  - destruct (indexHeadings_shape other rest (seen ++ [h0])
                (index ++ [headingEntry h0 (String c i)])) as (rest' & Hshape & HR).
    rewrite Hshape in Hrun. injection Hrun as Hout _.
    rewrite <- app_assoc in Hout. apply app_inv_head in Hout. cbn [app] in Hout.
    subst todo'.
    pose proof (IH _ _ _ _ Hshape) as Hfresh.
    destruct k as [|k].
    + cbn in Hk. injection Hk as <-. congruence.
    + cbn in Hk, Hk'.
      destruct (Hfresh k h h' Hk Hk' He Hne) as [Hout Hothers].
      rewrite <- app_assoc in Hout. cbn [app] in Hout. split; [done|].
      intros [|j] h'' Hj Hj''.
      * cbn in Hj''. injection Hj'' as <-.
        intros E. apply Hout. rewrite <- E. apply elem_documentIds. right.
        exists h0. split; [|done]. apply in_app_iff. right. by left.
      * cbn in Hj''. apply (Hothers j); [lia|done].
Qed.

(** X27.  The ids [buildIndex] gives to headings are new.  A build
    changes a heading only by giving it an id when it had none; an id it
    gives (the slug may also be empty, then the heading stays without an
    id) was the id of no element of the document, and afterwards no other
    heading of the content has it. *)
Theorem generated_ids_are_new (doc doc' : Document) (index : list IndexEntry) :
  hasContent doc = true ->
  refresh doc = Some (doc', index) ->
  Forall2 visited (headings doc) (headings doc') /\
  forall k h h',
    headings doc !! k = Some h -> headings doc' !! k = Some h' ->
    h_id h = EmptyString -> h_id h' <> EmptyString ->
    (h_id h' ∉ documentIds (otherIds doc) (headings doc)) /\
    forall j h'', j <> k -> headings doc' !! j = Some h'' -> h_id h'' <> h_id h'.
Proof.
  intros Hc. unfold refresh, buildIndex. rewrite Hc.
  destruct (indexHeadings_shape (otherIds doc) (headings doc) [] [])
    as (hs & Hshape & HR).
  rewrite Hshape. cbn [app]. intros [= <- <-]. cbn [headings].
  split; [done|].
  intros k h h' Hk Hk' He Hne.
  exact (indexHeadings_fresh (otherIds doc) (headings doc) [] [] hs _ Hshape
           k h h' Hk Hk' He Hne).
Qed.

Lemma generated_ids_are_new_witness :
  let doc := mkDocument {["setup"]} true
               [mkHeading 2 "Setup" "" None;
                mkHeading 2 "Setup" "" None;
                mkHeading 3 "Setup 1" "setup-1" None]
               [] in
  let doc' := mkDocument {["setup"]} true
               [mkHeading 2 "Setup" "setup-2" None;
                mkHeading 2 "Setup" "setup-3" None;
                mkHeading 3 "Setup 1" "setup-1" None]
               [] in
  let index := [mkEntry heading "Setup" "setup-2" "" 5;
                mkEntry heading "Setup" "setup-3" "" 5;
                mkEntry heading "Setup 1" "setup-1" "" 4] in
  (hasContent doc = true /\ refresh doc = Some (doc', index)) /\
  Forall2 visited (headings doc) (headings doc').
Proof.
  cbv zeta.
  assert (hasContent (mkDocument {["setup"]} true
               [mkHeading 2 "Setup" "" None;
                mkHeading 2 "Setup" "" None;
                mkHeading 3 "Setup 1" "setup-1" None]
               []) = true) as H1 by reflexivity.
  assert (refresh (mkDocument {["setup"]} true
               [mkHeading 2 "Setup" "" None;
                mkHeading 2 "Setup" "" None;
                mkHeading 3 "Setup 1" "setup-1" None]
               [])
          = Some (mkDocument {["setup"]} true
               [mkHeading 2 "Setup" "setup-2" None;
                mkHeading 2 "Setup" "setup-3" None;
                mkHeading 3 "Setup 1" "setup-1" None]
               [],
              [mkEntry heading "Setup" "setup-2" "" 5;
               mkEntry heading "Setup" "setup-3" "" 5;
               mkEntry heading "Setup 1" "setup-1" "" 4])) as H2
    by (vm_compute; reflexivity).
  split; [exact (conj H1 H2)|].
  exact (proj1 (generated_ids_are_new _ _ _ H1 H2)).
Defined.

End SearchFacts.
